(** * latexrestricted: restricted path classes

    A shallow embedding of [latexrestricted/_restricted_pathlib.py] and of
    the import list of [latexrestricted/__init__.py].

    Python objects are modelled as follows.
    - [str] is [string]; the methods [lower], [startswith] and [endswith]
      are written out on it, [lower] for strings of ASCII characters.
    - a path object is a pair of its class and its path value; the path
      value is a flag and a list of components.
    - the dictionaries used as caches are [gmap]s, Python sets are [gset]s.
    - methods run in a state-and-exception monad over a [World]: the class
      level caches and lazily set class attributes, the current directory
      of the process, what the underlying path class answers about the file
      system, and two logs (the calls of the underlying [resolve], the
      calls handed down to the underlying path class). *)

From stdpp Require Import gmap strings list.
From Stdlib Require Import Ascii String.

Local Open Scope string_scope.

(** ** Python strings *)

Module PyStr.

(** The character [34], written this way since it delimits strings. *)
Definition dquote : string := String (ascii_of_nat 34) EmptyString.

Definition lower_char (c : ascii) : ascii :=
  let n := nat_of_ascii c in
  if (65 <=? n)%nat && (n <=? 90)%nat then ascii_of_nat (n + 32) else c.

(** The strings of ASCII characters. *)
Fixpoint is_ascii (s : string) : bool :=
  match s with
  | EmptyString => true
  | String c s' => (nat_of_ascii c <? 128)%nat && is_ascii s'
  end.

(** [str.lower] on a string of ASCII characters: the letters [A] to [Z]
    become [a] to [z] and nothing else changes.  On other strings Python
    lowers by the Unicode tables, which this function does not have: what
    is proved of the lower-cased name of an arbitrary path is proved for
    names of ASCII characters. *)
Fixpoint lower (s : string) : string :=
  match s with
  | EmptyString => EmptyString
  | String c s' => String (lower_char c) (lower s')
  end.

(** [s.startswith(pre)] *)
Fixpoint startswith (s pre : string) : bool :=
  match pre, s with
  | EmptyString, _ => true
  | String _ _, EmptyString => false
  | String a pre', String b s' => Ascii.eqb a b && startswith s' pre'
  end.

(** [s.endswith(suf)] *)
Definition endswith (s suf : string) : bool :=
  startswith (String.rev s) (String.rev suf).

(** [s.split(sep)] for a one-character separator. *)
Fixpoint split (sep : ascii) (s : string) : list string :=
  match s with
  | EmptyString => [EmptyString]
  | String c s' =>
      if Ascii.eqb c sep then EmptyString :: split sep s'
      else match split sep s' with
           | [] => [String c EmptyString]
           | x :: xs => String c x :: xs
           end
  end.

(** [sep.join(l)] *)
Fixpoint join (sep : string) (l : list string) : string :=
  match l with
  | [] => EmptyString
  | [x] => x
  | x :: xs => x ++ sep ++ join sep xs
  end.

(** [x in l] for a list or tuple of strings. *)
Definition contains (x : string) (l : list string) : bool :=
  existsb (String.eqb x) l.

(** [c in s] for a character [c] and a string [s]. *)
Fixpoint char_in (c : ascii) (s : string) : bool :=
  match s with
  | EmptyString => false
  | String d s' => Ascii.eqb c d || char_in c s'
  end.

End PyStr.

(** ** Path values *)

(** Modelled from the spec: the path value type that the restricted
    classes extend ([AnyPath], over [pathlib]) is not part of the two
    source files.  The spec describes it as an ordered sequence of
    components plus an absolute/relative flag, with structural equality and
    hashing.  The methods below are those the restricted classes call, with
    the meaning they have for POSIX paths in [pathlib]. *)
Record Path := mkPath { is_absolute : bool; components : list string }.

Global Instance Path_eq_dec : EqDecision Path.
Proof. solve_decision. Defined.

Global Instance Path_countable : Countable Path.
Proof.
  refine (inj_countable' (fun p => (is_absolute p, components p))
                         (fun t => mkPath t.1 t.2) _).
  by intros [].
Defined.

Module PurePath.

(** The constructor from text: split at the separator, drop empty
    components and [.] components; the path is absolute when the text
    starts with the separator. *)
Definition of_string (s : string) : Path :=
  mkPath (PyStr.startswith s "/")
         (filter (fun c => c ≠ "" ∧ c ≠ ".") (PyStr.split "/" s)).

(** [p.parts]: the root, if any, then the components. *)
Definition parts (p : Path) : list string :=
  (if is_absolute p then ["/"] else []) ++ components p.

(** [p.name]: the last component, or the empty string. *)
Definition name (p : Path) : string := List.last (components p) "".

(** [p.parent]: the path without its last component; a path without
    components is its own parent. *)
Definition parent (p : Path) : Path :=
  mkPath (is_absolute p) (removelast (components p)).

Fixpoint is_prefix (l1 l2 : list string) : bool :=
  match l1, l2 with
  | [], _ => true
  | _ :: _, [] => false
  | a :: l1', b :: l2' => String.eqb a b && is_prefix l1' l2'
  end.

(** [p.is_relative_to(other)] *)
Definition is_relative_to (p other : Path) : bool :=
  Bool.eqb (is_absolute p) (is_absolute other)
  && is_prefix (components other) (components p).

(** [p.as_posix()] *)
Definition as_posix (p : Path) : string :=
  if is_absolute p then "/" ++ PyStr.join "/" (components p)
  else match components p with
       | [] => "."
       | _ => PyStr.join "/" (components p)
       end.

End PurePath.

(** ** Configuration *)

(** Modelled from the spec: [_latex_config.py] is not part of the two
    source files.  These are the values the restricted classes read from
    the [latex_config] object: the working directory, the two optional
    output directories, the four policy booleans and the ordered list of
    prohibited suffixes for written file names. *)
Module latex_config.
Record t := mk {
  tex_cwd : string;
  TEXMFOUTPUT : option string;
  TEXMF_OUTPUT_DIRECTORY : option string;
  can_read_anywhere : bool;
  can_read_dotfiles : bool;
  can_write_anywhere : bool;
  can_write_dotfiles : bool;
  prohibited_write_file_extensions : list string }.
End latex_config.

(** ** Classes, exceptions, decisions *)

Inductive Cls :=
| BaseRestrictedPath
| StringRestrictedPath
| SafeStringRestrictedPath
| SafeWriteStringRestrictedPath
| ResolvedRestrictedPath
| SafeResolvedRestrictedPath
| SafeWriteResolvedRestrictedPath.

Global Instance Cls_eq_dec : EqDecision Cls.
Proof. solve_decision. Defined.

Definition Cls_to_nat (c : Cls) : nat :=
  match c with
  | BaseRestrictedPath => 0 | StringRestrictedPath => 1
  | SafeStringRestrictedPath => 2 | SafeWriteStringRestrictedPath => 3
  | ResolvedRestrictedPath => 4 | SafeResolvedRestrictedPath => 5
  | SafeWriteResolvedRestrictedPath => 6
  end.

Definition Cls_of_nat (n : nat) : Cls :=
  match n with
  | 0 => BaseRestrictedPath | 1 => StringRestrictedPath
  | 2 => SafeStringRestrictedPath | 3 => SafeWriteStringRestrictedPath
  | 4 => ResolvedRestrictedPath | 5 => SafeResolvedRestrictedPath
  | _ => SafeWriteResolvedRestrictedPath
  end.

Global Instance Cls_countable : Countable Cls.
Proof. refine (inj_countable' Cls_to_nat Cls_of_nat _). by intros []. Defined.

(** The method resolution order of each class, within this hierarchy. *)
Definition mro (c : Cls) : list Cls :=
  match c with
  | BaseRestrictedPath => [BaseRestrictedPath]
  | StringRestrictedPath => [StringRestrictedPath; BaseRestrictedPath]
  | SafeStringRestrictedPath =>
      [SafeStringRestrictedPath; StringRestrictedPath; BaseRestrictedPath]
  | SafeWriteStringRestrictedPath =>
      [SafeWriteStringRestrictedPath; StringRestrictedPath; BaseRestrictedPath]
  | ResolvedRestrictedPath => [ResolvedRestrictedPath; BaseRestrictedPath]
  | SafeResolvedRestrictedPath =>
      [SafeResolvedRestrictedPath; ResolvedRestrictedPath; BaseRestrictedPath]
  | SafeWriteResolvedRestrictedPath =>
      [SafeWriteResolvedRestrictedPath; ResolvedRestrictedPath; BaseRestrictedPath]
  end.

(** The two validation strategies, as subclasses of the two classes that
    define the access predicates. *)
Definition is_string_cls (c : Cls) : bool :=
  bool_decide (StringRestrictedPath ∈ mro c).

Definition is_resolved_cls (c : Cls) : bool :=
  bool_decide (ResolvedRestrictedPath ∈ mro c).

(** A path object: an instance of one of the classes. *)
Record RPath := mkRPath { cls_of : Cls; path_of : Path }.

Inductive exn :=
| NotImplementedError
| AttributeError (attr : string)
| KeyError
| IndexError
| OSError
| ImportError (name : string)
| PathSecurityError (msg : string).

(** [(is_accessible, reason_not_accessible)] *)
Definition decision : Type := bool * option string.

(** The calls handed down to the underlying path class. *)
Inductive FsCall :=
| fs_mkdir (p : Path)
| fs_open (p : Path) (mode : string)
| fs_read_bytes (p : Path)
| fs_read_text (p : Path)
| fs_rename (p target : Path)
| fs_replace (p target : Path)
| fs_rmdir (p : Path)
| fs_touch (p : Path)
| fs_unlink (p : Path)
| fs_write_bytes (p : Path)
| fs_write_text (p : Path).

(** Modelled from the spec: the methods of the underlying path class that
    touch the file system ([AnyPath.resolve], [AnyPath.is_resolved], and the
    [pathlib] methods that the restricted methods hand their calls down to)
    are not among the sources.  The spec has the resolved validator resolve
    symlinks through the file system, and the gate re-issue its call
    against the resolved form of a path that is not already fully resolved.
    The file system is what these methods answer: how a path resolves
    from a given current directory (it may fail), whether a path counts as
    resolved, and whether a call handed down fails.  By the docstring of
    [BaseRestrictedPath] the underlying [resolve] caches its results, so
    [fs_resolve] is what [resolve] answers, which need not be what is on
    the disk at that moment; a change of these answers is a change of the
    file system in this sense. *)
Record FileSystem := mkFileSystem {
  fs_resolve : string → Path → exn + Path;
  fs_is_resolved : string → Path → bool;
  fs_fails : FsCall → option exn }.

(** The attributes that the class methods set lazily on a class. *)
Record ClassDict := mkClassDict {
  _tex_cwd : option Path;
  _TEXMFOUTPUT : option (option Path);
  _TEXMF_OUTPUT_DIRECTORY : option (option Path);
  _tex_openout_roots : option (list Path);
  _tex_paranoid_roots : option (gset Path);
  _tex_paranoid_roots_resolved : option (gset Path);
  _tex_paranoid_roots_with_resolved : option (gset Path);
  _tex_texmfoutput_roots : option (gset Path) }.

Definition empty_dict : ClassDict :=
  mkClassDict None None None None None None None None.

Record World := mkWorld {
  fs : FileSystem;
  cwd : string;
  cwd_stack : list (option string);
  _tex_readable_dir_cache : gmap (Cls * Path) decision;
  _tex_readable_file_cache : gmap (Cls * Path) decision;
  _tex_writable_dir_cache : gmap (Cls * Path) decision;
  _tex_writable_file_cache : gmap (Cls * Path) decision;
  class_dict : Cls → ClassDict;
  resolutions : list Path;
  fs_calls : list FsCall }.

(** The world when the module has just been loaded. *)
Definition initial_world (f : FileSystem) (d : string) : World :=
  mkWorld f d [] ∅ ∅ ∅ ∅ (fun _ => empty_dict) [] [].

(** ** The monad of methods *)

Definition M (A : Type) : Type := World → (exn + A) * World.

Definition ret {A} (a : A) : M A := fun w => (inr a, w).

Definition raise {A} (e : exn) : M A := fun w => (inl e, w).

Definition bind {A B} (m : M A) (k : A → M B) : M B :=
  fun w => match m w with
           | (inl e, w') => (inl e, w')
           | (inr a, w') => k a w'
           end.

(** [try: m except E: h], where [catches] tells the exceptions of class [E]. *)
Definition try_except {A} (m : M A) (catches : exn → bool) (h : M A) : M A :=
  fun w => match m w with
           | (inl e, w') => if catches e then h w' else (inl e, w')
           | (inr a, w') => (inr a, w')
           end.

Definition is_KeyError (e : exn) : bool :=
  match e with KeyError => true | _ => false end.

Definition is_AttributeError (e : exn) : bool :=
  match e with AttributeError _ => true | _ => false end.

Declare Scope py_scope.
Delimit Scope py_scope with py.
Notation "x <- m ;; k" := (bind m (fun x => k))
  (at level 100, m at next level, right associativity) : py_scope.
Notation "m ;;; k" := (bind m (fun _ => k))
  (at level 100, right associativity) : py_scope.
Local Open Scope py_scope.

(** The result and the final world of a run. *)
Definition result {A} (m : M A) (w : World) : exn + A := (m w).1.
Definition after {A} (m : M A) (w : World) : World := (m w).2.

(** ** State access *)

Definition set_cwd (d : string) (w : World) : World :=
  mkWorld (fs w) d (cwd_stack w) (_tex_readable_dir_cache w)
    (_tex_readable_file_cache w) (_tex_writable_dir_cache w)
    (_tex_writable_file_cache w) (class_dict w) (resolutions w) (fs_calls w).

Definition set_cwd_stack (s : list (option string)) (w : World) : World :=
  mkWorld (fs w) (cwd w) s (_tex_readable_dir_cache w)
    (_tex_readable_file_cache w) (_tex_writable_dir_cache w)
    (_tex_writable_file_cache w) (class_dict w) (resolutions w) (fs_calls w).

Definition set_class_dict (d : Cls → ClassDict) (w : World) : World :=
  mkWorld (fs w) (cwd w) (cwd_stack w) (_tex_readable_dir_cache w)
    (_tex_readable_file_cache w) (_tex_writable_dir_cache w)
    (_tex_writable_file_cache w) d (resolutions w) (fs_calls w).

Definition log_resolution (p : Path) (w : World) : World :=
  mkWorld (fs w) (cwd w) (cwd_stack w) (_tex_readable_dir_cache w)
    (_tex_readable_file_cache w) (_tex_writable_dir_cache w)
    (_tex_writable_file_cache w) (class_dict w) (resolutions w ++ [p])%list
    (fs_calls w).

Definition log_fs_call (c : FsCall) (w : World) : World :=
  mkWorld (fs w) (cwd w) (cwd_stack w) (_tex_readable_dir_cache w)
    (_tex_readable_file_cache w) (_tex_writable_dir_cache w)
    (_tex_writable_file_cache w) (class_dict w) (resolutions w)
    (fs_calls w ++ [c])%list.

(** A change of the file system made from outside (or by a call handed
    down), and a change of directory made by the caller. *)
Definition set_fs (f : FileSystem) (w : World) : World :=
  mkWorld f (cwd w) (cwd_stack w) (_tex_readable_dir_cache w)
    (_tex_readable_file_cache w) (_tex_writable_dir_cache w)
    (_tex_writable_file_cache w) (class_dict w) (resolutions w) (fs_calls w).

(** The four class level dictionaries. *)
Inductive Cache := readable_dir | readable_file | writable_dir | writable_file.

Definition cache_of (c : Cache) (w : World) : gmap (Cls * Path) decision :=
  match c with
  | readable_dir => _tex_readable_dir_cache w
  | readable_file => _tex_readable_file_cache w
  | writable_dir => _tex_writable_dir_cache w
  | writable_file => _tex_writable_file_cache w
  end.

Definition set_cache (c : Cache) (m : gmap (Cls * Path) decision) (w : World)
  : World :=
  match c with
  | readable_dir =>
      mkWorld (fs w) (cwd w) (cwd_stack w) m (_tex_readable_file_cache w)
        (_tex_writable_dir_cache w) (_tex_writable_file_cache w)
        (class_dict w) (resolutions w) (fs_calls w)
  | readable_file =>
      mkWorld (fs w) (cwd w) (cwd_stack w) (_tex_readable_dir_cache w) m
        (_tex_writable_dir_cache w) (_tex_writable_file_cache w)
        (class_dict w) (resolutions w) (fs_calls w)
  | writable_dir =>
      mkWorld (fs w) (cwd w) (cwd_stack w) (_tex_readable_dir_cache w)
        (_tex_readable_file_cache w) m (_tex_writable_file_cache w)
        (class_dict w) (resolutions w) (fs_calls w)
  | writable_file =>
      mkWorld (fs w) (cwd w) (cwd_stack w) (_tex_readable_dir_cache w)
        (_tex_readable_file_cache w) (_tex_writable_dir_cache w) m
        (class_dict w) (resolutions w) (fs_calls w)
  end.

(** [cache[key]] and [cache[key] = d] *)
Definition getitem (c : Cache) (key : Cls * Path) : M decision :=
  fun w => match cache_of c w !! key with
           | Some d => (inr d, w)
           | None => (inl KeyError, w)
           end.

Definition setitem (c : Cache) (key : Cls * Path) (d : decision) : M unit :=
  fun w => (inr tt, set_cache c (<[key := d]> (cache_of c w)) w).

(** Modelled from the spec: [cache_key] is a property of [AnyPath]; by the
    comment above the caches it includes the class, and by their type it
    is the pair of the class and the path. *)
Definition cache_key (self : RPath) : Cls * Path := (cls_of self, path_of self).

(** A lazily set class attribute: its name and its place in the class
    dictionary. *)
Record Attr (A : Type) := mkAttr {
  attr_name : string;
  attr_get : ClassDict → option A;
  attr_set : A → ClassDict → ClassDict }.
Arguments mkAttr {A}.
Arguments attr_name {A}.
Arguments attr_get {A}.
Arguments attr_set {A}.

Definition a_tex_cwd : Attr Path :=
  mkAttr "_tex_cwd" _tex_cwd
    (fun v d => mkClassDict (Some v) (_TEXMFOUTPUT d) (_TEXMF_OUTPUT_DIRECTORY d)
       (_tex_openout_roots d) (_tex_paranoid_roots d)
       (_tex_paranoid_roots_resolved d) (_tex_paranoid_roots_with_resolved d)
       (_tex_texmfoutput_roots d)).

Definition a_TEXMFOUTPUT : Attr (option Path) :=
  mkAttr "_TEXMFOUTPUT" _TEXMFOUTPUT
    (fun v d => mkClassDict (_tex_cwd d) (Some v) (_TEXMF_OUTPUT_DIRECTORY d)
       (_tex_openout_roots d) (_tex_paranoid_roots d)
       (_tex_paranoid_roots_resolved d) (_tex_paranoid_roots_with_resolved d)
       (_tex_texmfoutput_roots d)).

Definition a_TEXMF_OUTPUT_DIRECTORY : Attr (option Path) :=
  mkAttr "_TEXMF_OUTPUT_DIRECTORY" _TEXMF_OUTPUT_DIRECTORY
    (fun v d => mkClassDict (_tex_cwd d) (_TEXMFOUTPUT d) (Some v)
       (_tex_openout_roots d) (_tex_paranoid_roots d)
       (_tex_paranoid_roots_resolved d) (_tex_paranoid_roots_with_resolved d)
       (_tex_texmfoutput_roots d)).

Definition a_tex_openout_roots : Attr (list Path) :=
  mkAttr "_tex_openout_roots" _tex_openout_roots
    (fun v d => mkClassDict (_tex_cwd d) (_TEXMFOUTPUT d)
       (_TEXMF_OUTPUT_DIRECTORY d) (Some v) (_tex_paranoid_roots d)
       (_tex_paranoid_roots_resolved d) (_tex_paranoid_roots_with_resolved d)
       (_tex_texmfoutput_roots d)).

Definition a_tex_paranoid_roots : Attr (gset Path) :=
  mkAttr "_tex_paranoid_roots" _tex_paranoid_roots
    (fun v d => mkClassDict (_tex_cwd d) (_TEXMFOUTPUT d)
       (_TEXMF_OUTPUT_DIRECTORY d) (_tex_openout_roots d) (Some v)
       (_tex_paranoid_roots_resolved d) (_tex_paranoid_roots_with_resolved d)
       (_tex_texmfoutput_roots d)).

Definition a_tex_paranoid_roots_resolved : Attr (gset Path) :=
  mkAttr "_tex_paranoid_roots_resolved" _tex_paranoid_roots_resolved
    (fun v d => mkClassDict (_tex_cwd d) (_TEXMFOUTPUT d)
       (_TEXMF_OUTPUT_DIRECTORY d) (_tex_openout_roots d)
       (_tex_paranoid_roots d) (Some v) (_tex_paranoid_roots_with_resolved d)
       (_tex_texmfoutput_roots d)).

Definition a_tex_paranoid_roots_with_resolved : Attr (gset Path) :=
  mkAttr "_tex_paranoid_roots_with_resolved" _tex_paranoid_roots_with_resolved
    (fun v d => mkClassDict (_tex_cwd d) (_TEXMFOUTPUT d)
       (_TEXMF_OUTPUT_DIRECTORY d) (_tex_openout_roots d)
       (_tex_paranoid_roots d) (_tex_paranoid_roots_resolved d) (Some v)
       (_tex_texmfoutput_roots d)).

Definition a_tex_texmfoutput_roots : Attr (gset Path) :=
  mkAttr "_tex_texmfoutput_roots" _tex_texmfoutput_roots
    (fun v d => mkClassDict (_tex_cwd d) (_TEXMFOUTPUT d)
       (_TEXMF_OUTPUT_DIRECTORY d) (_tex_openout_roots d)
       (_tex_paranoid_roots d) (_tex_paranoid_roots_resolved d)
       (_tex_paranoid_roots_with_resolved d) (Some v)).

(** The first class of the list that has the attribute in its own
    dictionary gives the value. *)
Fixpoint find_attr {A} (a : Attr A) (d : Cls → ClassDict) (l : list Cls)
  : option A :=
  match l with
  | [] => None
  | c :: l' => match attr_get a (d c) with
               | Some v => Some v
               | None => find_attr a d l'
               end
  end.

(** [cls.name]: looked up along the method resolution order. *)
Definition getattr {A} (a : Attr A) (cls : Cls) : M A :=
  fun w => match find_attr a (class_dict w) (mro cls) with
           | Some v => (inr v, w)
           | None => (inl (AttributeError (attr_name a)), w)
           end.

(** [cls.name = v]: set in the dictionary of [cls] itself. *)
Definition upd_dict {A} (a : Attr A) (cls : Cls) (v : A) (d : Cls → ClassDict)
  : Cls → ClassDict :=
  fun c => if decide (c = cls) then attr_set a v (d c) else d c.

Definition setattr {A} (a : Attr A) (cls : Cls) (v : A) : M unit :=
  fun w => (inr tt, set_class_dict (upd_dict a cls v (class_dict w)) w).

(** A class attribute given in the body of the base class and overridden
    in the bodies of some subclasses. *)
Fixpoint inherited_from {A} (base : A) (own : Cls → option A) (l : list Cls) : A :=
  match l with
  | [] => base
  | c :: l' => match own c with
               | Some v => v
               | None => inherited_from base own l'
               end
  end.

Definition inherited {A} (base : A) (own : Cls → option A) (c : Cls) : A :=
  inherited_from base own (mro c).

Fixpoint mapM {A B} (f : A → M B) (l : list A) : M (list B) :=
  match l with
  | [] => ret []
  | x :: l' => y <- f x ;; ys <- mapM f l' ;; ret (y :: ys)
  end.

(** ** The program *)

Section Program.

Variable latex_cfg : latex_config.t.

(** *** [_CdTeXCwd], the context manager [_cd_tex_cwd] *)

Definition _CdTeXCwd_enter : M unit :=
  fun w =>
    if String.eqb (cwd w) (latex_config.tex_cwd latex_cfg)
    then (inr tt, set_cwd_stack (cwd_stack w ++ [None])%list w)
    else (inr tt, set_cwd (latex_config.tex_cwd latex_cfg)
                    (set_cwd_stack (cwd_stack w ++ [Some (cwd w)])%list w)).

Definition _CdTeXCwd_exit : M unit :=
  fun w =>
    match cwd_stack w with
    | [] => (inl IndexError, w)
    | _ :: _ =>
        let last_cwd := List.last (cwd_stack w) None in
        let w' := set_cwd_stack (removelast (cwd_stack w)) w in
        match last_cwd with
        | Some d => (inr tt, set_cwd d w')
        | None => (inr tt, w')
        end
    end.

(** [with _cd_tex_cwd: body] *)
Definition with_cd_tex_cwd {A} (body : M A) : M A :=
  _CdTeXCwd_enter ;;;
  fun w => match body w with
           | (r, w') => match _CdTeXCwd_exit w' with
                        | (inl e, w'') => (inl e, w'')
                        | (inr _, w'') => (r, w'')
                        end
           end.

(** *** [BaseRestrictedPath] *)

Definition RPath_parent (self : RPath) : RPath :=
  mkRPath (cls_of self) (PurePath.parent (path_of self)).

(** [resolve]: the [resolve] of the underlying class, called with the TeX
    working directory as the current directory; each call is logged. *)
Definition resolve (self : RPath) : M RPath :=
  with_cd_tex_cwd
    (fun w => (match fs_resolve (fs w) (cwd w) (path_of self) with
               | inl e => inl e
               | inr p => inr (mkRPath (cls_of self) p)
               end,
               log_resolution (path_of self) w)).

(** Modelled from the spec: [is_resolved] is a method of [AnyPath], not
    among the sources; the spec has it tell whether the path is already
    fully resolved. *)
Definition is_resolved (self : RPath) : M bool :=
  fun w => (inr (fs_is_resolved (fs w) (cwd w) (path_of self)), w).

(** A call of the method of the underlying path class. *)
Definition super_call (c : FsCall) : M unit :=
  fun w => (match fs_fails (fs w) c with
            | Some e => inl e
            | None => inr tt
            end,
            log_fs_call c w).

(** [_access_file_system_with_resolved_paths]: declared without a value
    in the base class. *)
Definition _access_file_system_with_resolved_paths (c : Cls) : M bool :=
  match inherited None
          (fun c => match c with
                    | StringRestrictedPath => Some (Some false)
                    | ResolvedRestrictedPath => Some (Some true)
                    | _ => None
                    end) c with
  | Some b => ret b
  | None => raise (AttributeError "_access_file_system_with_resolved_paths")
  end.

(** The policy attributes: set from the configuration in the base class,
    overridden in the bodies of the [Safe] classes. *)
Definition _tex_can_read_anywhere : Cls → bool :=
  inherited (latex_config.can_read_anywhere latex_cfg)
    (fun c => match c with
              | SafeStringRestrictedPath | SafeResolvedRestrictedPath => Some false
              | _ => None
              end).

Definition _tex_can_read_dotfiles : Cls → bool :=
  inherited (latex_config.can_read_dotfiles latex_cfg)
    (fun c => match c with
              | SafeStringRestrictedPath | SafeResolvedRestrictedPath => Some false
              | _ => None
              end).

Definition _tex_can_write_anywhere : Cls → bool :=
  inherited (latex_config.can_write_anywhere latex_cfg)
    (fun c => match c with
              | SafeStringRestrictedPath | SafeResolvedRestrictedPath
              | SafeWriteStringRestrictedPath
              | SafeWriteResolvedRestrictedPath => Some false
              | _ => None
              end).

Definition _tex_can_write_dotfiles : Cls → bool :=
  inherited (latex_config.can_write_dotfiles latex_cfg)
    (fun c => match c with
              | SafeStringRestrictedPath | SafeResolvedRestrictedPath
              | SafeWriteStringRestrictedPath
              | SafeWriteResolvedRestrictedPath => Some false
              | _ => None
              end).

Definition _tex_prohibited_write_file_extensions : Cls → list string :=
  inherited (latex_config.prohibited_write_file_extensions latex_cfg)
    (fun _ => None).

(** The class methods that compute the roots. *)

Definition tex_cwd (cls : Cls) : M Path :=
  try_except (getattr a_tex_cwd cls) is_AttributeError
    (setattr a_tex_cwd cls (PurePath.of_string (latex_config.tex_cwd latex_cfg)) ;;;
     getattr a_tex_cwd cls).

Definition TEXMFOUTPUT (cls : Cls) : M (option Path) :=
  try_except (getattr a_TEXMFOUTPUT cls) is_AttributeError
    (match latex_config.TEXMFOUTPUT latex_cfg with
     | None => setattr a_TEXMFOUTPUT cls None
     | Some s => setattr a_TEXMFOUTPUT cls (Some (PurePath.of_string s))
     end ;;;
     getattr a_TEXMFOUTPUT cls).

Definition TEXMF_OUTPUT_DIRECTORY (cls : Cls) : M (option Path) :=
  try_except (getattr a_TEXMF_OUTPUT_DIRECTORY cls) is_AttributeError
    (match latex_config.TEXMF_OUTPUT_DIRECTORY latex_cfg with
     | None => setattr a_TEXMF_OUTPUT_DIRECTORY cls None
     | Some s => setattr a_TEXMF_OUTPUT_DIRECTORY cls (Some (PurePath.of_string s))
     end ;;;
     getattr a_TEXMF_OUTPUT_DIRECTORY cls).

(** [cls.attr.append(x)] on a list and [cls.attr.add(x)] on a set. *)
Definition attr_append (a : Attr (list Path)) (cls : Cls) (x : Path) : M unit :=
  l <- getattr a cls ;; setattr a cls (l ++ [x])%list.

Definition attr_add (a : Attr (gset Path)) (cls : Cls) (x : Path) : M unit :=
  s <- getattr a cls ;; setattr a cls (s ∪ {[x]}).

Definition tex_openout_roots (cls : Cls) : M (list Path) :=
  try_except (getattr a_tex_openout_roots cls) is_AttributeError
    (setattr a_tex_openout_roots cls [] ;;;
     out_dir <- TEXMF_OUTPUT_DIRECTORY cls ;;
     match out_dir with
     | Some d => attr_append a_tex_openout_roots cls d
     | None => c <- tex_cwd cls ;; attr_append a_tex_openout_roots cls c
     end ;;;
     fallback <- TEXMFOUTPUT cls ;;
     match fallback with
     | Some t =>
         l <- getattr a_tex_openout_roots cls ;;
         if bool_decide (t ∈ l) then ret tt
         else attr_append a_tex_openout_roots cls t
     | None => ret tt
     end ;;;
     getattr a_tex_openout_roots cls).

Definition tex_paranoid_roots (cls : Cls) : M (gset Path) :=
  try_except (getattr a_tex_paranoid_roots cls) is_AttributeError
    (setattr a_tex_paranoid_roots cls ∅ ;;;
     c <- tex_cwd cls ;;
     attr_add a_tex_paranoid_roots cls c ;;;
     out_dir <- TEXMF_OUTPUT_DIRECTORY cls ;;
     match out_dir with
     | Some d => attr_add a_tex_paranoid_roots cls d
     | None => ret tt
     end ;;;
     fallback <- TEXMFOUTPUT cls ;;
     match fallback with
     | Some t => attr_add a_tex_paranoid_roots cls t
     | None => ret tt
     end ;;;
     getattr a_tex_paranoid_roots cls).

(** [set(p.resolve() for p in cls.tex_paranoid_roots())]: Python goes
    through the set in an order of its own; the list of its [elements]
    stands for one such order. *)
Definition tex_paranoid_roots_resolved (cls : Cls) : M (gset Path) :=
  try_except (getattr a_tex_paranoid_roots_resolved cls) is_AttributeError
    (roots <- tex_paranoid_roots cls ;;
     resolved <- mapM (fun p => r <- resolve (mkRPath cls p) ;; ret (path_of r))
                      (elements roots) ;;
     setattr a_tex_paranoid_roots_resolved cls (list_to_set resolved) ;;;
     getattr a_tex_paranoid_roots_resolved cls).

Definition tex_paranoid_roots_with_resolved (cls : Cls) : M (gset Path) :=
  try_except (getattr a_tex_paranoid_roots_with_resolved cls) is_KeyError
    (r <- tex_paranoid_roots cls ;;
     rr <- tex_paranoid_roots_resolved cls ;;
     setattr a_tex_paranoid_roots_with_resolved cls (r ∪ rr) ;;;
     getattr a_tex_paranoid_roots_with_resolved cls).

Definition tex_texmfoutput_roots (cls : Cls) : M (gset Path) :=
  try_except (getattr a_tex_texmfoutput_roots cls) is_AttributeError
    (setattr a_tex_texmfoutput_roots cls ∅ ;;;
     out_dir <- TEXMF_OUTPUT_DIRECTORY cls ;;
     match out_dir with
     | Some d => attr_add a_tex_texmfoutput_roots cls d
     | None => ret tt
     end ;;;
     fallback <- TEXMFOUTPUT cls ;;
     match fallback with
     | Some t => attr_add a_tex_texmfoutput_roots cls t
     | None => ret tt
     end ;;;
     getattr a_tex_texmfoutput_roots cls).

(** *** The reasons of a refusal *)

Definition reason_dotdot : string :=
  "security settings do not permit paths containing "
  ++ PyStr.dquote ++ ".." ++ PyStr.dquote.

Definition reason_location : string :=
  "security settings do not permit access to this location".

Definition reason_dotfiles : string :=
  "security settings do not permit access to dotfiles".

Definition reason_extension (ext : string) : string :=
  "security settings prevent writing files with extension "
  ++ PyStr.dquote ++ ext ++ PyStr.dquote.

(** *** [StringRestrictedPath] and [ResolvedRestrictedPath]:
    the directory predicates *)

(** [any(self.is_relative_to(p) for p in roots)] *)
Definition relative_to_any (p : Path) (roots : gset Path) : bool :=
  existsb (PurePath.is_relative_to p) (elements roots).

Definition StringRestrictedPath_tex_readable_dir (self : RPath) : M decision :=
  try_except (getitem readable_dir (cache_key self)) is_KeyError
    ((if _tex_can_read_anywhere (cls_of self) then
        setitem readable_dir (cache_key self) (true, None)
      else if PyStr.contains ".." (PurePath.parts (path_of self)) then
        setitem readable_dir (cache_key self) (false, Some reason_dotdot)
      else
        outside <- (if is_absolute (path_of self) then
                      roots <- tex_texmfoutput_roots (cls_of self) ;;
                      ret (negb (relative_to_any (path_of self) roots))
                    else ret false) ;;
        if (outside : bool) then
          setitem readable_dir (cache_key self) (false, Some reason_location)
        else
          setitem readable_dir (cache_key self) (true, None)) ;;;
     getitem readable_dir (cache_key self)).

Definition StringRestrictedPath_tex_writable_dir (self : RPath) : M decision :=
  try_except (getitem writable_dir (cache_key self)) is_KeyError
    ((if _tex_can_write_anywhere (cls_of self) then
        setitem writable_dir (cache_key self) (true, None)
      else if PyStr.contains ".." (PurePath.parts (path_of self)) then
        setitem writable_dir (cache_key self) (false, Some reason_dotdot)
      else
        outside <- (if is_absolute (path_of self) then
                      roots <- tex_texmfoutput_roots (cls_of self) ;;
                      ret (negb (relative_to_any (path_of self) roots))
                    else ret false) ;;
        if (outside : bool) then
          setitem writable_dir (cache_key self) (false, Some reason_location)
        else
          setitem writable_dir (cache_key self) (true, None)) ;;;
     getitem writable_dir (cache_key self)).

Definition ResolvedRestrictedPath_tex_readable_dir (self : RPath) : M decision :=
  try_except (getitem readable_dir (cache_key self)) is_KeyError
    ((if _tex_can_read_anywhere (cls_of self) then
        setitem readable_dir (cache_key self) (true, None)
      else
        resolved <- resolve self ;;
        roots <- tex_paranoid_roots_resolved (cls_of self) ;;
        if relative_to_any (path_of resolved) roots then
          setitem readable_dir (cache_key self) (true, None)
        else
          setitem readable_dir (cache_key self) (false, Some reason_location)) ;;;
     getitem readable_dir (cache_key self)).

Definition ResolvedRestrictedPath_tex_writable_dir (self : RPath) : M decision :=
  try_except (getitem writable_dir (cache_key self)) is_KeyError
    ((if _tex_can_write_anywhere (cls_of self) then
        setitem writable_dir (cache_key self) (true, None)
      else
        resolved <- resolve self ;;
        roots <- tex_paranoid_roots_resolved (cls_of self) ;;
        if relative_to_any (path_of resolved) roots then
          setitem writable_dir (cache_key self) (true, None)
        else
          setitem writable_dir (cache_key self) (false, Some reason_location)) ;;;
     getitem writable_dir (cache_key self)).

(** The class whose body defines the four predicates for a class. *)
Definition predicates_from : Cls → Cls :=
  inherited BaseRestrictedPath
    (fun c => match c with
              | StringRestrictedPath => Some StringRestrictedPath
              | ResolvedRestrictedPath => Some ResolvedRestrictedPath
              | _ => None
              end).

(** [self.tex_readable_dir()] and [self.tex_writable_dir()], dispatched
    on the class of [self]. *)
Definition tex_readable_dir (self : RPath) : M decision :=
  match predicates_from (cls_of self) with
  | StringRestrictedPath => StringRestrictedPath_tex_readable_dir self
  | ResolvedRestrictedPath => ResolvedRestrictedPath_tex_readable_dir self
  | _ => raise NotImplementedError
  end.

Definition tex_writable_dir (self : RPath) : M decision :=
  match predicates_from (cls_of self) with
  | StringRestrictedPath => StringRestrictedPath_tex_writable_dir self
  | ResolvedRestrictedPath => ResolvedRestrictedPath_tex_writable_dir self
  | _ => raise NotImplementedError
  end.

(** *** The file predicates *)

Definition is_dotfile (p : RPath) : bool :=
  PyStr.startswith (PurePath.name (path_of p)) ".".

Definition StringRestrictedPath_tex_readable_file (self : RPath) : M decision :=
  try_except (getitem readable_file (cache_key self)) is_KeyError
    ((if _tex_can_read_dotfiles (cls_of self) || negb (is_dotfile self) then
        d <- tex_readable_dir (RPath_parent self) ;;
        setitem readable_file (cache_key self) d
      else
        setitem readable_file (cache_key self) (false, Some reason_dotfiles)) ;;;
     getitem readable_file (cache_key self)).

Definition StringRestrictedPath_tex_writable_file (self : RPath) : M decision :=
  try_except (getitem writable_file (cache_key self)) is_KeyError
    (let name_lower := PyStr.lower (PurePath.name (path_of self)) in
     match List.find (fun ext => PyStr.endswith name_lower ext)
             (_tex_prohibited_write_file_extensions (cls_of self)) with
     | Some ext =>
         setitem writable_file (cache_key self) (false, Some (reason_extension ext))
     | None =>
         if _tex_can_write_dotfiles (cls_of self) || negb (is_dotfile self) then
           d <- tex_writable_dir (RPath_parent self) ;;
           setitem writable_file (cache_key self) d
         else
           setitem writable_file (cache_key self) (false, Some reason_dotfiles)
     end ;;;
     getitem writable_file (cache_key self)).

Definition ResolvedRestrictedPath_tex_readable_file (self : RPath) : M decision :=
  try_except (getitem readable_file (cache_key self)) is_KeyError
    (resolved <- resolve self ;;
     (if _tex_can_read_dotfiles (cls_of self)
         || negb (existsb is_dotfile [self; resolved]) then
        d <- tex_readable_dir (RPath_parent resolved) ;;
        setitem readable_file (cache_key self) d
      else
        setitem readable_file (cache_key self) (false, Some reason_dotfiles)) ;;;
     getitem readable_file (cache_key self)).

Definition ResolvedRestrictedPath_tex_writable_file (self : RPath) : M decision :=
  try_except (getitem writable_file (cache_key self)) is_KeyError
    (resolved <- resolve self ;;
     let name_lower := PyStr.lower (PurePath.name (path_of self)) in
     let resolved_name_lower := PyStr.lower (PurePath.name (path_of resolved)) in
     match List.find (fun ext => PyStr.endswith name_lower ext
                                 || PyStr.endswith resolved_name_lower ext)
             (_tex_prohibited_write_file_extensions (cls_of self)) with
     | Some ext =>
         setitem writable_file (cache_key self) (false, Some (reason_extension ext))
     | None =>
         if _tex_can_write_dotfiles (cls_of self)
            || negb (existsb is_dotfile [self; resolved]) then
           d <- tex_writable_dir (RPath_parent resolved) ;;
           setitem writable_file (cache_key self) d
         else
           setitem writable_file (cache_key self) (false, Some reason_dotfiles)
     end ;;;
     getitem writable_file (cache_key self)).

Definition tex_readable_file (self : RPath) : M decision :=
  match predicates_from (cls_of self) with
  | StringRestrictedPath => StringRestrictedPath_tex_readable_file self
  | ResolvedRestrictedPath => ResolvedRestrictedPath_tex_readable_file self
  | _ => raise NotImplementedError
  end.

Definition tex_writable_file (self : RPath) : M decision :=
  match predicates_from (cls_of self) with
  | StringRestrictedPath => StringRestrictedPath_tex_writable_file self
  | ResolvedRestrictedPath => ResolvedRestrictedPath_tex_writable_file self
  | _ => raise NotImplementedError
  end.

(** *** [BaseRestrictedPath]: the methods that modify the file system *)

(** [str(reason)] inside an f-string. *)
Definition format_reason (reason : option string) : string :=
  match reason with Some r => r | None => "None" end.

(** [f'{what} "{p.as_posix()}":  {reason}'] *)
Definition message (what : string) (p : RPath) (reason : option string) : string :=
  what ++ " " ++ PyStr.dquote ++ PurePath.as_posix (path_of p) ++ PyStr.dquote
  ++ ":  " ++ format_reason reason.

(** [self._access_file_system_with_resolved_paths and not self.is_resolved()] *)
Definition access_resolved_and_not_resolved (self : RPath) : M bool :=
  a <- _access_file_system_with_resolved_paths (cls_of self) ;;
  if (a : bool) then r <- is_resolved self ;; ret (negb r) else ret false.

(** The same test for the two paths of [rename] and [replace]. *)
Definition access_resolved_and_not_both_resolved (self target : RPath) : M bool :=
  a <- _access_file_system_with_resolved_paths (cls_of self) ;;
  if (a : bool) then
    r <- is_resolved self ;;
    if (r : bool) then t <- is_resolved target ;; ret (negb t) else ret true
  else ret false.

Definition chmod (self : RPath) : M unit := raise NotImplementedError.
Definition copy (self : RPath) : M unit := raise NotImplementedError.
Definition copytree (self : RPath) : M unit := raise NotImplementedError.
Definition lchmod (self : RPath) : M unit := raise NotImplementedError.
Definition symlink_to (self : RPath) : M unit := raise NotImplementedError.
Definition hardlink_to (self : RPath) : M unit := raise NotImplementedError.

Definition mkdir (self : RPath) : M unit :=
  with_cd_tex_cwd
    (d <- tex_writable_dir self ;;
     let '(is_writable, reason) := d in
     if negb is_writable then
       raise (PathSecurityError (message "Cannot create directory" self reason))
     else
       b <- access_resolved_and_not_resolved self ;;
       if (b : bool) then r <- resolve self ;; super_call (fs_mkdir (path_of r))
       else super_call (fs_mkdir (path_of self))).

Definition open (self : RPath) (mode : string) : M unit :=
  with_cd_tex_cwd
    ((if PyStr.char_in "r" mode then
        d <- tex_readable_file self ;;
        let '(is_readable, reason) := d in
        if negb is_readable then
          raise (PathSecurityError (message "Cannot read file" self reason))
        else ret tt
      else if existsb (fun char => PyStr.char_in char mode) ["w"; "x"; "a"]%char then
        d <- tex_writable_file self ;;
        let '(is_writable, reason) := d in
        if negb is_writable then
          raise (PathSecurityError (message "Cannot write file" self reason))
        else ret tt
      else raise NotImplementedError) ;;;
     b <- access_resolved_and_not_resolved self ;;
     if (b : bool) then r <- resolve self ;; super_call (fs_open (path_of r) mode)
     else super_call (fs_open (path_of self) mode)).

Definition read_bytes (self : RPath) : M unit :=
  with_cd_tex_cwd
    (d <- tex_readable_file self ;;
     let '(is_readable, reason) := d in
     if negb is_readable then
       raise (PathSecurityError (message "Cannot read file" self reason))
     else
       b <- access_resolved_and_not_resolved self ;;
       if (b : bool) then r <- resolve self ;; super_call (fs_read_bytes (path_of r))
       else super_call (fs_read_bytes (path_of self))).

Definition read_text (self : RPath) : M unit :=
  with_cd_tex_cwd
    (d <- tex_readable_file self ;;
     let '(is_readable, reason) := d in
     if negb is_readable then
       raise (PathSecurityError (message "Cannot read file" self reason))
     else
       b <- access_resolved_and_not_resolved self ;;
       if (b : bool) then r <- resolve self ;; super_call (fs_read_text (path_of r))
       else super_call (fs_read_text (path_of self))).

Definition rename (self target : RPath) : M unit :=
  with_cd_tex_cwd
    (d <- tex_writable_file self ;;
     let '(is_writable, reason) := d in
     if negb is_writable then
       raise (PathSecurityError (message "Cannot rename file" self reason))
     else
       dt <- tex_writable_file target ;;
       let '(target_is_writable, target_reason) := dt in
       if negb target_is_writable then
         raise (PathSecurityError
                  (message "Cannot create renamed file" target target_reason))
       else
         b <- access_resolved_and_not_both_resolved self target ;;
         if (b : bool) then
           r <- resolve self ;;
           rt <- resolve target ;;
           super_call (fs_rename (path_of r) (path_of rt))
         else super_call (fs_rename (path_of self) (path_of target))).

Definition replace (self target : RPath) : M unit :=
  with_cd_tex_cwd
    (d <- tex_writable_file self ;;
     let '(is_writable, reason) := d in
     if negb is_writable then
       raise (PathSecurityError (message "Cannot replace file" self reason))
     else
       dt <- tex_writable_file target ;;
       let '(target_is_writable, target_reason) := dt in
       if negb target_is_writable then
         raise (PathSecurityError
                  (message "Cannot create replacement file" target target_reason))
       else
         b <- access_resolved_and_not_both_resolved self target ;;
         if (b : bool) then
           r <- resolve self ;;
           rt <- resolve target ;;
           super_call (fs_replace (path_of r) (path_of rt))
         else super_call (fs_replace (path_of self) (path_of target))).

Definition rmdir (self : RPath) : M unit :=
  with_cd_tex_cwd
    (d <- tex_writable_dir self ;;
     let '(is_writable, reason) := d in
     if negb is_writable then
       raise (PathSecurityError (message "Cannot delete directory" self reason))
     else
       b <- access_resolved_and_not_resolved self ;;
       if (b : bool) then r <- resolve self ;; super_call (fs_rmdir (path_of r))
       else super_call (fs_rmdir (path_of self))).

Definition touch (self : RPath) : M unit :=
  with_cd_tex_cwd
    (d <- tex_writable_file self ;;
     let '(is_writable, reason) := d in
     if negb is_writable then
       raise (PathSecurityError (message "Cannot create file" self reason))
     else
       b <- access_resolved_and_not_resolved self ;;
       if (b : bool) then r <- resolve self ;; super_call (fs_touch (path_of r))
       else super_call (fs_touch (path_of self))).

Definition unlink (self : RPath) : M unit :=
  with_cd_tex_cwd
    (d <- tex_writable_file self ;;
     let '(is_writable, reason) := d in
     if negb is_writable then
       raise (PathSecurityError (message "Cannot delete file" self reason))
     else
       b <- access_resolved_and_not_resolved self ;;
       if (b : bool) then r <- resolve self ;; super_call (fs_unlink (path_of r))
       else super_call (fs_unlink (path_of self))).

Definition write_bytes (self : RPath) : M unit :=
  with_cd_tex_cwd
    (d <- tex_writable_file self ;;
     let '(is_writable, reason) := d in
     if negb is_writable then
       raise (PathSecurityError (message "Cannot write file" self reason))
     else
       b <- access_resolved_and_not_resolved self ;;
       if (b : bool) then r <- resolve self ;; super_call (fs_write_bytes (path_of r))
       else super_call (fs_write_bytes (path_of self))).

Definition write_text (self : RPath) : M unit :=
  with_cd_tex_cwd
    (d <- tex_writable_file self ;;
     let '(is_writable, reason) := d in
     if negb is_writable then
       raise (PathSecurityError (message "Cannot write file" self reason))
     else
       b <- access_resolved_and_not_resolved self ;;
       if (b : bool) then r <- resolve self ;; super_call (fs_write_text (path_of r))
       else super_call (fs_write_text (path_of self))).

End Program.

(** ** The package: [latexrestricted/__init__.py] *)

(** The classes that the body of [_restricted_pathlib.py] defines. *)
Definition _restricted_pathlib_classes : list string :=
  [ "_CdTeXCwd";
    "BaseRestrictedPath";
    "StringRestrictedPath";
    "SafeStringRestrictedPath";
    "SafeWriteStringRestrictedPath";
    "ResolvedRestrictedPath";
    "SafeResolvedRestrictedPath";
    "SafeWriteResolvedRestrictedPath" ].

(** The names in [from ._restricted_pathlib import (...)]. *)
Definition __init___imports : list string :=
  [ "BaseRestrictedPath";
    "StringRestrictedPath";
    "SafeStringRestrictedPath";
    "SafeOutputStringRestrictedPath";
    "ResolvedRestrictedPath";
    "SafeResolvedRestrictedPath";
    "SafeOutputResolvedRestrictedPath" ].

(** [from module import names]: the names are looked up in order; the
    first one that the module does not define raises [ImportError], and
    then nothing is bound. *)
Definition import_from (defined names : list string) : exn + list string :=
  match List.find (fun n => negb (PyStr.contains n defined)) names with
  | Some n => inl (ImportError n)
  | None => inr names
  end.

(** Importing the package runs its [__init__.py]. *)
Definition import_latexrestricted : exn + list string :=
  import_from _restricted_pathlib_classes __init___imports.

(** ** A configuration and a file system to run the program on *)

Module Sample.

(** A file system in which [docs/link.tex] is a symlink to [/etc/passwd]
    and nothing else is a symlink; relative paths resolve under [/work],
    and no call fails. *)
Definition the_fs : FileSystem :=
  mkFileSystem
    (fun _ p =>
       if decide (p = mkPath false ["docs"; "link.tex"])
       then inr (mkPath true ["etc"; "passwd"])
       else if is_absolute p then inr p
       else inr (mkPath true ("work" :: components p)))
    (fun _ p => is_absolute p)
    (fun _ => None).

Definition restrictive : latex_config.t :=
  latex_config.mk "/work" (Some "/fallback") None false false false false
    [".bat"; ".exe"].

Definition permissive : latex_config.t :=
  latex_config.mk "/work" None (Some "/out") true true true true [".bat"].

Definition w0 : World := initial_world the_fs "/home".

Definition str (s : string) : RPath :=
  mkRPath StringRestrictedPath (PurePath.of_string s).

Definition res (s : string) : RPath :=
  mkRPath ResolvedRestrictedPath (PurePath.of_string s).

End Sample.

(** ** Reasoning about runs: definitions *)

(** The parts of the world, and the worlds that agree outside some of
    them. *)
Inductive Field :=
| F_fs | F_cwd | F_cwd_stack | F_cache (c : Cache) | F_class_dict
| F_resolutions | F_fs_calls.

Global Instance Cache_eq_dec : EqDecision Cache.
Proof. solve_decision. Defined.

Global Instance Field_eq_dec : EqDecision Field.
Proof. solve_decision. Defined.

Definition same (f : Field) (w w' : World) : Prop :=
  match f with
  | F_fs => fs w' = fs w
  | F_cwd => cwd w' = cwd w
  | F_cwd_stack => cwd_stack w' = cwd_stack w
  | F_cache c => cache_of c w' = cache_of c w
  | F_class_dict => class_dict w' = class_dict w
  | F_resolutions => resolutions w' = resolutions w
  | F_fs_calls => fs_calls w' = fs_calls w
  end.

Definition frame (S : list Field) (w w' : World) : Prop :=
  ∀ f, f ∉ S → same f w w'.

(** [m] changes at most the parts [S] of the world. *)
Definition modifies {A} (S : list Field) (m : M A) : Prop :=
  ∀ w, frame S w (after m w).

(** The parts of the world that the predicate on written files may
    change. *)
Definition fp_write : list Field :=
  [F_cache writable_file; F_cache writable_dir; F_class_dict; F_resolutions].

(** Two laws of the places of attributes in a class dictionary. *)
Definition indep {A B} (a : Attr A) (b : Attr B) : Prop :=
  ∀ v d, attr_get b (attr_set a v d) = attr_get b d.

Definition get_set {A} (a : Attr A) : Prop :=
  ∀ v d, attr_get a (attr_set a v d) = Some v.

(** ** The values of the roots, from the configuration *)

Section Values.

Variable cfg : latex_config.t.

Definition cwd_path : Path := PurePath.of_string (latex_config.tex_cwd cfg).

Definition output_directory : option Path :=
  PurePath.of_string <$> latex_config.TEXMF_OUTPUT_DIRECTORY cfg.

Definition output_fallback_directory : option Path :=
  PurePath.of_string <$> latex_config.TEXMFOUTPUT cfg.

(** The roots for absolute paths: the output directory and the fallback
    directory, when they are configured. *)
Definition absolute_access_roots : gset Path :=
  match output_directory with Some d => {[d]} | None => ∅ end
  ∪ match output_fallback_directory with Some t => {[t]} | None => ∅ end.

Definition paranoid_roots : gset Path :=
  {[cwd_path]}
  ∪ match output_directory with Some d => {[d]} | None => ∅ end
  ∪ match output_fallback_directory with Some t => {[t]} | None => ∅ end.

Definition first_openout_root : Path :=
  match output_directory with Some d => d | None => cwd_path end.

Definition openout_roots : list Path :=
  first_openout_root
  :: match output_fallback_directory with
     | Some t => if decide (t = first_openout_root) then [] else [t]
     | None => []
     end.

(** Every value of attribute [a] that some class holds satisfies [P]. *)
Definition dict_all {A} (a : Attr A) (P : A → Prop) (d : Cls → ClassDict) : Prop :=
  ∀ c x, attr_get a (d c) = Some x → P x.

Definition dict_all_but {A} (cls : Cls) (a : Attr A) (P : A → Prop)
    (d : Cls → ClassDict) : Prop :=
  ∀ c x, c ≠ cls → attr_get a (d c) = Some x → P x.

(** The lazily set attributes hold the values of the configuration. *)
Definition attrs_ok (d : Cls → ClassDict) : Prop :=
  dict_all a_tex_cwd (eq cwd_path) d
  ∧ dict_all a_TEXMFOUTPUT (eq output_fallback_directory) d
  ∧ dict_all a_TEXMF_OUTPUT_DIRECTORY (eq output_directory) d
  ∧ dict_all a_tex_openout_roots (eq openout_roots) d
  ∧ dict_all a_tex_paranoid_roots (eq paranoid_roots) d
  ∧ dict_all a_tex_paranoid_roots_with_resolved (fun _ => False) d
  ∧ dict_all a_tex_texmfoutput_roots (eq absolute_access_roots) d.

End Values.

(** The world after a lazily set attribute was asked for. *)
Definition lazily {A} (a : Attr A) (cls : Cls) (v : A) (w w' : World) : Prop :=
  w' = w ∨ w' = set_class_dict (upd_dict a cls v (class_dict w)) w.

(** ** The decisions, in the words of the specification *)

Section Specs.

Variable cfg : latex_config.t.

(** The reasons that the code gives. *)
Definition code_template (r : string) : Prop :=
  r = reason_dotdot ∨ r = reason_location ∨ r = reason_dotfiles
  ∨ ∃ ext, ext ∈ latex_config.prohibited_write_file_extensions cfg
           ∧ r = reason_extension ext.

(** A decision is an allowance without a reason, or a refusal with one
    of the reasons. *)
Definition good_decision (d : decision) : Prop :=
  d = (true, None) ∨ ∃ r, d = (false, Some r) ∧ code_template r.

(** [p] lies under the output directory or under the fallback
    directory. *)
Definition under_absolute_root (p : Path) : bool :=
  match output_directory cfg with
  | Some d => PurePath.is_relative_to p d
  | None => false
  end
  || match output_fallback_directory cfg with
     | Some t => PurePath.is_relative_to p t
     | None => false
     end.

(** The lexical decision on a directory: allow when access is permitted
    anywhere; else refuse a path with a parent reference among its
    components; else allow an absolute path only under one of the roots
    for absolute paths; else (a relative path) allow. *)
Definition spec_dir (anywhere : bool) (p : Path) : decision :=
  if anywhere then (true, None)
  else if bool_decide (".." ∈ components p) then (false, Some reason_dotdot)
  else if is_absolute p then
    if under_absolute_root p then (true, None)
    else (false, Some reason_location)
  else (true, None).

(** The lexical decisions on files: the checks on the name, then the
    decision on the parent. *)
Definition spec_readable_file (cls : Cls) (p : Path) : decision :=
  if negb (_tex_can_read_dotfiles cfg cls)
     && PyStr.startswith (PurePath.name p) "."
  then (false, Some reason_dotfiles)
  else spec_dir (_tex_can_read_anywhere cfg cls) (PurePath.parent p).

Definition spec_writable_file (cls : Cls) (p : Path) : decision :=
  match List.find (PyStr.endswith (PyStr.lower (PurePath.name p)))
          (latex_config.prohibited_write_file_extensions cfg) with
  | Some ext => (false, Some (reason_extension ext))
  | None =>
      if negb (_tex_can_write_dotfiles cfg cls)
         && PyStr.startswith (PurePath.name p) "."
      then (false, Some reason_dotfiles)
      else spec_dir (_tex_can_write_anywhere cfg cls) (PurePath.parent p)
  end.

Definition lexical (c : Cache) (cls : Cls) (p : Path) : decision :=
  match c with
  | readable_dir => spec_dir (_tex_can_read_anywhere cfg cls) p
  | readable_file => spec_readable_file cls p
  | writable_dir => spec_dir (_tex_can_write_anywhere cfg cls) p
  | writable_file => spec_writable_file cls p
  end.

(** What holds of the worlds that the program reaches: the class
    attributes hold the values of the configuration, and every cached
    decision is well formed and, for the lexical classes, is the lexical
    decision. *)
Definition entry_ok (c : Cache) (key : Cls * Path) (d : decision) : Prop :=
  good_decision d
  ∧ (is_string_cls key.1 = true → d = lexical c key.1 key.2).

Definition caches_ok (w : World) : Prop :=
  ∀ c key d, cache_of c w !! key = Some d → entry_ok c key d.

Definition world_ok (w : World) : Prop :=
  attrs_ok cfg (class_dict w) ∧ caches_ok w.

(** The four access predicates, by the cache they fill. *)
Definition predicate (c : Cache) : RPath → M decision :=
  match c with
  | readable_dir => tex_readable_dir cfg
  | readable_file => tex_readable_file cfg
  | writable_dir => tex_writable_dir cfg
  | writable_file => tex_writable_file cfg
  end.

End Specs.

(** No cached decision is lost or changed from [w] to [w']. *)
Definition caches_le (w w' : World) : Prop :=
  ∀ c, cache_of c w ⊆ cache_of c w'.

(** A run that leaves the four caches as they are. *)
Definition same_caches (w w' : World) : Prop := ∀ c, cache_of c w' = cache_of c w.

(** ** The worlds that the program reaches *)

(** The calls that a user of the package can make, and the changes that
    come from outside: of the file system, and of the current directory. *)
Inductive Action :=
| call_predicate (c : Cache) (self : RPath)
| call_resolve (self : RPath)
| call_tex_cwd (cls : Cls)
| call_TEXMFOUTPUT (cls : Cls)
| call_TEXMF_OUTPUT_DIRECTORY (cls : Cls)
| call_tex_openout_roots (cls : Cls)
| call_tex_paranoid_roots (cls : Cls)
| call_tex_paranoid_roots_resolved (cls : Cls)
| call_tex_paranoid_roots_with_resolved (cls : Cls)
| call_tex_texmfoutput_roots (cls : Cls)
| call_mkdir (self : RPath)
| call_open (self : RPath) (mode : string)
| call_read_bytes (self : RPath)
| call_read_text (self : RPath)
| call_rename (self target : RPath)
| call_replace (self target : RPath)
| call_rmdir (self : RPath)
| call_touch (self : RPath)
| call_unlink (self : RPath)
| call_write_bytes (self : RPath)
| call_write_text (self : RPath)
| file_system_changes (f : FileSystem)
| chdir (d : string).

Section Reach.

Variable cfg : latex_config.t.

Definition run (a : Action) (w : World) : World :=
  match a with
  | call_predicate c self => after (predicate cfg c self) w
  | call_resolve self => after (resolve cfg self) w
  | call_tex_cwd cls => after (tex_cwd cfg cls) w
  | call_TEXMFOUTPUT cls => after (TEXMFOUTPUT cfg cls) w
  | call_TEXMF_OUTPUT_DIRECTORY cls => after (TEXMF_OUTPUT_DIRECTORY cfg cls) w
  | call_tex_openout_roots cls => after (tex_openout_roots cfg cls) w
  | call_tex_paranoid_roots cls => after (tex_paranoid_roots cfg cls) w
  | call_tex_paranoid_roots_resolved cls =>
      after (tex_paranoid_roots_resolved cfg cls) w
  | call_tex_paranoid_roots_with_resolved cls =>
      after (tex_paranoid_roots_with_resolved cfg cls) w
  | call_tex_texmfoutput_roots cls => after (tex_texmfoutput_roots cfg cls) w
  | call_mkdir self => after (mkdir cfg self) w
  | call_open self mode => after (open cfg self mode) w
  | call_read_bytes self => after (read_bytes cfg self) w
  | call_read_text self => after (read_text cfg self) w
  | call_rename self target => after (rename cfg self target) w
  | call_replace self target => after (replace cfg self target) w
  | call_rmdir self => after (rmdir cfg self) w
  | call_touch self => after (touch cfg self) w
  | call_unlink self => after (unlink cfg self) w
  | call_write_bytes self => after (write_bytes cfg self) w
  | call_write_text self => after (write_text cfg self) w
  | file_system_changes f => set_fs f w
  | chdir d => set_cwd d w
  end.

Definition run_all (l : list Action) (w : World) : World :=
  fold_left (fun w a => run a w) l w.

Inductive reachable : World → Prop :=
| reach_init f d : reachable (initial_world f d)
| reach_step a w : reachable w → reachable (run a w).

(** [m] keeps [I]. *)
Definition preserves {A} (I : World → Prop) (m : M A) : Prop :=
  ∀ w r w', m w = (r, w') → I w → I w'.

End Reach.

(** [I] looks at the caches and at the class attributes only. *)
Definition insensitive (I : World → Prop) : Prop :=
  ∀ w w', same_caches w w' → class_dict w' = class_dict w → I w → I w'.

(** The reasons of section 6 of the specification, as written there. *)
Definition spec_template (r : string) : Prop :=
  r = "security settings do not permit paths containing '..'"
  ∨ r = "security settings do not permit access to this location"
  ∨ r = "security settings do not permit access to dotfiles"
  ∨ ∃ ext, r = "security settings prevent writing files with extension "
                 ++ PyStr.dquote ++ ext ++ PyStr.dquote.

(** The configuration with another policy for writing. *)
Definition with_write_policy (cfg : latex_config.t)
    (anywhere dotfiles : bool) (extensions : list string) : latex_config.t :=
  latex_config.mk (latex_config.tex_cwd cfg) (latex_config.TEXMFOUTPUT cfg)
    (latex_config.TEXMF_OUTPUT_DIRECTORY cfg) (latex_config.can_read_anywhere cfg)
    (latex_config.can_read_dotfiles cfg) anywhere dotfiles extensions.

(** The world with other cached decisions on writing. *)
Definition with_write_caches (files dirs : gmap (Cls * Path) decision) (w : World)
  : World :=
  set_cache writable_file files (set_cache writable_dir dirs w).

(** [m] does not look at the cached decisions on writing, and leaves them
    as they are. *)
Definition ignores_write_caches {A} (m : M A) : Prop :=
  ∀ files dirs w,
    m (with_write_caches files dirs w)
    = (result m w, with_write_caches files dirs (after m w)).

(** [rename] and [replace]: an operation on two paths lets a call through
    to the file system only after the predicate on written files has
    allowed both paths, and raises the security error for the first path
    that the predicate refuses. *)
Definition gates_both_paths (cfg : latex_config.t)
    (op : RPath → RPath → M unit) (what what_target : string)
    (self target : RPath) (w : World) : Prop :=
  let w1 := after (_CdTeXCwd_enter cfg) w in
  (∀ reason w2,
     tex_writable_file cfg self w1 = (inr (false, reason), w2) →
     result (op self target) w
     = inl (PathSecurityError (message what self reason))
     ∧ fs_calls (after (op self target) w) = fs_calls w)
  ∧ (∀ r0 w2 reason w3,
       tex_writable_file cfg self w1 = (inr (true, r0), w2) →
       tex_writable_file cfg target w2 = (inr (false, reason), w3) →
       result (op self target) w
       = inl (PathSecurityError (message what_target target reason))
       ∧ fs_calls (after (op self target) w) = fs_calls w)
  ∧ (fs_calls (after (op self target) w) ≠ fs_calls w →
     ∃ r0 w2 r1 w3,
       tex_writable_file cfg self w1 = (inr (true, r0), w2)
       ∧ tex_writable_file cfg target w2 = (inr (true, r1), w3)).

(** The parts that an operation may change. *)
Definition fp_gate : list Field :=
  [F_cache readable_dir; F_cache readable_file; F_cache writable_dir;
   F_cache writable_file; F_class_dict; F_resolutions; F_fs_calls].

(** What [open] does for a mode that contains [r]. *)
Definition open_to_read (cfg : latex_config.t) (self : RPath) (mode : string)
  : M unit :=
  with_cd_tex_cwd cfg
    ((d <- tex_readable_file cfg self ;;
      let '(is_readable, reason) := d in
      if negb is_readable then
        raise (PathSecurityError (message "Cannot read file" self reason))
      else ret tt) ;;;
     b <- access_resolved_and_not_resolved self ;;
     if (b : bool) then r <- resolve cfg self ;; super_call (fs_open (path_of r) mode)
     else super_call (fs_open (path_of self) mode)).

(** ** Further definitions, for the properties of the remaining code *)

(** The actions that are calls of the package, as against the changes
    that come from outside. *)
Definition is_call (a : Action) : bool :=
  match a with
  | file_system_changes _ | chdir _ => false
  | _ => true
  end.

(** The methods of [BaseRestrictedPath] that take one path and hand one
    call down, with the predicate that each one asks, the words with which
    its error starts, and the call that it hands down. *)
Inductive PathOp :=
| op_mkdir | op_read_bytes | op_read_text | op_rmdir
| op_touch | op_unlink | op_write_bytes | op_write_text.

Definition run_op (cfg : latex_config.t) (o : PathOp) : RPath → M unit :=
  match o with
  | op_mkdir => mkdir cfg
  | op_read_bytes => read_bytes cfg
  | op_read_text => read_text cfg
  | op_rmdir => rmdir cfg
  | op_touch => touch cfg
  | op_unlink => unlink cfg
  | op_write_bytes => write_bytes cfg
  | op_write_text => write_text cfg
  end.

Definition op_predicate (o : PathOp) : Cache :=
  match o with
  | op_mkdir | op_rmdir => writable_dir
  | op_read_bytes | op_read_text => readable_file
  | op_touch | op_unlink | op_write_bytes | op_write_text => writable_file
  end.

Definition op_what (o : PathOp) : string :=
  match o with
  | op_mkdir => "Cannot create directory"
  | op_read_bytes | op_read_text => "Cannot read file"
  | op_rmdir => "Cannot delete directory"
  | op_touch => "Cannot create file"
  | op_unlink => "Cannot delete file"
  | op_write_bytes | op_write_text => "Cannot write file"
  end.

Definition op_call (o : PathOp) : Path → FsCall :=
  match o with
  | op_mkdir => fs_mkdir
  | op_read_bytes => fs_read_bytes
  | op_read_text => fs_read_text
  | op_rmdir => fs_rmdir
  | op_touch => fs_touch
  | op_unlink => fs_unlink
  | op_write_bytes => fs_write_bytes
  | op_write_text => fs_write_text
  end.

(** An operation on one path lets a call through to the file system only
    after its predicate has allowed the path, and raises the security error
    when the predicate refuses. *)
Definition gates_one_path (cfg : latex_config.t)
    (op : M unit) (pred : RPath → M decision) (what : string)
    (self : RPath) (w : World) : Prop :=
  let w1 := after (_CdTeXCwd_enter cfg) w in
  (∀ reason w2,
     pred self w1 = (inr (false, reason), w2) →
     result op w = inl (PathSecurityError (message what self reason))
     ∧ fs_calls (after op w) = fs_calls w)
  ∧ (fs_calls (after op w) ≠ fs_calls w →
     ∃ r0 w2, pred self w1 = (inr (true, r0), w2)).

(** The configuration with other policy booleans. *)
Definition with_policy (cfg : latex_config.t)
    (read_anywhere read_dotfiles write_anywhere write_dotfiles : bool)
  : latex_config.t :=
  latex_config.mk (latex_config.tex_cwd cfg) (latex_config.TEXMFOUTPUT cfg)
    (latex_config.TEXMF_OUTPUT_DIRECTORY cfg)
    read_anywhere read_dotfiles write_anywhere write_dotfiles
    (latex_config.prohibited_write_file_extensions cfg).

(** The body that the methods on one path share: ask the predicate, raise
    on a refusal, and hand the call down, on the resolved path when the
    class accesses the file system with resolved paths and the path is not
    resolved. *)
Definition guarded (cfg : latex_config.t) (pred : RPath → M decision)
    (what : string) (call : Path → FsCall) (self : RPath) : M unit :=
  with_cd_tex_cwd cfg
    (d <- pred self ;;
     let '(is_allowed, reason) := d in
     if negb is_allowed then
       raise (PathSecurityError (message what self reason))
     else
       b <- access_resolved_and_not_resolved self ;;
       if (b : bool) then r <- resolve cfg self ;; super_call (call (path_of r))
       else super_call (call (path_of self))).

(** Whether an allowed operation on [p] resolves [p] before it hands its
    call down: on the classes that resolve, for a path that does not count
    as resolved from the TeX working directory. *)
Definition resolves_first (cfg : latex_config.t) (w : World) (cls : Cls) (p : Path)
  : bool :=
  is_resolved_cls cls && negb (fs_is_resolved (fs w) (latex_config.tex_cwd cfg) p).

(** The path on which an allowed operation on [p] hands its call down, or
    the error of the resolution. *)
Definition path_used (cfg : latex_config.t) (w : World) (cls : Cls) (p : Path)
  : exn + Path :=
  if resolves_first cfg w cls p
  then fs_resolve (fs w) (latex_config.tex_cwd cfg) p
  else inr p.

(** What the underlying class answers to a call. *)
Definition outcome (w : World) (c : FsCall) : exn + unit :=
  match fs_fails (fs w) c with Some e => inl e | None => inr tt end.

(** The same for the two paths of [rename] and [replace]: both are
    resolved as soon as one of them does not count as resolved. *)
Definition resolves_both (cfg : latex_config.t) (w : World) (cls : Cls)
    (p target : Path) : bool :=
  is_resolved_cls cls
  && negb (fs_is_resolved (fs w) (latex_config.tex_cwd cfg) p
           && fs_is_resolved (fs w) (latex_config.tex_cwd cfg) target).

Definition paths_used (cfg : latex_config.t) (w : World) (cls : Cls)
    (p target : Path) : exn + Path * Path :=
  if resolves_both cfg w cls p target then
    match fs_resolve (fs w) (latex_config.tex_cwd cfg) p with
    | inl e => inl e
    | inr q =>
        match fs_resolve (fs w) (latex_config.tex_cwd cfg) target with
        | inl e => inl e
        | inr qt => inr (q, qt)
        end
    end
  else inr (p, target).

(** The paths for which such an operation calls [resolve]. *)
Definition paths_resolved (cfg : latex_config.t) (w : World) (cls : Cls)
    (p target : Path) : list Path :=
  if resolves_both cfg w cls p target then
    match fs_resolve (fs w) (latex_config.tex_cwd cfg) p with
    | inl _ => [p]
    | inr _ => [p; target]
    end
  else [].

(** What [resolve] answers for a path: the resolved path, or the error. *)
Definition answer (cfg : latex_config.t) (self : RPath) (w : World) : exn + Path :=
  match result (resolve cfg self) w with
  | inl e => inl e
  | inr r => inr (path_of r)
  end.

(** The path on which an allowed operation hands its call down: what
    [resolve] answers, when the class accesses the file system with
    resolved paths and the path does not count as resolved, and the path
    as given otherwise. *)
Definition path_handed (cfg : latex_config.t) (self : RPath) (w : World)
  : exn + Path :=
  if resolves_first cfg w (cls_of self) (path_of self) then answer cfg self w
  else inr (path_of self).

(** The same for the two paths of [rename] and [replace]: [resolve] is
    called for the path first and for the target second. *)
Definition paths_handed (cfg : latex_config.t) (self target : RPath) (w : World)
  : exn + Path * Path :=
  if resolves_both cfg w (cls_of self) (path_of self) (path_of target) then
    match answer cfg self w with
    | inl e => inl e
    | inr q =>
        match answer cfg target w with
        | inl e => inl e
        | inr qt => inr (q, qt)
        end
    end
  else inr (path_of self, path_of target).

(** The operations whose method of the underlying class acts on the path
    by itself.  In [pathlib] the methods [read_bytes], [read_text],
    [write_bytes] and [write_text] open the file through the [open] of the
    path, which comes back to the restricted [open], and [mkdir] with
    [parents] comes back to the restricted [mkdir] for the parent: the call
    that the restricted method hands down is then not the only one. *)
Definition acts_directly (o : PathOp) : bool :=
  match o with
  | op_rmdir | op_touch | op_unlink => true
  | op_mkdir | op_read_bytes | op_read_text | op_write_bytes | op_write_text =>
      false
  end.

(** The body that [rename] and [replace] share. *)
Definition guarded_both (cfg : latex_config.t) (what what_target : string)
    (call : Path → Path → FsCall) (self target : RPath) : M unit :=
  with_cd_tex_cwd cfg
    (d <- tex_writable_file cfg self ;;
     let '(is_writable, reason) := d in
     if negb is_writable then
       raise (PathSecurityError (message what self reason))
     else
       dt <- tex_writable_file cfg target ;;
       let '(target_is_writable, target_reason) := dt in
       if negb target_is_writable then
         raise (PathSecurityError (message what_target target target_reason))
       else
         b <- access_resolved_and_not_both_resolved self target ;;
         if (b : bool) then
           r <- resolve cfg self ;;
           rt <- resolve cfg target ;;
           super_call (call (path_of r) (path_of rt))
         else super_call (call (path_of self) (path_of target))).



(** The calls that only involve paths of the lexical classes. *)
Definition on_lexical_paths (a : Action) : bool :=
  match a with
  | call_predicate _ self | call_mkdir self | call_open self _
  | call_read_bytes self | call_read_text self | call_rmdir self
  | call_touch self | call_unlink self | call_write_bytes self
  | call_write_text self => is_string_cls (cls_of self)
  | call_rename self target | call_replace self target =>
      is_string_cls (cls_of self) && is_string_cls (cls_of target)
  | _ => false
  end.

(** What the underlying [resolve] answers for the paths of a list, taken
    in order from directory [dir]: the results, or the first error. *)
Fixpoint resolve_all (f : FileSystem) (dir : string) (l : list Path)
  : exn + list Path :=
  match l with
  | [] => inr []
  | p :: l' =>
      match fs_resolve f dir p with
      | inl e => inl e
      | inr q =>
          match resolve_all f dir l' with
          | inl e => inl e
          | inr qs => inr (q :: qs)
          end
      end
  end.

(** The paths for which such a run calls [resolve]: all of them up to the
    first that fails. *)
Fixpoint asked_until_failure (f : FileSystem) (dir : string) (l : list Path)
  : list Path :=
  match l with
  | [] => []
  | p :: l' =>
      p :: match fs_resolve f dir p with
           | inl _ => []
           | inr _ => asked_until_failure f dir l'
           end
  end.

Definition log_resolutions (l : list Path) (w : World) : World :=
  fold_left (fun w p => log_resolution p w) l w.

(** The resolved roots that class [cls] sees. *)
Definition resolved_roots_seen (cls : Cls) (w : World) : option (gset Path) :=
  find_attr a_tex_paranoid_roots_resolved (class_dict w) (mro cls).

Definition seen (cls : Cls) (o : option (gset Path)) (w : World) : Prop :=
  resolved_roots_seen cls w = o.

(** [I] looks at the class attributes only. *)
Definition attributes_only (I : World → Prop) : Prop :=
  ∀ w w', class_dict w' = class_dict w → I w → I w'.

(** The classes that override the four policy booleans, and those that
    override at least the two for writing. *)
Definition is_safe_cls (c : Cls) : bool :=
  match c with
  | SafeStringRestrictedPath | SafeResolvedRestrictedPath => true
  | _ => false
  end.

Definition is_safe_write_cls (c : Cls) : bool :=
  match c with
  | SafeStringRestrictedPath | SafeResolvedRestrictedPath
  | SafeWriteStringRestrictedPath | SafeWriteResolvedRestrictedPath => true
  | _ => false
  end.

(** [m] respects the relation [R] between worlds: from two related
    worlds it gives the same result and two related worlds. *)
Definition respects {A} (R : World → World → Prop) (m : M A) : Prop :=
  ∀ w w', R w w' →
          result m w' = result m w ∧ R (after m w) (after m w').

(** [m] does not look at the parts [S] of the world. *)
Definition blind {A} (S : list Field) (m : M A) : Prop := respects (frame S) m.

(** The two worlds differ at most in the decisions that are cached for
    other classes than [cls]. *)
Definition agree_for (cls : Cls) (w w' : World) : Prop :=
  frame [F_cache readable_dir; F_cache readable_file;
         F_cache writable_dir; F_cache writable_file] w w'
  ∧ ∀ c p, cache_of c w' !! (cls, p) = cache_of c w !! (cls, p).

(** The world with one more cached decision. *)
Definition with_entry (c : Cache) (key : Cls * Path) (d : decision) (w : World)
  : World :=
  set_cache c (<[key := d]> (cache_of c w)) w.

(** The calls that ask without acting: the predicates, [resolve] and the
    class methods. *)
Definition is_query (a : Action) : bool :=
  match a with
  | call_predicate _ _ | call_resolve _ | call_tex_cwd _ | call_TEXMFOUTPUT _
  | call_TEXMF_OUTPUT_DIRECTORY _ | call_tex_openout_roots _
  | call_tex_paranoid_roots _ | call_tex_paranoid_roots_resolved _
  | call_tex_paranoid_roots_with_resolved _ | call_tex_texmfoutput_roots _ => true
  | _ => false
  end.

(** Whether the predicate of a resolving class decides without resolving
    the path: the directory predicates do when the policy permits access
    anywhere. *)
Definition skips_resolution (cfg : latex_config.t) (cls : Cls) (c : Cache) : bool :=
  match c with
  | readable_dir => _tex_can_read_anywhere cfg cls
  | writable_dir => _tex_can_write_anywhere cfg cls
  | readable_file | writable_file => false
  end.

(** The half of the policy that a predicate is about. *)
Definition about_reading (c : Cache) : bool :=
  match c with
  | readable_dir | readable_file => true
  | writable_dir | writable_file => false
  end.

(** ** Reasoning about runs: lemmas *)

Set Warnings "-clear-no-such-hyp".

Example of_string_abs :
  PurePath.of_string "/out//dir/./x.tex" = mkPath true ["out"; "dir"; "x.tex"].
Proof. vm_compute. reflexivity. Qed.

Example of_string_rel :
  PurePath.of_string "a/../b" = mkPath false ["a"; ".."; "b"].
Proof. vm_compute. reflexivity. Qed.

Example endswith_bat : PyStr.endswith (PyStr.lower "Payload.BAT") ".bat" = true.
Proof. reflexivity. Qed.

Example as_posix_rt : PurePath.as_posix (PurePath.of_string "/a/b") = "/a/b".
Proof. vm_compute. reflexivity. Qed.

Lemma run_eq {A} (m : M A) w : m w = (result m w, after m w).
Proof. unfold result, after. by destruct (m w). Qed.

Lemma same_refl f w : same f w w.
Proof. by destruct f. Qed.

Lemma same_trans f w1 w2 w3 : same f w1 w2 → same f w2 w3 → same f w1 w3.
Proof. destruct f; simpl; congruence. Qed.

Lemma frame_refl S w : frame S w w.
Proof. intros f _. apply same_refl. Qed.

Lemma frame_trans S w1 w2 w3 : frame S w1 w2 → frame S w2 w3 → frame S w1 w3.
Proof. intros H1 H2 f Hf. eapply same_trans; [by apply H1 | by apply H2]. Qed.

Lemma frame_one f S w w' :
  f ∈ S → (∀ g, g ≠ f → same g w w') → frame S w w'.
Proof. intros Hf H g Hg. apply H. intros ->. done. Qed.

Lemma modifies_ret {A} S (a : A) : modifies S (ret a).
Proof. intros w. apply frame_refl. Qed.

Lemma modifies_raise {A} S e : modifies S (@raise A e).
Proof. intros w. apply frame_refl. Qed.

Lemma modifies_bind {A B} S (m : M A) (k : A → M B) :
  modifies S m → (∀ a, modifies S (k a)) → modifies S (bind m k).
Proof.
  intros Hm Hk w. specialize (Hm w). unfold after, bind in *.
  destruct (m w) as [[e|a] w']; simpl in *; [done|].
  eapply frame_trans; [exact Hm | apply Hk].
Qed.

Lemma modifies_try {A} S (m h : M A) catches :
  modifies S m → modifies S h → modifies S (try_except m catches h).
Proof.
  intros Hm Hh w. specialize (Hm w). unfold after, try_except in *.
  destruct (m w) as [[e|a] w']; simpl in *; [|done].
  destruct (catches e); [|done].
  eapply frame_trans; [exact Hm | apply Hh].
Qed.

Lemma modifies_getitem S c key : modifies S (getitem c key).
Proof.
  intros w. unfold after, getitem. destruct (cache_of c w !! key); apply frame_refl.
Qed.

Lemma modifies_setitem S c key d : F_cache c ∈ S → modifies S (setitem c key d).
Proof.
  intros HS w. apply (frame_one (F_cache c)); [done|].
  intros g Hg. destruct g as [| | |c'| | |]; try by destruct c.
  destruct c, c'; try done.
Qed.

Lemma modifies_getattr {A} S (a : Attr A) cls : modifies S (getattr a cls).
Proof.
  intros w. unfold after, getattr.
  destruct (find_attr a (class_dict w) (mro cls)); apply frame_refl.
Qed.

Lemma modifies_setattr {A} S (a : Attr A) cls v :
  F_class_dict ∈ S → modifies S (setattr a cls v).
Proof.
  intros HS w. apply (frame_one F_class_dict); [done|].
  intros g Hg. by destruct g as [| | |[]| | |].
Qed.

Lemma modifies_mapM {A B} S (f : A → M B) l :
  (∀ x, modifies S (f x)) → modifies S (mapM f l).
Proof.
  intros Hf. induction l as [|x l IH]; simpl.
  - apply modifies_ret.
  - apply modifies_bind; [apply Hf|]. intros y.
    apply modifies_bind; [apply IH|]. intros ys. apply modifies_ret.
Qed.

Section Frames.

Variable cfg : latex_config.t.

(** *** The context manager *)

Lemma exit_after_push w0 s x d :
  cwd_stack w0 = (s ++ [x])%list →
  d = (match x with Some d' => d' | None => cwd w0 end) →
  _CdTeXCwd_exit w0 = (inr tt, set_cwd d (set_cwd_stack s w0)).
Proof.
  intros Hs ->. unfold _CdTeXCwd_exit. rewrite Hs.
  destruct (s ++ [x])%list eqn:E; [by destruct s|]. rewrite <- E.
  rewrite last_last, removelast_last. destruct x; [done|].
  by destruct w0.
Qed.

Lemma enter_run w :
  _CdTeXCwd_enter cfg w = (inr tt, after (_CdTeXCwd_enter cfg) w).
Proof. unfold after, _CdTeXCwd_enter. by destruct (String.eqb _ _). Qed.

Lemma with_cd_run {A} (body : M A) w :
  let w1 := after (_CdTeXCwd_enter cfg) w in
  cwd_stack (after body w1) = cwd_stack w1 →
  cwd (after body w1) = cwd w1 →
  with_cd_tex_cwd cfg body w
  = (result body w1,
     set_cwd (cwd w) (set_cwd_stack (cwd_stack w) (after body w1))).
Proof.
  intros w1 Hs Hc. unfold with_cd_tex_cwd, bind.
  rewrite enter_run. fold w1.
  - rewrite (run_eq body w1).
    set (w2 := after body w1) in *.
    assert (∃ x, cwd_stack w1 = (cwd_stack w ++ [x])%list ∧
                 cwd w = match x with Some d' => d' | None => cwd w1 end)
      as (x & Hx & Hd).
    { subst w1. unfold after, _CdTeXCwd_enter.
      destruct (String.eqb (cwd w) (latex_config.tex_cwd cfg)) eqn:E; simpl.
      - exists None. split; [done|]. done.
      - exists (Some (cwd w)). done. }
    rewrite (exit_after_push w2 (cwd_stack w) x (cwd w)); [done|congruence|].
    rewrite Hd. destruct x; [done|]. done.
Qed.

Lemma enter_same f w :
  f ≠ F_cwd → f ≠ F_cwd_stack → same f w (after (_CdTeXCwd_enter cfg) w).
Proof.
  intros H1 H2. unfold after, _CdTeXCwd_enter.
  destruct (String.eqb _ _); by destruct f as [| | |[]| | |].
Qed.

Lemma enter_cwd w :
  cwd (after (_CdTeXCwd_enter cfg) w) = latex_config.tex_cwd cfg.
Proof.
  unfold after, _CdTeXCwd_enter.
  destruct (String.eqb _ _) eqn:E; simpl; [|done]. by apply String.eqb_eq.
Qed.

Lemma enter_fs w : fs (after (_CdTeXCwd_enter cfg) w) = fs w.
Proof. apply (enter_same F_fs); done. Qed.

Lemma resolve_eq self w :
  resolve cfg self w
  = (match fs_resolve (fs w) (latex_config.tex_cwd cfg) (path_of self) with
     | inl e => inl e
     | inr p => inr (mkRPath (cls_of self) p)
     end,
     log_resolution (path_of self) w).
Proof.
  unfold resolve. rewrite with_cd_run; [|done|done].
  pose proof (enter_cwd w) as Hc. pose proof (enter_fs w) as Hf.
  unfold result, after in *. simpl. rewrite Hc, Hf.
  f_equal. unfold _CdTeXCwd_enter.
  destruct (String.eqb _ _); by destruct w.
Qed.

Lemma modifies_resolve S self : F_resolutions ∈ S → modifies S (resolve cfg self).
Proof.
  intros HS w. unfold after. rewrite resolve_eq. simpl.
  apply (frame_one F_resolutions); [done|].
  intros g Hg. by destruct g as [| | |[]| | |].
Qed.

Lemma modifies_is_resolved S self : modifies S (is_resolved self).
Proof. intros w. apply frame_refl. Qed.

Lemma modifies_super_call S c : F_fs_calls ∈ S → modifies S (super_call c).
Proof.
  intros HS w. apply (frame_one F_fs_calls); [done|].
  intros g Hg. by destruct g as [| | |[]| | |].
Qed.

End Frames.

(** *** What each method may change *)

Ltac fp_mem := first [ assumption | by repeat constructor ].

Ltac fp_step :=
  first
    [ apply modifies_ret | apply modifies_raise
    | apply modifies_getitem | apply modifies_getattr
    | apply modifies_is_resolved
    | apply modifies_setitem; fp_mem
    | apply modifies_setattr; fp_mem
    | apply modifies_resolve; fp_mem
    | apply modifies_super_call; fp_mem
    | apply modifies_bind | apply modifies_try | apply modifies_mapM
    | match goal with
      | |- modifies _ (match ?x with _ => _ end) => destruct x
      | |- modifies _ (let '(_, _) := ?x in _) => destruct x
      | |- ∀ _, _ => intro
      end ].

Section Footprints.

Variable cfg : latex_config.t.

Lemma modifies_tex_cwd S cls : F_class_dict ∈ S → modifies S (tex_cwd cfg cls).
Proof. intros. unfold tex_cwd. repeat fp_step. Qed.

Lemma modifies_TEXMFOUTPUT S cls :
  F_class_dict ∈ S → modifies S (TEXMFOUTPUT cfg cls).
Proof. intros. unfold TEXMFOUTPUT. repeat fp_step. Qed.

Lemma modifies_TEXMF_OUTPUT_DIRECTORY S cls :
  F_class_dict ∈ S → modifies S (TEXMF_OUTPUT_DIRECTORY cfg cls).
Proof. intros. unfold TEXMF_OUTPUT_DIRECTORY. repeat fp_step. Qed.

Lemma modifies_attr_append S a cls x :
  F_class_dict ∈ S → modifies S (attr_append a cls x).
Proof. intros. unfold attr_append. repeat fp_step. Qed.

Lemma modifies_attr_add S a cls x :
  F_class_dict ∈ S → modifies S (attr_add a cls x).
Proof. intros. unfold attr_add. repeat fp_step. Qed.

Ltac fp_cls :=
  first
    [ fp_step
    | apply modifies_tex_cwd; fp_mem
    | apply modifies_TEXMFOUTPUT; fp_mem
    | apply modifies_TEXMF_OUTPUT_DIRECTORY; fp_mem
    | apply modifies_attr_append; fp_mem
    | apply modifies_attr_add; fp_mem ].

Lemma modifies_tex_openout_roots S cls :
  F_class_dict ∈ S → modifies S (tex_openout_roots cfg cls).
Proof. intros. unfold tex_openout_roots. repeat fp_cls. Qed.

Lemma modifies_tex_paranoid_roots S cls :
  F_class_dict ∈ S → modifies S (tex_paranoid_roots cfg cls).
Proof. intros. unfold tex_paranoid_roots. repeat fp_cls. Qed.

Lemma modifies_tex_texmfoutput_roots S cls :
  F_class_dict ∈ S → modifies S (tex_texmfoutput_roots cfg cls).
Proof. intros. unfold tex_texmfoutput_roots. repeat fp_cls. Qed.

Lemma modifies_tex_paranoid_roots_resolved S cls :
  F_class_dict ∈ S → F_resolutions ∈ S →
  modifies S (tex_paranoid_roots_resolved cfg cls).
Proof.
  intros. unfold tex_paranoid_roots_resolved.
  repeat first [ fp_cls | apply modifies_tex_paranoid_roots; fp_mem ].
Qed.

Lemma modifies_tex_paranoid_roots_with_resolved S cls :
  F_class_dict ∈ S → F_resolutions ∈ S →
  modifies S (tex_paranoid_roots_with_resolved cfg cls).
Proof.
  intros. unfold tex_paranoid_roots_with_resolved.
  repeat first [ fp_cls | apply modifies_tex_paranoid_roots; fp_mem
               | apply modifies_tex_paranoid_roots_resolved; fp_mem ].
Qed.

Ltac fp_roots :=
  first
    [ fp_cls
    | apply modifies_tex_texmfoutput_roots; fp_mem
    | apply modifies_tex_paranoid_roots_resolved; fp_mem ].

Lemma modifies_tex_readable_dir S self :
  F_cache readable_dir ∈ S → F_class_dict ∈ S → F_resolutions ∈ S →
  modifies S (tex_readable_dir cfg self).
Proof.
  intros. unfold tex_readable_dir.
  destruct (predicates_from _); try apply modifies_raise.
  - unfold StringRestrictedPath_tex_readable_dir. repeat fp_roots.
  - unfold ResolvedRestrictedPath_tex_readable_dir. repeat fp_roots.
Qed.

Lemma modifies_tex_writable_dir S self :
  F_cache writable_dir ∈ S → F_class_dict ∈ S → F_resolutions ∈ S →
  modifies S (tex_writable_dir cfg self).
Proof.
  intros. unfold tex_writable_dir.
  destruct (predicates_from _); try apply modifies_raise.
  - unfold StringRestrictedPath_tex_writable_dir. repeat fp_roots.
  - unfold ResolvedRestrictedPath_tex_writable_dir. repeat fp_roots.
Qed.

Lemma modifies_tex_readable_file S self :
  F_cache readable_file ∈ S → F_cache readable_dir ∈ S →
  F_class_dict ∈ S → F_resolutions ∈ S →
  modifies S (tex_readable_file cfg self).
Proof.
  intros. unfold tex_readable_file.
  destruct (predicates_from _); try apply modifies_raise.
  - unfold StringRestrictedPath_tex_readable_file.
    repeat first [ fp_roots | apply modifies_tex_readable_dir; fp_mem ].
  - unfold ResolvedRestrictedPath_tex_readable_file.
    repeat first [ fp_roots | apply modifies_tex_readable_dir; fp_mem ].
Qed.

Lemma modifies_tex_writable_file S self :
  F_cache writable_file ∈ S → F_cache writable_dir ∈ S →
  F_class_dict ∈ S → F_resolutions ∈ S →
  modifies S (tex_writable_file cfg self).
Proof.
  intros. unfold tex_writable_file.
  destruct (predicates_from _); try apply modifies_raise.
  - unfold StringRestrictedPath_tex_writable_file.
    repeat first [ fp_roots | apply modifies_tex_writable_dir; fp_mem ].
  - unfold ResolvedRestrictedPath_tex_writable_file.
    repeat first [ fp_roots | apply modifies_tex_writable_dir; fp_mem ].
Qed.

Lemma tex_writable_file_frame self w :
  frame fp_write w (after (tex_writable_file cfg self) w).
Proof. apply modifies_tex_writable_file; by repeat constructor. Qed.

End Footprints.

(** *** Class attributes *)

Lemma mro_head cls : ∃ l, mro cls = cls :: l.
Proof. destruct cls; eexists; reflexivity. Qed.

Lemma find_attr_upd_same {A} (a : Attr A) cls v d :
  get_set a → find_attr a (upd_dict a cls v d) (mro cls) = Some v.
Proof.
  intros Hgs. destruct (mro_head cls) as [l ->]. simpl.
  unfold upd_dict. rewrite decide_True by done. by rewrite Hgs.
Qed.

Lemma find_attr_upd_other {A B} (a : Attr A) (b : Attr B) cls v d l :
  indep a b → find_attr b (upd_dict a cls v d) l = find_attr b d l.
Proof.
  intros Hi. induction l as [|c l IH]; simpl; [done|].
  unfold upd_dict at 1. destruct (decide (c = cls)).
  - rewrite Hi, IH. done.
  - by rewrite IH.
Qed.

Lemma dict_all_find {A} (a : Attr A) P d l x :
  dict_all a P d → find_attr a d l = Some x → P x.
Proof.
  intros Hall. induction l as [|c l IH]; simpl; [done|].
  destruct (attr_get a (d c)) eqn:E; [|done].
  intros [= ->]. by apply (Hall c).
Qed.

Lemma dict_all_upd_other {A B} (a : Attr A) (b : Attr B) P cls v d :
  indep a b → dict_all b P d → dict_all b P (upd_dict a cls v d).
Proof.
  intros Hi Hall c x. unfold upd_dict. destruct (decide (c = cls)).
  - rewrite Hi. apply Hall.
  - apply Hall.
Qed.

Lemma dict_all_upd_same {A} (a : Attr A) (P : A → Prop) cls v d :
  get_set a → P v → dict_all_but cls a P d → dict_all a P (upd_dict a cls v d).
Proof.
  intros Hgs Hv Hall c x. unfold upd_dict. destruct (decide (c = cls)).
  - rewrite Hgs. by intros [= <-].
  - by apply Hall.
Qed.

Lemma dict_all_but_upd {A B} (a : Attr A) (b : Attr B) P cls v d :
  dict_all_but cls b P d → dict_all_but cls b P (upd_dict a cls v d).
Proof.
  intros Hall c x Hc. unfold upd_dict. rewrite decide_False by done.
  by apply Hall.
Qed.

Lemma dict_all_but_of_all {A} (a : Attr A) P cls d :
  dict_all a P d → dict_all_but cls a P d.
Proof. intros Hall c x _. apply Hall. Qed.

Ltac attr_law := by (intros ? ?; reflexivity).

(** Transport of the facts on attributes along the updates of a class
    dictionary. *)
Ltac solve_dict_all :=
  repeat first
    [ assumption
    | apply dict_all_but_of_all; assumption
    | apply dict_all_but_upd
    | apply dict_all_upd_other; [attr_law|]
    | apply dict_all_upd_same; [attr_law| |] ].

Section ClassMethods.

Variable cfg : latex_config.t.

Lemma tex_cwd_run cls w :
  dict_all a_tex_cwd (eq (cwd_path cfg)) (class_dict w) →
  ∃ w', tex_cwd cfg cls w = (inr (cwd_path cfg), w')
        ∧ lazily a_tex_cwd cls (cwd_path cfg) w w'.
Proof.
  intros Hall. unfold tex_cwd, try_except, getattr at 1.
  destruct (find_attr _ _ _) eqn:E; simpl.
  - apply (dict_all_find _ _ _ _ _ Hall) in E as <-. eexists. split; [done|by left].
  - unfold bind, setattr, getattr. simpl.
    rewrite find_attr_upd_same by attr_law.
    eexists. split; [done|by right].
Qed.

Lemma TEXMFOUTPUT_run cls w :
  dict_all a_TEXMFOUTPUT (eq (output_fallback_directory cfg)) (class_dict w) →
  ∃ w', TEXMFOUTPUT cfg cls w = (inr (output_fallback_directory cfg), w')
        ∧ lazily a_TEXMFOUTPUT cls (output_fallback_directory cfg) w w'.
Proof.
  intros Hall. unfold TEXMFOUTPUT, try_except, getattr at 1.
  destruct (find_attr _ _ _) eqn:E; simpl.
  - apply (dict_all_find _ _ _ _ _ Hall) in E as <-. eexists. split; [done|by left].
  - unfold output_fallback_directory.
    destruct (latex_config.TEXMFOUTPUT cfg); unfold bind, setattr, getattr; simpl;
      rewrite find_attr_upd_same by attr_law;
      (eexists; split; [done|by right]).
Qed.

Lemma TEXMF_OUTPUT_DIRECTORY_run cls w :
  dict_all a_TEXMF_OUTPUT_DIRECTORY (eq (output_directory cfg)) (class_dict w) →
  ∃ w', TEXMF_OUTPUT_DIRECTORY cfg cls w = (inr (output_directory cfg), w')
        ∧ lazily a_TEXMF_OUTPUT_DIRECTORY cls (output_directory cfg) w w'.
Proof.
  intros Hall. unfold TEXMF_OUTPUT_DIRECTORY, try_except, getattr at 1.
  destruct (find_attr _ _ _) eqn:E; simpl.
  - apply (dict_all_find _ _ _ _ _ Hall) in E as <-. eexists. split; [done|by left].
  - unfold output_directory.
    destruct (latex_config.TEXMF_OUTPUT_DIRECTORY cfg);
      unfold bind, setattr, getattr; simpl;
      rewrite find_attr_upd_same by attr_law;
      (eexists; split; [done|by right]).
Qed.

Lemma set_class_dict_twice d d' w :
  set_class_dict d (set_class_dict d' w) = set_class_dict d w.
Proof. done. Qed.

Ltac run_lazy :=
  match goal with
  | |- context [TEXMF_OUTPUT_DIRECTORY cfg ?cls ?w] =>
      let w' := fresh "w" in let E := fresh "E" in let L := fresh "L" in
      destruct (TEXMF_OUTPUT_DIRECTORY_run cls w) as (w' & E & L);
      [ simpl; solve_dict_all | rewrite E; clear E; destruct L as [L|L]; subst w' ]
  | |- context [TEXMFOUTPUT cfg ?cls ?w] =>
      let w' := fresh "w" in let E := fresh "E" in let L := fresh "L" in
      destruct (TEXMFOUTPUT_run cls w) as (w' & E & L);
      [ simpl; solve_dict_all | rewrite E; clear E; destruct L as [L|L]; subst w' ]
  | |- context [tex_cwd cfg ?cls ?w] =>
      let w' := fresh "w" in let E := fresh "E" in let L := fresh "L" in
      destruct (tex_cwd_run cls w) as (w' & E & L);
      [ simpl; solve_dict_all | rewrite E; clear E; destruct L as [L|L]; subst w' ]
  end.

Ltac run_step :=
  first
    [ progress rewrite ?set_class_dict_twice
    | progress simpl class_dict
    | run_lazy
    | match goal with
      | |- context [getattr ?a ?cls (set_class_dict _ _)] =>
          unfold getattr at 1; simpl class_dict;
          rewrite ?find_attr_upd_other by attr_law;
          rewrite ?find_attr_upd_same by attr_law
      | |- context [bool_decide ?P] => destruct (bool_decide_reflect P)
      | |- context [match output_directory cfg with _ => _ end] =>
          destruct (output_directory cfg) eqn:? in |- *
      | |- context [match output_fallback_directory cfg with _ => _ end] =>
          destruct (output_fallback_directory cfg) eqn:? in |- *
      end
    | progress unfold attr_add, attr_append, ret
    | unfold setattr at 1
    | unfold bind at 1 ].

Ltac solve_value :=
  unfold absolute_access_roots, paranoid_roots, openout_roots, first_openout_root;
  repeat match goal with H : _ cfg = _ |- _ => rewrite H end;
  simpl; repeat case_decide;
  first [ done | congruence | set_solver ].

Ltac run_done :=
  eexists; split;
  [ try reflexivity; repeat f_equal; solve_value
  | repeat split; simpl class_dict; solve_dict_all; solve_value ].

Lemma tex_texmfoutput_roots_ok cls w :
  attrs_ok cfg (class_dict w) →
  ∃ w', tex_texmfoutput_roots cfg cls w = (inr (absolute_access_roots cfg), w')
        ∧ attrs_ok cfg (class_dict w').
Proof.
  intros (H1 & H2 & H3 & H4 & H5 & H6 & H7).
  unfold tex_texmfoutput_roots, try_except, getattr at 1.
  destruct (find_attr _ _ _) eqn:E; simpl.
  - apply (dict_all_find _ _ _ _ _ H7) in E as <-. eexists; split; [done|]. done.
  - repeat run_step; run_done.
Qed.

Lemma tex_paranoid_roots_ok cls w :
  attrs_ok cfg (class_dict w) →
  ∃ w', tex_paranoid_roots cfg cls w = (inr (paranoid_roots cfg), w')
        ∧ attrs_ok cfg (class_dict w').
Proof.
  intros (H1 & H2 & H3 & H4 & H5 & H6 & H7).
  unfold tex_paranoid_roots, try_except, getattr at 1.
  destruct (find_attr _ _ _) eqn:E; simpl.
  - apply (dict_all_find _ _ _ _ _ H5) in E as <-. eexists; split; [done|]. done.
  - repeat run_step; run_done.
Qed.

Lemma tex_openout_roots_ok cls w :
  attrs_ok cfg (class_dict w) →
  ∃ w', tex_openout_roots cfg cls w = (inr (openout_roots cfg), w')
        ∧ attrs_ok cfg (class_dict w').
Proof.
  intros (H1 & H2 & H3 & H4 & H5 & H6 & H7).
  unfold tex_openout_roots, try_except, getattr at 1.
  destruct (find_attr _ _ _) eqn:E; simpl.
  - apply (dict_all_find _ _ _ _ _ H4) in E as <-. eexists; split; [done|]. done.
  - repeat run_step; run_done.
Qed.

End ClassMethods.

(** *** Inversion of runs *)

Lemma bind_inv {A B} (m : M A) (k : A → M B) w r w' :
  bind m k w = (r, w') →
  (∃ e, m w = (inl e, w') ∧ r = inl e)
  ∨ (∃ a w1, m w = (inr a, w1) ∧ k a w1 = (r, w')).
Proof.
  unfold bind. destruct (m w) as [[e|a] w1]; intros H.
  - left. exists e. by simplify_eq.
  - right. by exists a, w1.
Qed.

Lemma ret_inv {A} (a : A) w r w' : ret a w = (r, w') → r = inr a ∧ w' = w.
Proof. unfold ret. by intros [= <- <-]. Qed.

Lemma raise_inv {A} e w (r : exn + A) w' : raise e w = (r, w') → r = inl e ∧ w' = w.
Proof. unfold raise. by intros [= <- <-]. Qed.

Lemma setitem_inv c key d w r w' :
  setitem c key d w = (r, w') →
  r = inr tt ∧ w' = set_cache c (<[key := d]> (cache_of c w)) w.
Proof. unfold setitem. by intros [= <- <-]. Qed.

Lemma cache_of_set_cache c m w : cache_of c (set_cache c m w) = m.
Proof. by destruct c. Qed.

Lemma cache_of_set_cache_ne c c' m w :
  c ≠ c' → cache_of c' (set_cache c m w) = cache_of c' w.
Proof. by destruct c, c'. Qed.

(** The shape of the four predicates: look the key up, and on a miss fill
    the entry and look it up again. *)
Lemma cached_inv c key (body : M unit) w r w' :
  try_except (getitem c key) is_KeyError (body ;;; getitem c key) w = (r, w') →
  (∃ d, cache_of c w !! key = Some d ∧ r = inr d ∧ w' = w)
  ∨ (cache_of c w !! key = None
     ∧ ((∃ e, body w = (inl e, w') ∧ r = inl e)
        ∨ (body w = (inr tt, w')
           ∧ r = match cache_of c w' !! key with
                 | Some d => inr d
                 | None => inl KeyError
                 end))).
Proof.
  unfold try_except, getitem at 1.
  destruct (cache_of c w !! key) as [d|] eqn:E; simpl.
  - intros [= <- <-]. left. by exists d.
  - intros H. right. split; [done|].
    apply bind_inv in H as [(e & H & ->)|([] & w1 & H & H')].
    + left. by exists e.
    + right. unfold getitem in H'.
      destruct (cache_of c w1 !! key) eqn:E'; simplify_eq; (split; [done|by rewrite E']).
Qed.

Lemma caches_le_refl w : caches_le w w.
Proof. intros c. done. Qed.

Lemma caches_le_trans w1 w2 w3 : caches_le w1 w2 → caches_le w2 w3 → caches_le w1 w3.
Proof. intros H1 H2 c. etrans; [apply H1 | apply H2]. Qed.

Lemma caches_le_same w w' :
  (∀ c, cache_of c w' = cache_of c w) → caches_le w w'.
Proof. intros H c. by rewrite H. Qed.

Lemma caches_le_setitem c key d w :
  cache_of c w !! key = None →
  caches_le w (set_cache c (<[key := d]> (cache_of c w)) w).
Proof.
  intros Hn c'. destruct (decide (c = c')) as [<-|Hne].
  - rewrite cache_of_set_cache. by apply insert_subseteq.
  - by rewrite cache_of_set_cache_ne.
Qed.

Lemma modifies_run {A} S (m : M A) w r w' :
  modifies S m → m w = (r, w') → frame S w w'.
Proof. intros Hm E. specialize (Hm w). unfold after in Hm. by rewrite E in Hm. Qed.

Lemma cached_spec c key (body : M unit) w r w' :
  try_except (getitem c key) is_KeyError (body ;;; getitem c key) w = (r, w') →
  (cache_of c w !! key = None → ∀ r1, body w = (r1, w') → caches_le w w') →
  caches_le w w' ∧ (∀ d, r = inr d → cache_of c w' !! key = Some d).
Proof.
  intros H Hb. apply cached_inv in H as [(d & E & -> & ->)|(E & [(e & H & ->)|(H & ->)])].
  - split; [apply caches_le_refl|]. by intros ? [= <-].
  - split; [by eapply Hb|done].
  - split; [by eapply Hb|]. intros d. by destruct (cache_of c w' !! key); intros [= <-].
Qed.

Lemma caches_le_setitem_after c key d w w0 :
  caches_le w w0 → cache_of c w0 !! key = None →
  caches_le w (set_cache c (<[key := d]> (cache_of c w0)) w0).
Proof.
  intros Hle Hn. eapply caches_le_trans; [exact Hle|]. by apply caches_le_setitem.
Qed.

Lemma frame_same_caches S w w' :
  frame S w w' → (∀ c, F_cache c ∉ S) → same_caches w w'.
Proof. intros H HS c. by apply (H (F_cache c)). Qed.

Ltac le_chain :=
  first [ assumption
        | apply caches_le_refl
        | apply caches_le_same; assumption
        | eapply caches_le_trans; [eassumption | le_chain]
        | eapply caches_le_trans; [apply caches_le_same; eassumption | le_chain] ].

Ltac cache_rw :=
  repeat match goal with
         | H : same_caches _ ?w |- context [cache_of ?c ?w] => rewrite (H c)
         | H : cache_of ?c ?w = _ |- context [cache_of ?c ?w] => rewrite H
         end.

Ltac inv_step :=
  match goal with
  | H : bind _ _ _ = _ |- _ =>
      let e := fresh "e" in let a := fresh "a" in let w1 := fresh "w" in
      let H' := fresh H in let Hr := fresh "Hr" in
      apply bind_inv in H as [(e & H & Hr)|(a & w1 & H' & H)];
      [ first [ discriminate Hr | injection Hr as -> | subst ] |]
  | H : ret _ _ = _ |- _ => apply ret_inv in H as [? ?]; simplify_eq
  | H : raise _ _ = _ |- _ => apply raise_inv in H as [? ?]; simplify_eq
  | H : setitem _ _ _ _ = _ |- _ => apply setitem_inv in H as [? ?]; simplify_eq
  | H : (if ?b then _ else _) _ = _ |- _ => destruct b eqn:?
  | H : (match ?x with _ => _ end) _ = _ |- _ => destruct x eqn:?
  end.

Lemma bind_assoc {A B C} (m : M A) (k : A → M B) (h : B → M C) w :
  bind m (fun x => bind (k x) h) w = bind (bind m k) h w.
Proof. unfold bind. by destruct (m w) as [[e|a] w1]. Qed.

Lemma try_except_ext {A} (m h h' : M A) catches w :
  (∀ w, h w = h' w) → try_except m catches h w = try_except m catches h' w.
Proof.
  intros Hh. unfold try_except. destruct (m w) as [[e|a] w1]; [|done].
  destruct (catches e); [apply Hh|done].
Qed.

Lemma cached_spec_bind {X} c key (m : M X) (k : X → M unit) w r w' :
  try_except (getitem c key) is_KeyError
    (x <- m ;; (k x ;;; getitem c key)) w = (r, w') →
  (cache_of c w !! key = None →
   ∀ r1, (x <- m ;; k x) w = (r1, w') → caches_le w w') →
  caches_le w w' ∧ (∀ d, r = inr d → cache_of c w' !! key = Some d).
Proof.
  intros H. apply cached_spec.
  rewrite <- H. apply try_except_ext. intros w0. symmetry. apply bind_assoc.
Qed.

Section CacheGrowth.
Variable cfg : latex_config.t.

Lemma texmfoutput_roots_same cls w r w' :
  tex_texmfoutput_roots cfg cls w = (r, w') → same_caches w w'.
Proof.
  intros H. eapply (modifies_run [F_class_dict]) in H;
    [|apply modifies_tex_texmfoutput_roots; by repeat constructor].
  eapply frame_same_caches; [done|]. set_solver.
Qed.

Lemma paranoid_roots_resolved_same cls w r w' :
  tex_paranoid_roots_resolved cfg cls w = (r, w') → same_caches w w'.
Proof.
  intros H. eapply (modifies_run [F_class_dict; F_resolutions]) in H;
    [|apply modifies_tex_paranoid_roots_resolved; by repeat constructor].
  eapply frame_same_caches; [done|]. set_solver.
Qed.

Lemma resolve_same self w r w' :
  resolve cfg self w = (r, w') → same_caches w w'.
Proof.
  intros H. eapply (modifies_run [F_resolutions]) in H;
    [|apply modifies_resolve; by repeat constructor].
  eapply frame_same_caches; [done|]. set_solver.
Qed.

Ltac sub_same :=
  match goal with
  | H : tex_texmfoutput_roots cfg _ _ = _ |- _ => apply texmfoutput_roots_same in H
  | H : tex_paranoid_roots_resolved cfg _ _ = _ |- _ =>
      apply paranoid_roots_resolved_same in H
  | H : resolve cfg _ _ = _ |- _ => apply resolve_same in H
  end.

Ltac le_done :=
  first [ le_chain
        | apply caches_le_setitem_after; [le_chain | cache_rw; assumption] ].

Lemma tex_readable_dir_le self w r w' :
  tex_readable_dir cfg self w = (r, w') →
  caches_le w w'
  ∧ (∀ d, r = inr d → cache_of readable_dir w' !! cache_key self = Some d).
Proof.
  unfold tex_readable_dir. intros H.
  destruct (predicates_from _); try (apply raise_inv in H as [-> ->]; split; [apply caches_le_refl|done]).
  - apply cached_spec in H; [done|]. intros Hmiss r1 Hb.
    repeat first [inv_step | sub_same]; le_done.
  - apply cached_spec in H; [done|]. intros Hmiss r1 Hb.
    repeat first [inv_step | sub_same]; le_done.
Qed.

Lemma tex_writable_dir_le self w r w' :
  tex_writable_dir cfg self w = (r, w') →
  caches_le w w'
  ∧ (∀ d, r = inr d → cache_of writable_dir w' !! cache_key self = Some d).
Proof.
  unfold tex_writable_dir. intros H.
  destruct (predicates_from _); try (apply raise_inv in H as [-> ->]; split; [apply caches_le_refl|done]).
  - apply cached_spec in H; [done|]. intros Hmiss r1 Hb.
    repeat first [inv_step | sub_same]; le_done.
  - apply cached_spec in H; [done|]. intros Hmiss r1 Hb.
    repeat first [inv_step | sub_same]; le_done.
Qed.

Lemma readable_dir_file_cache self w r w' :
  tex_readable_dir cfg self w = (r, w') →
  cache_of readable_file w' = cache_of readable_file w.
Proof.
  intros H. eapply (modifies_run [F_cache readable_dir; F_class_dict; F_resolutions]) in H;
    [|apply modifies_tex_readable_dir; by repeat constructor].
  apply (H (F_cache readable_file)). set_solver.
Qed.

Lemma writable_dir_file_cache self w r w' :
  tex_writable_dir cfg self w = (r, w') →
  cache_of writable_file w' = cache_of writable_file w.
Proof.
  intros H. eapply (modifies_run [F_cache writable_dir; F_class_dict; F_resolutions]) in H;
    [|apply modifies_tex_writable_dir; by repeat constructor].
  apply (H (F_cache writable_file)). set_solver.
Qed.

Ltac sub_dir :=
  match goal with
  | H : tex_readable_dir cfg _ _ = _ |- _ =>
      pose proof (readable_dir_file_cache _ _ _ _ H);
      apply tex_readable_dir_le in H as [H _]
  | H : tex_writable_dir cfg _ _ = _ |- _ =>
      pose proof (writable_dir_file_cache _ _ _ _ H);
      apply tex_writable_dir_le in H as [H _]
  end.

Lemma tex_readable_file_le self w r w' :
  tex_readable_file cfg self w = (r, w') →
  caches_le w w'
  ∧ (∀ d, r = inr d → cache_of readable_file w' !! cache_key self = Some d).
Proof.
  unfold tex_readable_file. intros H.
  destruct (predicates_from _); try (apply raise_inv in H as [-> ->]; split; [apply caches_le_refl|done]).
  - apply cached_spec in H; [done|]. intros Hmiss r1 Hb.
    repeat first [inv_step | sub_same | sub_dir]; le_done.
  - apply cached_spec_bind in H; [done|]. intros Hmiss r1 Hb.
    repeat first [inv_step | sub_same | sub_dir]; le_done.
Qed.

Lemma tex_writable_file_le self w r w' :
  tex_writable_file cfg self w = (r, w') →
  caches_le w w'
  ∧ (∀ d, r = inr d → cache_of writable_file w' !! cache_key self = Some d).
Proof.
  unfold tex_writable_file. intros H.
  destruct (predicates_from _); try (apply raise_inv in H as [-> ->]; split; [apply caches_le_refl|done]).
  - apply cached_spec in H; [done|]. intros Hmiss r1 Hb.
    repeat first [inv_step | sub_same | sub_dir]; le_done.
  - apply cached_spec_bind in H; [done|]. intros Hmiss r1 Hb.
    repeat first [inv_step | sub_same | sub_dir]; le_done.
Qed.
End CacheGrowth.

(** *** The invariant of the worlds *)

Lemma contains_decide x l : PyStr.contains x l = bool_decide (x ∈ l).
Proof.
  unfold PyStr.contains. induction l as [|y l IH]; cbn [existsb].
  - symmetry. apply bool_decide_eq_false_2. by intros ?%elem_of_nil.
  - rewrite IH. destruct (String.eqb_spec x y) as [->|Hne]; simpl.
    + symmetry. apply bool_decide_eq_true_2. by left.
    + apply bool_decide_ext. rewrite elem_of_cons. naive_solver.
Qed.

Lemma contains_dotdot_parts p :
  PyStr.contains ".." (PurePath.parts p) = bool_decide (".." ∈ components p).
Proof.
  rewrite contains_decide. apply bool_decide_ext. unfold PurePath.parts.
  destruct (is_absolute p); simpl; [|done].
  rewrite elem_of_cons. naive_solver.
Qed.

Lemma relative_to_any_true p (S : gset Path) :
  relative_to_any p S = true ↔ ∃ r, r ∈ S ∧ PurePath.is_relative_to p r = true.
Proof.
  unfold relative_to_any. rewrite existsb_exists.
  split; intros (r & Hr & H); exists r; split; try done.
  - apply elem_of_elements. by apply list_elem_of_In.
  - apply list_elem_of_In. by apply elem_of_elements.
Qed.

Lemma is_string_predicates cls :
  is_string_cls cls = true ↔ predicates_from cls = StringRestrictedPath.
Proof. destruct cls; by vm_compute. Qed.

Lemma not_string_predicates cls :
  predicates_from cls = ResolvedRestrictedPath → is_string_cls cls = false.
Proof. destruct cls; by vm_compute. Qed.

Lemma try_inv {A} (m h : M A) (catches : exn → bool) w r w' :
  try_except m catches h w = (r, w') →
  (∃ a, m w = (inr a, w') ∧ r = inr a)
  ∨ (∃ e, m w = (inl e, w') ∧ catches e = false ∧ r = inl e)
  ∨ (∃ e w1, m w = (inl e, w1) ∧ catches e = true ∧ h w1 = (r, w')).
Proof.
  unfold try_except. destruct (m w) as [[e|a] w1].
  - destruct (catches e) eqn:E; intros H.
    + right. right. by exists e, w1.
    + right. left. exists e. by simplify_eq.
  - intros [= <- <-]. left. by exists a.
Qed.

Lemma getattr_inv {A} (a : Attr A) cls w r w' :
  getattr a cls w = (r, w') → w' = w.
Proof. unfold getattr. by destruct (find_attr _ _ _); intros [= _ <-]. Qed.

Lemma setattr_inv {A} (a : Attr A) cls v w r w' :
  setattr a cls v w = (r, w') →
  r = inr tt ∧ w' = set_class_dict (upd_dict a cls v (class_dict w)) w.
Proof. unfold setattr. by intros [= <- <-]. Qed.

Lemma inherited_from_base {A} (base : A) l :
  inherited_from base (fun _ => None) l = base.
Proof. by induction l. Qed.

Ltac bool_atom x :=
  lazymatch x with
  | negb _ => fail | _ || _ => fail | _ && _ => fail
  | true => fail | false => fail
  | _ => destruct x eqn:?
  end.

Ltac bool_crush :=
  repeat (simpl in *;
          match goal with
          | H : context [negb ?x] |- _ => bool_atom x
          | H : context [?x || _] |- _ => bool_atom x
          | H : context [_ || ?x] |- _ => bool_atom x
          | H : context [?x && _] |- _ => bool_atom x
          | H : context [_ && ?x] |- _ => bool_atom x
          end);
  simpl in *; congruence.

Lemma cached_inv_bind {X} c key (m : M X) (k : X → M unit) w r w' :
  try_except (getitem c key) is_KeyError
    (x <- m ;; (k x ;;; getitem c key)) w = (r, w') →
  (∃ d, cache_of c w !! key = Some d ∧ r = inr d ∧ w' = w)
  ∨ (cache_of c w !! key = None
     ∧ ((∃ e, (x <- m ;; k x) w = (inl e, w') ∧ r = inl e)
        ∨ ((x <- m ;; k x) w = (inr tt, w')
           ∧ r = match cache_of c w' !! key with
                 | Some d => inr d
                 | None => inl KeyError
                 end))).
Proof.
  intros H. apply cached_inv.
  rewrite <- H. apply try_except_ext. intros w0. symmetry. apply bind_assoc.
Qed.

Lemma predicates_from_cases cls :
  predicates_from cls = BaseRestrictedPath
  ∨ predicates_from cls = StringRestrictedPath
  ∨ predicates_from cls = ResolvedRestrictedPath.
Proof. destruct cls; vm_compute; auto. Qed.

Section Invariant.
Variable cfg : latex_config.t.

Lemma relative_to_any_roots p :
  relative_to_any p (absolute_access_roots cfg) = under_absolute_root cfg p.
Proof.
  apply Bool.eq_iff_eq_true. rewrite relative_to_any_true.
  unfold absolute_access_roots, under_absolute_root.
  rewrite orb_true_iff.
  destruct (output_directory cfg), (output_fallback_directory cfg);
    set_unfold; naive_solver.
Qed.

Lemma world_ok_same w w' :
  class_dict w' = class_dict w → same_caches w w' →
  world_ok cfg w → world_ok cfg w'.
Proof.
  intros Hd Hc [Ha Hk]. split; [by rewrite Hd|].
  intros c key d. rewrite (Hc c). apply Hk.
Qed.

Lemma world_ok_attrs w w' :
  attrs_ok cfg (class_dict w') → same_caches w w' →
  world_ok cfg w → world_ok cfg w'.
Proof.
  intros Hd Hc [Ha Hk]. split; [done|].
  intros c key d. rewrite (Hc c). apply Hk.
Qed.

Lemma world_ok_setitem c key d w :
  world_ok cfg w → entry_ok cfg c key d →
  world_ok cfg (set_cache c (<[key := d]> (cache_of c w)) w).
Proof.
  intros [Ha Hk] He. split; [by destruct c|].
  intros c' key' d'. destruct (decide (c = c')) as [<-|Hne].
  - rewrite cache_of_set_cache, lookup_insert.
    case_decide; [|apply Hk]. intros [= <-]. by subst.
  - rewrite cache_of_set_cache_ne by done. apply Hk.
Qed.

Lemma good_allowed : good_decision cfg (true, None).
Proof. by left. Qed.

Lemma good_dotdot : good_decision cfg (false, Some reason_dotdot).
Proof. right. eexists. split; [done|]. by left. Qed.

Lemma good_location : good_decision cfg (false, Some reason_location).
Proof. right. eexists. split; [done|]. right. by left. Qed.

Lemma good_dotfiles : good_decision cfg (false, Some reason_dotfiles).
Proof. right. eexists. split; [done|]. right. right. by left. Qed.

Lemma good_extension f ext :
  List.find f (latex_config.prohibited_write_file_extensions cfg) = Some ext →
  good_decision cfg (false, Some (reason_extension ext)).
Proof.
  intros H. right. eexists. split; [done|]. right. right. right.
  exists ext. split; [|done]. apply list_elem_of_In. by apply find_some in H as [? _].
Qed.

Lemma texmfoutput_roots_world cls w r w' :
  tex_texmfoutput_roots cfg cls w = (r, w') → world_ok cfg w →
  world_ok cfg w' ∧ r = inr (absolute_access_roots cfg).
Proof.
  intros H Hok. pose proof (texmfoutput_roots_same _ _ _ _ _ H) as Hs.
  destruct (tex_texmfoutput_roots_ok cfg cls w) as (w1 & E & Ha); [apply Hok|].
  rewrite E in H. simplify_eq. split; [|done]. by eapply world_ok_attrs.
Qed.

Lemma resolve_world self w r w' :
  resolve cfg self w = (r, w') → world_ok cfg w → world_ok cfg w'.
Proof.
  intros H. pose proof (resolve_same _ _ _ _ _ H) as Hs.
  rewrite resolve_eq in H. simplify_eq. by apply world_ok_same.
Qed.

Lemma stored_ok c self v w0 :
  world_ok cfg w0 → entry_ok cfg c (cache_key self) v →
  world_ok cfg (set_cache c (<[cache_key self := v]> (cache_of c w0)) w0)
  ∧ (is_string_cls (cls_of self) = true →
     match cache_of c (set_cache c (<[cache_key self := v]> (cache_of c w0)) w0)
           !! cache_key self with
     | Some d => inr d
     | None => inl KeyError
     end = @inr exn _ (lexical cfg c (cls_of self) (path_of self))).
Proof.
  intros Hok He. split; [by apply world_ok_setitem|].
  intros Hs. rewrite cache_of_set_cache, lookup_insert_eq.
  f_equal. by apply He.
Qed.

Lemma hit_ok c self d w :
  world_ok cfg w → cache_of c w !! cache_key self = Some d →
  is_string_cls (cls_of self) = true →
  @inr exn _ d = inr (lexical cfg c (cls_of self) (path_of self)).
Proof. intros [_ Hk] E Hs. f_equal. by apply (Hk _ _ _ E). Qed.

Ltac lex_done :=
  intros; simpl; unfold spec_readable_file, spec_writable_file, spec_dir;
  unfold is_dotfile, _tex_prohibited_write_file_extensions, inherited in *;
  rewrite ?inherited_from_base in *;
  rewrite ?contains_dotdot_parts, ?relative_to_any_roots in *;
  repeat match goal with H : ?b = _ |- context [?b] => rewrite H end;
  simpl; try done; repeat case_match; simpl in *; bool_crush.

Lemma tex_paranoid_roots_resolved_world cls w r w' :
  tex_paranoid_roots_resolved cfg cls w = (r, w') → world_ok cfg w →
  world_ok cfg w'.
Proof.
  intros H Hok. pose proof (paranoid_roots_resolved_same _ _ _ _ _ H) as Hs.
  eapply world_ok_attrs; [|exact Hs|exact Hok]. destruct Hok as [Ha _].
  unfold tex_paranoid_roots_resolved in H.
  apply try_inv in H as [(a & H & _)|[(e & H & _)|(e & w1 & H & _ & H')]];
    try (apply getattr_inv in H as ->; done).
  apply getattr_inv in H as ->.
  destruct (tex_paranoid_roots_ok cfg cls w Ha) as (w2 & E & Ha2).
  apply bind_inv in H' as [(e' & H' & _)|(roots & w3 & H1 & H')];
    rewrite E in *; simplify_eq.
  apply bind_inv in H' as [(e' & H' & _)|(rs & w4 & H2 & H')].
  - eapply (modifies_run [F_resolutions]) in H';
      [|apply modifies_mapM; intros; apply modifies_bind;
        [apply modifies_resolve; by repeat constructor|intros; apply modifies_ret]].
    specialize (H' F_class_dict). simpl in H'. rewrite H'; [done|set_solver].
  - eapply (modifies_run [F_resolutions]) in H2;
      [|apply modifies_mapM; intros; apply modifies_bind;
        [apply modifies_resolve; by repeat constructor|intros; apply modifies_ret]].
    specialize (H2 F_class_dict). simpl in H2.
    apply bind_inv in H' as [(e' & H' & _)|(u & w5 & H3 & H')].
    + apply setattr_inv in H' as [? _]. done.
    + apply setattr_inv in H3 as [_ ->]. apply getattr_inv in H' as ->.
      simpl. rewrite H2 by set_solver.
      destruct Ha2 as (? & ? & ? & ? & ? & ? & ?).
      repeat split; solve_dict_all.
Qed.

Ltac sub_world :=
  match goal with
  | H : tex_texmfoutput_roots cfg _ ?w = _, Hok : world_ok cfg ?w |- _ =>
      apply texmfoutput_roots_world in H as [? ?]; [|exact Hok]; simplify_eq
  | H : tex_paranoid_roots_resolved cfg _ ?w = _, Hok : world_ok cfg ?w |- _ =>
      apply tex_paranoid_roots_resolved_world in H; [|exact Hok]
  | H : resolve cfg _ ?w = _, Hok : world_ok cfg ?w |- _ =>
      apply resolve_world in H; [|exact Hok]
  end.

Ltac good := solve [auto using good_allowed, good_dotdot, good_location, good_dotfiles].

Ltac store_done := (apply stored_ok; [done|]); (split; [good | lex_done]).

Lemma tex_readable_dir_String_ok self w r w' :
  StringRestrictedPath_tex_readable_dir cfg self w = (r, w') →
  world_ok cfg w →
  world_ok cfg w'
  ∧ (is_string_cls (cls_of self) = true →
     r = inr (lexical cfg readable_dir (cls_of self) (path_of self))).
Proof.
  intros H Hok.
  apply cached_inv in H as [(d & E & -> & ->)|(E & [(e & H & ->)|(H & ->)])].
  - split; [done|]. by eapply hit_ok.
  - repeat first [inv_step | sub_world].
  - repeat first [inv_step | sub_world]; store_done.
Qed.

Lemma tex_writable_dir_String_ok self w r w' :
  StringRestrictedPath_tex_writable_dir cfg self w = (r, w') →
  world_ok cfg w →
  world_ok cfg w'
  ∧ (is_string_cls (cls_of self) = true →
     r = inr (lexical cfg writable_dir (cls_of self) (path_of self))).
Proof.
  intros H Hok.
  apply cached_inv in H as [(d & E & -> & ->)|(E & [(e & H & ->)|(H & ->)])].
  - split; [done|]. by eapply hit_ok.
  - repeat first [inv_step | sub_world].
  - repeat first [inv_step | sub_world]; store_done.
Qed.

Ltac store_resolved Hns :=
  (apply world_ok_setitem; [done|]);
  (split; [good | simpl; rewrite Hns; discriminate]).

Lemma tex_readable_dir_Resolved_ok self w r w' :
  ResolvedRestrictedPath_tex_readable_dir cfg self w = (r, w') →
  is_string_cls (cls_of self) = false →
  world_ok cfg w → world_ok cfg w'.
Proof.
  intros H Hns Hok.
  apply cached_inv in H as [(d & E & -> & ->)|(E & [(e & H & ->)|(H & ->)])].
  - done.
  - repeat first [inv_step | sub_world]; done.
  - repeat first [inv_step | sub_world]; store_resolved Hns.
Qed.

Lemma tex_writable_dir_Resolved_ok self w r w' :
  ResolvedRestrictedPath_tex_writable_dir cfg self w = (r, w') →
  is_string_cls (cls_of self) = false →
  world_ok cfg w → world_ok cfg w'.
Proof.
  intros H Hns Hok.
  apply cached_inv in H as [(d & E & -> & ->)|(E & [(e & H & ->)|(H & ->)])].
  - done.
  - repeat first [inv_step | sub_world]; done.
  - repeat first [inv_step | sub_world]; store_resolved Hns.
Qed.

Lemma tex_readable_dir_ok self w r w' :
  tex_readable_dir cfg self w = (r, w') → world_ok cfg w →
  world_ok cfg w'
  ∧ (is_string_cls (cls_of self) = true →
     r = inr (lexical cfg readable_dir (cls_of self) (path_of self))).
Proof.
  unfold tex_readable_dir. intros H Hok.
  destruct (predicates_from (cls_of self)) eqn:Hp;
    try (apply raise_inv in H as [-> ->]; split; [done|];
         intros Hs%is_string_predicates; congruence).
  - by eapply tex_readable_dir_String_ok.
  - pose proof (not_string_predicates _ Hp) as Hns. split.
    + by eapply tex_readable_dir_Resolved_ok.
    + congruence.
Qed.

Lemma tex_writable_dir_ok self w r w' :
  tex_writable_dir cfg self w = (r, w') → world_ok cfg w →
  world_ok cfg w'
  ∧ (is_string_cls (cls_of self) = true →
     r = inr (lexical cfg writable_dir (cls_of self) (path_of self))).
Proof.
  unfold tex_writable_dir. intros H Hok.
  destruct (predicates_from (cls_of self)) eqn:Hp;
    try (apply raise_inv in H as [-> ->]; split; [done|];
         intros Hs%is_string_predicates; congruence).
  - by eapply tex_writable_dir_String_ok.
  - pose proof (not_string_predicates _ Hp) as Hns. split.
    + by eapply tex_writable_dir_Resolved_ok.
    + congruence.
Qed.

Lemma tex_readable_dir_good self w d w' :
  tex_readable_dir cfg self w = (inr d, w') → world_ok cfg w →
  good_decision cfg d.
Proof.
  intros H Hok. pose proof (tex_readable_dir_ok _ _ _ _ H Hok) as [[_ Hk] _].
  apply tex_readable_dir_le in H as [_ H]. by apply (Hk _ _ _ (H d eq_refl)).
Qed.

Lemma tex_writable_dir_good self w d w' :
  tex_writable_dir cfg self w = (inr d, w') → world_ok cfg w →
  good_decision cfg d.
Proof.
  intros H Hok. pose proof (tex_writable_dir_ok _ _ _ _ H Hok) as [[_ Hk] _].
  apply tex_writable_dir_le in H as [_ H]. by apply (Hk _ _ _ (H d eq_refl)).
Qed.

(** The decision of the parent directory, inside a predicate on files. *)
Ltac sub_dir_world :=
  match goal with
  | H : tex_readable_dir cfg _ ?w = (inr _, _), Hok : world_ok cfg ?w |- _ =>
      pose proof (tex_readable_dir_good _ _ _ _ H Hok);
      apply tex_readable_dir_ok in H as [? ?]; [|exact Hok]
  | H : tex_writable_dir cfg _ ?w = (inr _, _), Hok : world_ok cfg ?w |- _ =>
      pose proof (tex_writable_dir_good _ _ _ _ H Hok);
      apply tex_writable_dir_ok in H as [? ?]; [|exact Hok]
  | H : tex_readable_dir cfg _ ?w = (inl _, _), Hok : world_ok cfg ?w |- _ =>
      apply tex_readable_dir_ok in H as [? ?]; [|exact Hok]
  | H : tex_writable_dir cfg _ ?w = (inl _, _), Hok : world_ok cfg ?w |- _ =>
      apply tex_writable_dir_ok in H as [? ?]; [|exact Hok]
  end.

Ltac file_fail :=
  split; [done|]; intros Hs;
  match goal with H : _ → inl _ = inr _ |- _ => by specialize (H Hs) end.

Ltac file_store :=
  (apply stored_ok; [done|]);
  (split; [first [done | good | by eapply good_extension]|]);
  intros Hs;
  try match goal with H : _ → inr _ = inr _ |- _ =>
        specialize (H Hs); injection H as ->
      end;
  lex_done.

Lemma tex_readable_file_String_ok self w r w' :
  StringRestrictedPath_tex_readable_file cfg self w = (r, w') →
  world_ok cfg w →
  world_ok cfg w'
  ∧ (is_string_cls (cls_of self) = true →
     r = inr (lexical cfg readable_file (cls_of self) (path_of self))).
Proof.
  intros H Hok.
  apply cached_inv in H as [(d & E & -> & ->)|(E & [(e & H & ->)|(H & ->)])].
  - split; [done|]. by eapply hit_ok.
  - repeat first [inv_step | sub_world | sub_dir_world]; file_fail.
  - repeat first [inv_step | sub_world | sub_dir_world]; file_store.
Qed.

Lemma prohibited_eq cls :
  _tex_prohibited_write_file_extensions cfg cls
  = latex_config.prohibited_write_file_extensions cfg.
Proof. apply inherited_from_base. Qed.

Lemma tex_writable_file_String_ok self w r w' :
  StringRestrictedPath_tex_writable_file cfg self w = (r, w') →
  world_ok cfg w →
  world_ok cfg w'
  ∧ (is_string_cls (cls_of self) = true →
     r = inr (lexical cfg writable_file (cls_of self) (path_of self))).
Proof.
  intros H Hok. unfold StringRestrictedPath_tex_writable_file in H.
  rewrite prohibited_eq in H.
  apply cached_inv in H as [(d & E & -> & ->)|(E & [(e & H & ->)|(H & ->)])].
  - split; [done|]. by eapply hit_ok.
  - repeat first [inv_step | sub_world | sub_dir_world]; file_fail.
  - repeat first [inv_step | sub_world | sub_dir_world]; file_store.
Qed.

Ltac file_store_resolved Hns :=
  (apply world_ok_setitem; [done|]);
  (split; [first [done | good | by eapply good_extension]
          | simpl; rewrite Hns; discriminate]).

Lemma tex_readable_file_Resolved_ok self w r w' :
  ResolvedRestrictedPath_tex_readable_file cfg self w = (r, w') →
  is_string_cls (cls_of self) = false →
  world_ok cfg w → world_ok cfg w'.
Proof.
  intros H Hns Hok.
  apply cached_inv_bind in H as [(d & E & -> & ->)|(E & [(e & H & ->)|(H & ->)])].
  - done.
  - repeat first [inv_step | sub_world | sub_dir_world]; done.
  - repeat first [inv_step | sub_world | sub_dir_world]; file_store_resolved Hns.
Qed.

Lemma tex_writable_file_Resolved_ok self w r w' :
  ResolvedRestrictedPath_tex_writable_file cfg self w = (r, w') →
  is_string_cls (cls_of self) = false →
  world_ok cfg w → world_ok cfg w'.
Proof.
  intros H Hns Hok. unfold ResolvedRestrictedPath_tex_writable_file in H.
  rewrite prohibited_eq in H.
  apply cached_inv_bind in H as [(d & E & -> & ->)|(E & [(e & H & ->)|(H & ->)])].
  - done.
  - repeat first [inv_step | sub_world | sub_dir_world]; done.
  - repeat first [inv_step | sub_world | sub_dir_world]; file_store_resolved Hns.
Qed.

Lemma tex_readable_file_ok self w r w' :
  tex_readable_file cfg self w = (r, w') → world_ok cfg w →
  world_ok cfg w'
  ∧ (is_string_cls (cls_of self) = true →
     r = inr (lexical cfg readable_file (cls_of self) (path_of self))).
Proof.
  unfold tex_readable_file. intros H Hok.
  destruct (predicates_from (cls_of self)) eqn:Hp;
    try (apply raise_inv in H as [-> ->]; split; [done|];
         intros Hs%is_string_predicates; congruence).
  - by eapply tex_readable_file_String_ok.
  - pose proof (not_string_predicates _ Hp) as Hns. split.
    + by eapply tex_readable_file_Resolved_ok.
    + congruence.
Qed.

Lemma tex_writable_file_ok self w r w' :
  tex_writable_file cfg self w = (r, w') → world_ok cfg w →
  world_ok cfg w'
  ∧ (is_string_cls (cls_of self) = true →
     r = inr (lexical cfg writable_file (cls_of self) (path_of self))).
Proof.
  unfold tex_writable_file. intros H Hok.
  destruct (predicates_from (cls_of self)) eqn:Hp;
    try (apply raise_inv in H as [-> ->]; split; [done|];
         intros Hs%is_string_predicates; congruence).
  - by eapply tex_writable_file_String_ok.
  - pose proof (not_string_predicates _ Hp) as Hns. split.
    + by eapply tex_writable_file_Resolved_ok.
    + congruence.
Qed.

(** The four predicates keep the invariant; on the lexical classes they
    return the lexical decision; what they return is cached, and nothing
    cached is lost. *)
Lemma predicate_ok c self w r w' :
  predicate cfg c self w = (r, w') → world_ok cfg w →
  world_ok cfg w'
  ∧ (is_string_cls (cls_of self) = true →
     r = inr (lexical cfg c (cls_of self) (path_of self))).
Proof.
  destruct c; simpl.
  - apply tex_readable_dir_ok.
  - apply tex_readable_file_ok.
  - apply tex_writable_dir_ok.
  - apply tex_writable_file_ok.
Qed.

Lemma predicate_le c self w r w' :
  predicate cfg c self w = (r, w') →
  caches_le w w' ∧ (∀ d, r = inr d → cache_of c w' !! cache_key self = Some d).
Proof.
  destruct c; simpl.
  - apply tex_readable_dir_le.
  - apply tex_readable_file_le.
  - apply tex_writable_dir_le.
  - apply tex_writable_file_le.
Qed.

Lemma predicate_good c self w d w' :
  predicate cfg c self w = (inr d, w') → world_ok cfg w → good_decision cfg d.
Proof.
  intros H Hok. pose proof (predicate_ok _ _ _ _ _ H Hok) as [[_ Hk] _].
  apply predicate_le in H as [_ H]. by apply (Hk _ _ _ (H d eq_refl)).
Qed.

Lemma predicate_hit c self w d :
  cache_of c w !! cache_key self = Some d →
  predicates_from (cls_of self) ≠ BaseRestrictedPath →
  predicate cfg c self w = (inr d, w).
Proof.
  intros E Hp.
  destruct (predicates_from_cases (cls_of self)) as [Hc|[Hc|Hc]]; [done| |];
    destruct c; simpl;
    unfold tex_readable_dir, tex_readable_file, tex_writable_dir, tex_writable_file;
    rewrite Hc;
    unfold StringRestrictedPath_tex_readable_dir, ResolvedRestrictedPath_tex_readable_dir,
      StringRestrictedPath_tex_readable_file, ResolvedRestrictedPath_tex_readable_file,
      StringRestrictedPath_tex_writable_dir, ResolvedRestrictedPath_tex_writable_dir,
      StringRestrictedPath_tex_writable_file, ResolvedRestrictedPath_tex_writable_file,
      try_except, getitem; by rewrite E.
Qed.
End Invariant.

(** *** What the calls keep *)

Lemma preserves_ret {A} I (a : A) : preserves I (ret a).
Proof. by intros w r w' [-> ->]%ret_inv. Qed.

Lemma preserves_raise {A} I e : preserves I (@raise A e).
Proof. by intros w r w' [-> ->]%raise_inv. Qed.

Lemma preserves_bind {A B} I (m : M A) (k : A → M B) :
  preserves I m → (∀ a, preserves I (k a)) → preserves I (bind m k).
Proof.
  intros Hm Hk w r w' H HI.
  apply bind_inv in H as [(e & H & _)|(a & w1 & H1 & H)].
  - by eapply Hm.
  - eapply Hk; [done|]. by eapply Hm.
Qed.

Lemma preserves_frame {A} I S (m : M A) :
  insensitive I → modifies S m → (∀ c, F_cache c ∉ S) → F_class_dict ∉ S →
  preserves I m.
Proof.
  intros HI Hm Hc Hd w r w' H Hw.
  apply (modifies_run S) in H; [|done].
  eapply HI; [| |exact Hw].
  - by eapply frame_same_caches.
  - by apply (H F_class_dict).
Qed.

Section Keep.
Variable cfg : latex_config.t.

Lemma preserves_with_cd {A} I (body : M A) :
  insensitive I → preserves I body → preserves I (with_cd_tex_cwd cfg body).
Proof.
  intros HI Hb w r w' H Hw. unfold with_cd_tex_cwd, bind in H.
  rewrite enter_run in H.
  assert (I (after (_CdTeXCwd_enter cfg) w)) as Hw1.
  { eapply HI; [| |exact Hw].
    - intros c. by apply (enter_same cfg (F_cache c)).
    - by apply (enter_same cfg F_class_dict). }
  destruct (body _) as [r2 w2] eqn:E2.
  assert (I w2) as Hw2 by (by eapply Hb).
  unfold _CdTeXCwd_exit in H.
  destruct (cwd_stack w2); [by simplify_eq|].
  destruct (List.last _ _); simplify_eq;
    (eapply HI; [| |exact Hw2]; [by intros []|done]).
Qed.

Lemma preserves_resolve I self : insensitive I → preserves I (resolve cfg self).
Proof.
  intros HI. eapply (preserves_frame _ [F_resolutions]); [done| | |].
  - apply modifies_resolve. by repeat constructor.
  - set_solver.
  - set_solver.
Qed.

Lemma preserves_super_call I c : insensitive I → preserves I (super_call c).
Proof.
  intros HI. eapply (preserves_frame _ [F_fs_calls]); [done| | |].
  - apply modifies_super_call. by repeat constructor.
  - set_solver.
  - set_solver.
Qed.

Lemma preserves_is_resolved I self : preserves I (is_resolved self).
Proof. intros w r w' H. unfold is_resolved in H. by simplify_eq. Qed.

Lemma preserves_access I c :
  preserves I (_access_file_system_with_resolved_paths c).
Proof.
  unfold _access_file_system_with_resolved_paths.
  destruct (inherited _ _ _); [apply preserves_ret|apply preserves_raise].
Qed.

Section Gate.
Variable I : World → Prop.
Hypothesis HI : insensitive I.
Hypothesis Hpred : ∀ c self, preserves I (predicate cfg c self).

Ltac keep :=
  repeat first
    [ apply Hpred
    | apply preserves_resolve; exact HI
    | apply preserves_with_cd; [exact HI|]
    | apply preserves_bind
    | apply preserves_ret | apply preserves_raise
    | apply preserves_super_call; exact HI
    | apply preserves_is_resolved
    | apply preserves_access
    | apply (Hpred readable_dir) | apply (Hpred readable_file)
    | apply (Hpred writable_dir) | apply (Hpred writable_file)
    | match goal with
      | |- preserves _ (match ?x with _ => _ end) => destruct x
      | |- ∀ _, _ => intro
      end ].

Lemma preserves_gate a w :
  match a with
  | call_mkdir _ | call_open _ _ | call_read_bytes _ | call_read_text _
  | call_rename _ _ | call_replace _ _ | call_rmdir _ | call_touch _
  | call_unlink _ | call_write_bytes _ | call_write_text _
  | call_predicate _ _ | call_resolve _ => True
  | _ => False
  end →
  I w → I (run cfg a w).
Proof.
  intros Ha Hw.
  assert (∀ {A} (m : M A), preserves I m → I (after m w)) as Hk.
  { intros A m Hm. eapply Hm; [apply run_eq|done]. }
  destruct a; try done; simpl; apply Hk;
    unfold mkdir, open, read_bytes, read_text, rename, replace, rmdir, touch,
      unlink, write_bytes, write_text, access_resolved_and_not_resolved,
      access_resolved_and_not_both_resolved;
    keep.
Qed.
End Gate.

Lemma insensitive_world_ok : insensitive (world_ok cfg).
Proof. intros w w' Hc Hd. by apply world_ok_same. Qed.

Lemma insensitive_caches_le w0 : insensitive (caches_le w0).
Proof.
  intros w w' Hc _ Hle. eapply caches_le_trans; [exact Hle|].
  by apply caches_le_same.
Qed.

Lemma preserves_predicate_ok c self : preserves (world_ok cfg) (predicate cfg c self).
Proof. intros w r w' H Hok. by apply (predicate_ok _ _ _ _ _ _ H). Qed.

Lemma preserves_predicate_le w0 c self :
  preserves (caches_le w0) (predicate cfg c self).
Proof.
  intros w r w' H Hle. eapply caches_le_trans; [exact Hle|].
  by apply (predicate_le _ _ _ _ _ _ H).
Qed.

(** The class method with the mistaken handler: the attribute is never
    set, its lookup raises [AttributeError], and the handler for
    [KeyError] does not run. *)
Lemma tex_paranoid_roots_with_resolved_raises cls w :
  attrs_ok cfg (class_dict w) →
  tex_paranoid_roots_with_resolved cfg cls w
  = (inl (AttributeError "_tex_paranoid_roots_with_resolved"), w).
Proof.
  intros (_ & _ & _ & _ & _ & Hn & _).
  unfold tex_paranoid_roots_with_resolved, try_except, getattr.
  destruct (find_attr _ _ _) eqn:E; [|done].
  by apply (dict_all_find _ _ _ _ _ Hn) in E.
Qed.

Lemma lazily_world_ok {A} (a : Attr A) cls v w w' :
  lazily a cls v w w' → world_ok cfg w →
  attrs_ok cfg (upd_dict a cls v (class_dict w)) → world_ok cfg w'.
Proof.
  intros [->| ->] Hok Ha; [done|]. eapply world_ok_attrs; [exact Ha| |exact Hok].
  by intros [].
Qed.

Lemma run_world_ok a w : world_ok cfg w → world_ok cfg (run cfg a w).
Proof.
  intros Hok.
  destruct a;
    try (apply preserves_gate;
         [apply insensitive_world_ok|apply preserves_predicate_ok|done|done]);
    simpl; unfold after.
  - destruct (tex_cwd_run cfg cls w) as (w' & -> & L); [apply Hok|]. simpl.
    eapply lazily_world_ok; [done..|].
    destruct Hok as [(? & ? & ? & ? & ? & ? & ?) _]. repeat split; solve_dict_all; done.
  - destruct (TEXMFOUTPUT_run cfg cls w) as (w' & -> & L); [apply Hok|]. simpl.
    eapply lazily_world_ok; [done..|].
    destruct Hok as [(? & ? & ? & ? & ? & ? & ?) _]. repeat split; solve_dict_all; done.
  - destruct (TEXMF_OUTPUT_DIRECTORY_run cfg cls w) as (w' & -> & L); [apply Hok|].
    simpl. eapply lazily_world_ok; [done..|].
    destruct Hok as [(? & ? & ? & ? & ? & ? & ?) _]. repeat split; solve_dict_all; done.
  - destruct (tex_openout_roots_ok cfg cls w) as (w' & E & Ha); [apply Hok|].
    rewrite E. simpl. eapply world_ok_attrs; [done| |done].
    eapply frame_same_caches.
    + eapply (modifies_run [F_class_dict]); [|exact E].
      apply modifies_tex_openout_roots. by repeat constructor.
    + set_solver.
  - destruct (tex_paranoid_roots_ok cfg cls w) as (w' & E & Ha); [apply Hok|].
    rewrite E. simpl. eapply world_ok_attrs; [done| |done].
    eapply frame_same_caches.
    + eapply (modifies_run [F_class_dict]); [|exact E].
      apply modifies_tex_paranoid_roots. by repeat constructor.
    + set_solver.
  - eapply tex_paranoid_roots_resolved_world; [apply run_eq|done].
  - rewrite tex_paranoid_roots_with_resolved_raises; [done|apply Hok].
  - eapply texmfoutput_roots_world; [apply run_eq|done].
  - by eapply world_ok_same.
  - by eapply world_ok_same.
Qed.

Lemma run_caches_le a w : caches_le w (run cfg a w).
Proof.
  assert (∀ {A} S (m : M A),
            modifies S m → (∀ c, F_cache c ∉ S) → caches_le w (after m w)) as Hq.
  { intros A S m Hm HS. apply caches_le_same. eapply frame_same_caches; [apply Hm|done]. }
  destruct a;
    try (apply (preserves_gate (caches_le w));
         [apply insensitive_caches_le|apply preserves_predicate_le|done
         |apply caches_le_refl]);
    simpl.
  - apply (Hq _ [F_class_dict]); [apply modifies_tex_cwd; by repeat constructor|set_solver].
  - apply (Hq _ [F_class_dict]); [apply modifies_TEXMFOUTPUT; by repeat constructor|set_solver].
  - apply (Hq _ [F_class_dict]);
      [apply modifies_TEXMF_OUTPUT_DIRECTORY; by repeat constructor|set_solver].
  - apply (Hq _ [F_class_dict]);
      [apply modifies_tex_openout_roots; by repeat constructor|set_solver].
  - apply (Hq _ [F_class_dict]);
      [apply modifies_tex_paranoid_roots; by repeat constructor|set_solver].
  - apply (Hq _ [F_class_dict; F_resolutions]);
      [apply modifies_tex_paranoid_roots_resolved; by repeat constructor|set_solver].
  - apply (Hq _ [F_class_dict; F_resolutions]);
      [apply modifies_tex_paranoid_roots_with_resolved; by repeat constructor|set_solver].
  - apply (Hq _ [F_class_dict]);
      [apply modifies_tex_texmfoutput_roots; by repeat constructor|set_solver].
  - apply caches_le_same. by intros [].
  - apply caches_le_same. by intros [].
Qed.

Lemma run_all_caches_le l w : caches_le w (run_all cfg l w).
Proof.
  revert w. induction l as [|a l IH]; intros w; simpl.
  - apply caches_le_refl.
  - eapply caches_le_trans; [apply run_caches_le|apply IH].
Qed.

Lemma initial_world_ok f d : world_ok cfg (initial_world f d).
Proof.
  split.
  - repeat split; by intros c x.
  - intros c key d'. by destruct c.
Qed.

Lemma reachable_ok w : reachable cfg w → world_ok cfg w.
Proof.
  induction 1 as [f d|a w _ IH]; [apply initial_world_ok|by apply run_world_ok].
Qed.

End Keep.

(** *** The operations on the file system *)

Ltac fp_gate_step :=
  first
    [ fp_step
    | apply modifies_tex_readable_file; fp_mem
    | apply modifies_tex_writable_file; fp_mem
    | apply modifies_tex_readable_dir; fp_mem
    | apply modifies_tex_writable_dir; fp_mem ].

Ltac gate_unfold :=
  unfold access_resolved_and_not_resolved, access_resolved_and_not_both_resolved,
    _access_file_system_with_resolved_paths.

Section Gates.
Variable cfg : latex_config.t.

Lemma with_cd_footprint {A} S (body : M A) w :
  modifies S body → F_cwd ∉ S → F_cwd_stack ∉ S →
  with_cd_tex_cwd cfg body w
  = (result body (after (_CdTeXCwd_enter cfg) w),
     set_cwd (cwd w)
       (set_cwd_stack (cwd_stack w) (after body (after (_CdTeXCwd_enter cfg) w)))).
Proof.
  intros Hm Hc Hs. apply with_cd_run.
  - by apply (Hm _ F_cwd_stack).
  - by apply (Hm _ F_cwd).
Qed.

Lemma two_paths_gate (what what_target : string) (call : Path → Path → FsCall)
    self target w :
  gates_both_paths cfg
    (fun self target =>
       with_cd_tex_cwd cfg
         (d <- tex_writable_file cfg self ;;
          let '(is_writable, reason) := d in
          if negb is_writable then
            raise (PathSecurityError (message what self reason))
          else
            dt <- tex_writable_file cfg target ;;
            let '(target_is_writable, target_reason) := dt in
            if negb target_is_writable then
              raise (PathSecurityError (message what_target target target_reason))
            else
              b <- access_resolved_and_not_both_resolved self target ;;
              if (b : bool) then
                r <- resolve cfg self ;;
                rt <- resolve cfg target ;;
                super_call (call (path_of r) (path_of rt))
              else super_call (call (path_of self) (path_of target))))
    what what_target self target w.
Proof.
  unfold gates_both_paths. cbv zeta.
  set (w1 := after (_CdTeXCwd_enter cfg) w).
  assert (fs_calls w1 = fs_calls w) as Hw1 by (by apply (enter_same cfg F_fs_calls)).
  match goal with |- context [with_cd_tex_cwd cfg ?b] => set (body := b) end.
  assert (with_cd_tex_cwd cfg body w
          = (result body w1,
             set_cwd (cwd w) (set_cwd_stack (cwd_stack w) (after body w1)))) as Hrun.
  { apply (with_cd_footprint fp_gate); [|compute_done|compute_done].
    subst body. gate_unfold. repeat fp_gate_step. }
  assert (∀ r w', body w1 = (r, w') →
                  result (with_cd_tex_cwd cfg body) w = r
                  ∧ fs_calls (after (with_cd_tex_cwd cfg body) w) = fs_calls w') as Hb.
  { intros r w' E. unfold result at 1, after at 1. rewrite Hrun. cbn [fst snd].
    unfold result, after. by rewrite E. }
  assert (∀ x w0 r w', tex_writable_file cfg x w0 = (r, w') →
                       fs_calls w' = fs_calls w0) as Hf.
  { intros x w0 r w' E. pose proof (tex_writable_file_frame cfg x w0) as Hfr.
    unfold after in Hfr. rewrite E in Hfr. apply (Hfr F_fs_calls). compute_done. }
  clearbody w1. split; [|split].
  - intros reason w2 H.
    destruct (Hb (inl (PathSecurityError (message what self reason))) w2) as [-> ->].
    { subst body. unfold bind. by rewrite H. }
    split; [done|]. rewrite (Hf _ _ _ _ H). done.
  - intros r0 w2 reason w3 H1 H2.
    destruct (Hb (inl (PathSecurityError (message what_target target reason))) w3)
      as [-> ->].
    { subst body. unfold bind. rewrite H1. cbn. by rewrite H2. }
    split; [done|]. rewrite (Hf _ _ _ _ H2), (Hf _ _ _ _ H1). done.
  - intros Hne.
    destruct (tex_writable_file cfg self w1) as [[e|[[] r0]] w2] eqn:E1.
    + destruct (Hb (inl e) w2) as [_ Hc].
      { subst body. unfold bind. by rewrite E1. }
      rewrite Hc, (Hf _ _ _ _ E1) in Hne. done.
    + destruct (tex_writable_file cfg target w2) as [[e|[[] r1]] w3] eqn:E2.
      * destruct (Hb (inl e) w3) as [_ Hc].
        { subst body. unfold bind. rewrite E1. cbn. by rewrite E2. }
        rewrite Hc, (Hf _ _ _ _ E2), (Hf _ _ _ _ E1) in Hne. done.
      * by exists r0, w2, r1, w3.
      * destruct (Hb (inl (PathSecurityError (message what_target target r1))) w3)
          as [_ Hc].
        { subst body. unfold bind. rewrite E1. cbn. by rewrite E2. }
        rewrite Hc, (Hf _ _ _ _ E2), (Hf _ _ _ _ E1) in Hne. done.
    + destruct (Hb (inl (PathSecurityError (message what self r0))) w2) as [_ Hc].
      { subst body. unfold bind. by rewrite E1. }
      rewrite Hc, (Hf _ _ _ _ E1) in Hne. done.
Qed.

End Gates.

(** *** Reading does not look at the decisions on writing *)

Lemma ignores_ret {A} (a : A) : ignores_write_caches (ret a).
Proof. by intros ? ? ?. Qed.

Lemma ignores_raise {A} e : ignores_write_caches (@raise A e).
Proof. by intros ? ? ?. Qed.

Lemma ignores_bind {A B} (m : M A) (k : A → M B) :
  ignores_write_caches m → (∀ a, ignores_write_caches (k a)) →
  ignores_write_caches (bind m k).
Proof.
  intros Hm Hk f d w. unfold bind, result, after. rewrite Hm.
  unfold result, after. destruct (m w) as [[e|a] w1]; [done|]. simpl.
  rewrite Hk. unfold result, after. by destruct (k a w1).
Qed.

Lemma ignores_try {A} (m h : M A) (catches : exn → bool) :
  ignores_write_caches m → ignores_write_caches h →
  ignores_write_caches (try_except m catches h).
Proof.
  intros Hm Hh f d w. unfold try_except, result, after. rewrite Hm.
  unfold result, after. destruct (m w) as [[e|a] w1]; [|done]. simpl.
  destruct (catches e); [|done].
  rewrite Hh. unfold result, after. by destruct (h w1).
Qed.

Lemma ignores_getitem_read c key :
  c = readable_dir ∨ c = readable_file → ignores_write_caches (getitem c key).
Proof.
  intros [-> | ->] f d w; unfold getitem, result, after; simpl;
    by destruct (_ !! key).
Qed.

Lemma ignores_setitem_read c key v :
  c = readable_dir ∨ c = readable_file → ignores_write_caches (setitem c key v).
Proof. by intros [-> | ->] f d w. Qed.

Lemma ignores_getattr {A} (a : Attr A) cls : ignores_write_caches (getattr a cls).
Proof.
  intros f d w. unfold getattr, result, after. simpl.
  by destruct (find_attr _ _ _).
Qed.

Lemma ignores_setattr {A} (a : Attr A) cls v : ignores_write_caches (setattr a cls v).
Proof. by intros f d w. Qed.

Lemma ignores_mapM {A B} (f : A → M B) l :
  (∀ x, ignores_write_caches (f x)) → ignores_write_caches (mapM f l).
Proof.
  intros Hf. induction l as [|x l IH]; simpl.
  - apply ignores_ret.
  - apply ignores_bind; [apply Hf|]. intros y.
    apply ignores_bind; [apply IH|]. intros ys. apply ignores_ret.
Qed.

Lemma ignores_is_resolved self : ignores_write_caches (is_resolved self).
Proof. by intros f d w. Qed.

Lemma ignores_super_call c : ignores_write_caches (super_call c).
Proof. by intros f d w. Qed.

Section Ignore.
Variable cfg : latex_config.t.

Lemma ignores_enter : ignores_write_caches (_CdTeXCwd_enter cfg).
Proof.
  intros f d w. unfold _CdTeXCwd_enter, result, after. simpl.
  by destruct (String.eqb _ _).
Qed.

Lemma ignores_exit : ignores_write_caches _CdTeXCwd_exit.
Proof.
  intros f d w. unfold _CdTeXCwd_exit, result, after. simpl.
  destruct (cwd_stack w); [done|]. by destruct (List.last _ _).
Qed.

Lemma ignores_with_cd {A} (body : M A) :
  ignores_write_caches body → ignores_write_caches (with_cd_tex_cwd cfg body).
Proof.
  intros Hb. unfold with_cd_tex_cwd. apply ignores_bind; [apply ignores_enter|].
  intros _ f d w. rewrite Hb. unfold result, after.
  destruct (body w) as [r w1]. simpl. rewrite ignores_exit.
  unfold result, after. by destruct (_CdTeXCwd_exit w1) as [[e|u] w2].
Qed.

Lemma ignores_resolve self : ignores_write_caches (resolve cfg self).
Proof. intros f d w. unfold result, after. by rewrite !resolve_eq. Qed.

Ltac ig_mem := first [ by left | by right ].

Ltac ig_step :=
  first
    [ apply ignores_ret | apply ignores_raise
    | apply ignores_getitem_read; ig_mem
    | apply ignores_setitem_read; ig_mem
    | apply ignores_getattr | apply ignores_setattr
    | apply ignores_is_resolved | apply ignores_super_call
    | apply ignores_resolve
    | apply ignores_with_cd
    | apply ignores_bind | apply ignores_try | apply ignores_mapM
    | match goal with
      | |- ignores_write_caches (match ?x with _ => _ end) => destruct x
      | |- ignores_write_caches (let '(_, _) := ?x in _) => destruct x
      | |- ∀ _, _ => intro
      end ].

Ltac ig_unfold :=
  unfold tex_cwd, TEXMFOUTPUT, TEXMF_OUTPUT_DIRECTORY, attr_append, attr_add,
    tex_openout_roots, tex_paranoid_roots, tex_texmfoutput_roots,
    tex_paranoid_roots_resolved.

Lemma ignores_tex_texmfoutput_roots cls :
  ignores_write_caches (tex_texmfoutput_roots cfg cls).
Proof. ig_unfold. repeat ig_step. Qed.

Lemma ignores_tex_paranoid_roots_resolved cls :
  ignores_write_caches (tex_paranoid_roots_resolved cfg cls).
Proof. ig_unfold. repeat ig_step. Qed.

Lemma ignores_tex_readable_dir self :
  ignores_write_caches (tex_readable_dir cfg self).
Proof.
  unfold tex_readable_dir.
  destruct (predicates_from _); try apply ignores_raise.
  - unfold StringRestrictedPath_tex_readable_dir.
    repeat first [ apply ignores_tex_texmfoutput_roots | ig_step ].
  - unfold ResolvedRestrictedPath_tex_readable_dir.
    repeat first [ apply ignores_tex_paranoid_roots_resolved | ig_step ].
Qed.

Lemma ignores_tex_readable_file self :
  ignores_write_caches (tex_readable_file cfg self).
Proof.
  unfold tex_readable_file.
  destruct (predicates_from _); try apply ignores_raise.
  - unfold StringRestrictedPath_tex_readable_file.
    repeat first [ apply ignores_tex_readable_dir | ig_step ].
  - unfold ResolvedRestrictedPath_tex_readable_file.
    repeat first [ apply ignores_tex_readable_dir | ig_step ].
Qed.

Lemma open_read_eq self mode :
  PyStr.char_in "r" mode = true → open cfg self mode = open_to_read cfg self mode.
Proof. intros H. unfold open, open_to_read. by rewrite H. Qed.

Lemma ignores_open_to_read self mode :
  ignores_write_caches (open_to_read cfg self mode).
Proof.
  unfold open_to_read, access_resolved_and_not_resolved,
    _access_file_system_with_resolved_paths.
  repeat first [ apply ignores_tex_readable_file | ig_step ].
Qed.

End Ignore.

Lemma open_to_read_policy cfg wa wd exts self mode :
  open_to_read (with_write_policy cfg wa wd exts) self mode = open_to_read cfg self mode.
Proof. destruct cfg. reflexivity. Qed.

(** * The properties of the specification *)

Lemma result_after {A} (m : M A) w r w' : m w = (r, w') → result m w = r ∧ after m w = w'.
Proof. unfold result, after. by intros ->. Qed.

(** C1. On the lexical classes, [tex_readable_dir] and [tex_writable_dir]
    return the decision of the sequence: allowed when the policy permits
    access anywhere; else refused with the [..] reason when a component is
    [..]; else, for an absolute path, allowed exactly when the path lies
    under the output directory or the fallback directory (the working
    directory is not among these roots) and refused with the location
    reason otherwise; else, for a relative path, allowed. *)
Theorem C1_lexical_directory_decision cfg w cls p :
  reachable cfg w → is_string_cls cls = true →
  result (tex_readable_dir cfg (mkRPath cls p)) w
  = inr (if _tex_can_read_anywhere cfg cls then (true, None)
         else if bool_decide (".." ∈ components p) then (false, Some reason_dotdot)
         else if is_absolute p then
           if under_absolute_root cfg p then (true, None)
           else (false, Some reason_location)
         else (true, None))
  ∧ result (tex_writable_dir cfg (mkRPath cls p)) w
    = inr (if _tex_can_write_anywhere cfg cls then (true, None)
           else if bool_decide (".." ∈ components p) then (false, Some reason_dotdot)
           else if is_absolute p then
             if under_absolute_root cfg p then (true, None)
             else (false, Some reason_location)
           else (true, None)).
Proof.
  intros Hw%reachable_ok Hs. split.
  - destruct (predicate_ok cfg readable_dir (mkRPath cls p) w _ _ (run_eq _ _) Hw)
      as [_ H].
    by apply H.
  - destruct (predicate_ok cfg writable_dir (mkRPath cls p) w _ _ (run_eq _ _) Hw)
      as [_ H].
    by apply H.
Qed.

Lemma C1_witness :
  reachable Sample.restrictive Sample.w0
  ∧ is_string_cls SafeStringRestrictedPath = true
  ∧ result (tex_readable_dir Sample.restrictive
              (mkRPath SafeStringRestrictedPath (PurePath.of_string "/work/a")))
      Sample.w0
    = inr (false, Some reason_location).
Proof.
  split; [apply reach_init|]. split; [reflexivity|].
  apply (C1_lexical_directory_decision Sample.restrictive Sample.w0
           SafeStringRestrictedPath (PurePath.of_string "/work/a"));
    [apply reach_init|reflexivity].
Defined.

(** C8. [tex_openout_roots] returns the list that starts with the output
    directory when it is configured and with the working directory
    otherwise, followed by the fallback directory exactly when it is
    configured and differs from that first element. *)
Theorem C8_tex_openout_roots cfg w cls :
  reachable cfg w →
  result (tex_openout_roots cfg cls) w
  = inr (match output_directory cfg with
         | Some d => d
         | None => cwd_path cfg
         end
         :: match output_fallback_directory cfg with
            | Some t =>
                if decide (t = match output_directory cfg with
                               | Some d => d
                               | None => cwd_path cfg
                               end)
                then [] else [t]
            | None => []
            end).
Proof.
  intros [Ha _]%reachable_ok.
  destruct (tex_openout_roots_ok cfg cls w Ha) as (w' & E & _).
  by apply result_after in E as [-> _].
Qed.

Lemma C8_witness :
  reachable Sample.restrictive Sample.w0
  ∧ result (tex_openout_roots Sample.restrictive ResolvedRestrictedPath) Sample.w0
    = inr [mkPath true ["work"]; mkPath true ["fallback"]].
Proof.
  split; [apply reach_init|].
  apply (C8_tex_openout_roots Sample.restrictive Sample.w0 ResolvedRestrictedPath).
  apply reach_init.
Defined.

(** C10. Every call of [tex_paranoid_roots_with_resolved], on every
    class, raises [AttributeError] and leaves the world as it is: the
    attribute is never set, and the handler, which catches [KeyError], never
    runs. *)
Theorem C10_tex_paranoid_roots_with_resolved_raises cfg w cls :
  reachable cfg w →
  tex_paranoid_roots_with_resolved cfg cls w
  = (inl (AttributeError "_tex_paranoid_roots_with_resolved"), w).
Proof.
  intros [Ha _]%reachable_ok. by apply tex_paranoid_roots_with_resolved_raises.
Qed.

Lemma C10_witness :
  reachable Sample.permissive
    (run Sample.permissive (call_tex_paranoid_roots_resolved SafeResolvedRestrictedPath)
       Sample.w0)
  ∧ result (tex_paranoid_roots_with_resolved Sample.permissive SafeResolvedRestrictedPath)
      (run Sample.permissive (call_tex_paranoid_roots_resolved SafeResolvedRestrictedPath)
         Sample.w0)
    = inl (AttributeError "_tex_paranoid_roots_with_resolved").
Proof.
  split; [apply reach_step, reach_init|].
  exact (f_equal fst
           (C10_tex_paranoid_roots_with_resolved_raises Sample.permissive _
              SafeResolvedRestrictedPath
              (reach_step _ _ _ (reach_init _ Sample.the_fs "/home")))).
Defined.

Lemma predicate_not_base cfg c self w d :
  result (predicate cfg c self) w = inr d →
  predicates_from (cls_of self) ≠ BaseRestrictedPath.
Proof.
  intros H Hb. unfold result in H.
  destruct c; simpl in H;
    unfold tex_readable_dir, tex_readable_file, tex_writable_dir, tex_writable_file in H;
    by rewrite Hb in H.
Qed.

(** C7. Once a predicate has returned a decision for a class and a path,
    the next call returns the same decision from the cache and leaves the
    world as it is, so that it asks the file system for no resolution; and
    so does every later call, after any calls of the package and any
    changes of the file system: no cached decision is removed or
    replaced. *)
Theorem C7_cached_decision_reused cfg c self w d :
  result (predicate cfg c self) w = inr d →
  predicate cfg c self (after (predicate cfg c self) w)
  = (inr d, after (predicate cfg c self) w)
  ∧ ∀ l,
      predicate cfg c self (run_all cfg l (after (predicate cfg c self) w))
      = (inr d, run_all cfg l (after (predicate cfg c self) w))
      ∧ resolutions (after (predicate cfg c self)
                       (run_all cfg l (after (predicate cfg c self) w)))
        = resolutions (run_all cfg l (after (predicate cfg c self) w)).
Proof.
  intros H. pose proof (predicate_not_base _ _ _ _ _ H) as Hb.
  destruct (predicate_le cfg c self w _ _ (run_eq _ _)) as [_ Hc].
  specialize (Hc d H).
  assert (∀ l, predicate cfg c self (run_all cfg l (after (predicate cfg c self) w))
               = (inr d, run_all cfg l (after (predicate cfg c self) w))) as Hl.
  { intros l. apply predicate_hit; [|done].
    eapply lookup_weaken; [exact Hc|]. apply run_all_caches_le. }
  split; [apply (Hl [])|]. intros l. split; [apply Hl|].
  unfold after at 1. by rewrite Hl.
Qed.

Lemma C7_witness :
  result (predicate Sample.restrictive readable_file (Sample.res "docs/link.tex"))
    Sample.w0
  = inr (false, Some reason_location)
  ∧ result (predicate Sample.restrictive readable_file (Sample.res "docs/link.tex"))
      (run_all Sample.restrictive
         [file_system_changes (mkFileSystem (fun _ p => inr p) (fun _ _ => true)
                                 (fun _ => None));
          call_open (Sample.res "x.tex") "w"]
         (after (predicate Sample.restrictive readable_file
                   (Sample.res "docs/link.tex")) Sample.w0))
    = inr (false, Some reason_location).
Proof.
  split; [vm_compute; reflexivity|].
  refine (f_equal fst
            (proj1 (proj2 (C7_cached_decision_reused Sample.restrictive readable_file
                             (Sample.res "docs/link.tex") Sample.w0
                             (false, Some reason_location) _) _))).
  vm_compute; reflexivity.
Defined.


Lemma deny_result c key d w :
  result (setitem c key d ;;; getitem c key) w = inr d.
Proof.
  unfold result, bind, setitem, getitem. by rewrite cache_of_set_cache, lookup_insert_eq.
Qed.

(** The test of an extension lower-cases the name only; with an extension
    that is configured in lower case it is the comparison without regard to
    case. *)
Lemma endswith_lower_extension name ext :
  PyStr.lower ext = ext →
  PyStr.endswith (PyStr.lower name) ext
  = PyStr.endswith (PyStr.lower name) (PyStr.lower ext).
Proof. by intros ->. Qed.

(** The operations that are refused whatever the policy. *)
Lemma refused_operations self w :
  chmod self w = (inl NotImplementedError, w)
  ∧ copy self w = (inl NotImplementedError, w)
  ∧ copytree self w = (inl NotImplementedError, w)
  ∧ lchmod self w = (inl NotImplementedError, w)
  ∧ symlink_to self w = (inl NotImplementedError, w)
  ∧ hardlink_to self w = (inl NotImplementedError, w).
Proof. done. Qed.

Lemma is_resolved_predicates cls :
  is_resolved_cls cls = true → predicates_from cls = ResolvedRestrictedPath.
Proof. destruct cls; by vm_compute. Qed.







(** C6 fails as stated: the reason that the code gives for a path with a
    [..] component is not, character for character, one of the reasons of
    section 6: the code writes [..] between double quotes. *)
Lemma C6_counterexample :
  result (tex_readable_dir Sample.restrictive (Sample.str "a/../b")) Sample.w0
  = inr (false, Some reason_dotdot)
  ∧ ¬ spec_template reason_dotdot.
Proof.
  split; [vm_compute; reflexivity|].
  unfold spec_template, reason_dotdot.
  intros [H|[H|[H|[ext H]]]]; simpl in H; discriminate H.
Qed.

(** C6, amended. Every decision that one of the four predicates returns,
    on any class, is either an allowance without a reason or a refusal with
    a reason, and the reason is one of: the [..] reason with [..] between
    double quotes, the location reason, the dotfile reason, the extension
    reason for one of the prohibited extensions. *)
Theorem C6_decisions_well_formed cfg w c self d :
  reachable cfg w → result (predicate cfg c self) w = inr d →
  d = (true, None)
  ∨ ∃ r, d = (false, Some r)
         ∧ (r = "security settings do not permit paths containing "
                ++ PyStr.dquote ++ ".." ++ PyStr.dquote
            ∨ r = "security settings do not permit access to this location"
            ∨ r = "security settings do not permit access to dotfiles"
            ∨ ∃ ext, ext ∈ latex_config.prohibited_write_file_extensions cfg
                     ∧ r = "security settings prevent writing files with extension "
                           ++ PyStr.dquote ++ ext ++ PyStr.dquote).
Proof.
  intros Hw%reachable_ok H.
  eapply (predicate_good cfg c self w d); [|done].
  rewrite <- H. apply run_eq.
Qed.

Lemma C6_witness :
  reachable Sample.restrictive Sample.w0
  ∧ result (predicate Sample.restrictive writable_file (Sample.res "payload.BAT"))
      Sample.w0
    = inr (false, Some (reason_extension ".bat"))
  ∧ ((false, Some (reason_extension ".bat")) = (true, None)
     ∨ ∃ r, (false, Some (reason_extension ".bat")) = (false, Some r)
            ∧ (r = "security settings do not permit paths containing "
                   ++ PyStr.dquote ++ ".." ++ PyStr.dquote
               ∨ r = "security settings do not permit access to this location"
               ∨ r = "security settings do not permit access to dotfiles"
               ∨ ∃ ext, ext ∈ latex_config.prohibited_write_file_extensions
                                Sample.restrictive
                        ∧ r = "security settings prevent writing files with extension "
                              ++ PyStr.dquote ++ ext ++ PyStr.dquote)).
Proof.
  assert (result (predicate Sample.restrictive writable_file
                    (Sample.res "payload.BAT")) Sample.w0
          = inr (false, Some (reason_extension ".bat"))) as H
    by (vm_compute; reflexivity).
  split; [apply reach_init|]. split; [exact H|].
  exact (C6_decisions_well_formed Sample.restrictive Sample.w0 writable_file
           (Sample.res "payload.BAT") _ (reach_init _ _ _) H).
Defined.

(** C3. [rename] and [replace] evaluate the predicate on written files on
    the source and then on the target, before any call goes to the file
    system: when the predicate refuses the source, or allows the source and
    refuses the target, the operation raises the security error with the
    refused path and the reason of the decision, and no call has gone to
    the file system; a call goes to the file system only when the predicate
    has allowed both paths. *)
Theorem C3_rename_replace_gate cfg self target w :
  gates_both_paths cfg (rename cfg)
    "Cannot rename file" "Cannot create renamed file" self target w
  ∧ gates_both_paths cfg (replace cfg)
      "Cannot replace file" "Cannot create replacement file" self target w.
Proof.
  split.
  - apply (two_paths_gate cfg "Cannot rename file" "Cannot create renamed file"
             fs_rename).
  - apply (two_paths_gate cfg "Cannot replace file" "Cannot create replacement file"
             fs_replace).
Qed.

Lemma C3_witness :
  result (rename Sample.restrictive (Sample.str "a.tex") (Sample.str "b.bat"))
    Sample.w0
  = inl (PathSecurityError
           (message "Cannot create renamed file" (Sample.str "b.bat")
              (Some (reason_extension ".bat"))))
  ∧ fs_calls (after (rename Sample.restrictive (Sample.str "a.tex")
                       (Sample.str "b.bat")) Sample.w0)
    = fs_calls Sample.w0.
Proof.
  refine (proj1 (proj2 (proj1 (C3_rename_replace_gate Sample.restrictive
                                 (Sample.str "a.tex") (Sample.str "b.bat")
                                 Sample.w0)))
            None _ (Some (reason_extension ".bat")) _ _ _).
  - vm_compute. reflexivity.
  - vm_compute. reflexivity.
Defined.

(** C4. For a mode that contains [r] (such as [r+]), [open] decides by
    the predicate on read files alone: a refusal of that predicate raises
    the security error for reading, and neither the policy for writing
    (anywhere, dotfiles, prohibited extensions) nor any cached decision on
    writing changes the outcome, and the cached decisions on writing are
    left as they are.  For a mode that contains none of [r], [w], [x], [a],
    [open] raises [NotImplementedError] and no call goes to the file
    system. *)
Theorem C4_open_modes cfg self mode w :
  (PyStr.char_in "r" mode = true →
   (∀ reason w2,
      tex_readable_file cfg self (after (_CdTeXCwd_enter cfg) w)
      = (inr (false, reason), w2) →
      result (open cfg self mode) w
      = inl (PathSecurityError (message "Cannot read file" self reason)))
   ∧ (∀ anywhere dotfiles extensions files dirs,
        open (with_write_policy cfg anywhere dotfiles extensions) self mode
          (with_write_caches files dirs w)
        = (result (open cfg self mode) w,
           with_write_caches files dirs (after (open cfg self mode) w))))
  ∧ (PyStr.char_in "r" mode = false →
     existsb (fun char => PyStr.char_in char mode) ["w"; "x"; "a"]%char = false →
     result (open cfg self mode) w = inl NotImplementedError
     ∧ fs_calls (after (open cfg self mode) w) = fs_calls w).
Proof.
  split.
  - intros Hr. split.
    + intros reason w2 H. rewrite (open_read_eq cfg self mode Hr).
      unfold open_to_read, result.
      rewrite (with_cd_footprint cfg fp_gate);
        [|gate_unfold; repeat fp_gate_step|compute_done|compute_done].
      cbn [fst]. unfold result, bind. by rewrite H.
    + intros anywhere dotfiles extensions files dirs.
      rewrite !open_read_eq by done.
      rewrite open_to_read_policy. apply ignores_open_to_read.
  - intros Hr Hw. unfold open. rewrite Hr, Hw. unfold result, after.
    rewrite (with_cd_footprint cfg fp_gate);
      [|gate_unfold; repeat fp_gate_step|compute_done|compute_done].
    cbn [fst snd]. split; [done|].
    unfold after, bind, raise. cbn. by apply (enter_same cfg F_fs_calls).
Qed.

Lemma C4_witness :
  PyStr.char_in "r" "r+" = true
  ∧ open (with_write_policy Sample.restrictive true true []) (Sample.str "x.bat") "r+"
      (with_write_caches ∅ ∅ Sample.w0)
    = (result (open Sample.restrictive (Sample.str "x.bat") "r+") Sample.w0,
       with_write_caches ∅ ∅
         (after (open Sample.restrictive (Sample.str "x.bat") "r+") Sample.w0)).
Proof.
  split; [reflexivity|].
  exact (proj2 (proj1 (C4_open_modes Sample.restrictive (Sample.str "x.bat") "r+"
                         Sample.w0) eq_refl) true true [] ∅ ∅).
Defined.

(** A file with a prohibited extension: the predicate on written files
    refuses it, and [open] with the mode [r+] hands the call down. *)
Example open_read_write_mode_prohibited_extension :
  result (tex_writable_file Sample.restrictive (Sample.str "x.bat")) Sample.w0
  = inr (false, Some (reason_extension ".bat"))
  ∧ result (open Sample.restrictive (Sample.str "x.bat") "r+") Sample.w0 = inr tt
  ∧ fs_calls (after (open Sample.restrictive (Sample.str "x.bat") "r+") Sample.w0)
    = [fs_open (mkPath false ["x.bat"]) "r+"].
Proof. vm_compute. done. Qed.

(** C9: importing the package fails.  [__init__.py] asks
    [_restricted_pathlib] for [SafeOutputStringRestrictedPath], and the
    module defines [SafeWriteStringRestrictedPath]: the import raises
    [ImportError], and no class can be had from the package. *)
Theorem C9_package_import_fails :
  import_latexrestricted = inl (ImportError "SafeOutputStringRestrictedPath").
Proof. vm_compute. reflexivity. Qed.

(** In the module itself each strategy comes in both strictnesses, and a
    strict class takes its predicates from the class of its strategy and
    overrides the four policy booleans with false, and nothing else. *)
Lemma strict_classes_override_policy_only cfg :
  predicates_from SafeStringRestrictedPath = StringRestrictedPath
  ∧ predicates_from SafeResolvedRestrictedPath = ResolvedRestrictedPath
  ∧ (∀ c, c = SafeStringRestrictedPath ∨ c = SafeResolvedRestrictedPath →
          _tex_can_read_anywhere cfg c = false
          ∧ _tex_can_read_dotfiles cfg c = false
          ∧ _tex_can_write_anywhere cfg c = false
          ∧ _tex_can_write_dotfiles cfg c = false
          ∧ _tex_prohibited_write_file_extensions cfg c
            = latex_config.prohibited_write_file_extensions cfg)
  ∧ (∀ c, c = StringRestrictedPath ∨ c = ResolvedRestrictedPath →
          _tex_can_read_anywhere cfg c = latex_config.can_read_anywhere cfg
          ∧ _tex_can_read_dotfiles cfg c = latex_config.can_read_dotfiles cfg
          ∧ _tex_can_write_anywhere cfg c = latex_config.can_write_anywhere cfg
          ∧ _tex_can_write_dotfiles cfg c = latex_config.can_write_dotfiles cfg).
Proof.
  split; [done|]. split; [done|]. split; intros c [-> | ->]; done.
Qed.

(** * Further properties of the code *)

(** ** The context manager and the current directory *)

Lemma modifies_with_cd cfg {A} (body : M A) :
  modifies fp_gate body → modifies fp_gate (with_cd_tex_cwd cfg body).
Proof.
  intros Hm w f Hf. unfold after.
  rewrite (with_cd_footprint cfg fp_gate); [|done|compute_done|compute_done].
  cbn [snd].
  pose proof (Hm (after (_CdTeXCwd_enter cfg) w) f Hf) as H1.
  destruct f as [| | |c| | |]; try done.
  - simpl in *. rewrite H1. by apply (enter_same cfg F_fs).
  - exfalso. apply Hf. destruct c; compute_done.
  - exfalso. apply Hf. compute_done.
  - exfalso. apply Hf. compute_done.
  - exfalso. apply Hf. compute_done.
Qed.

(** Every call changes at most the caches, the class attributes and the
    two logs. *)
Lemma run_footprint cfg a w : is_call a = true → frame fp_gate w (run cfg a w).
Proof.
  intros Ha.
  assert (∀ {A} (m : M A), modifies fp_gate m → frame fp_gate w (after m w)) as Hq.
  { intros A m Hm. apply Hm. }
  destruct a; try done; cbn [run]; apply Hq;
    try (apply modifies_with_cd; gate_unfold; solve [repeat fp_gate_step]).
  - destruct c; simpl.
    + apply modifies_tex_readable_dir; by repeat constructor.
    + apply modifies_tex_readable_file; by repeat constructor.
    + apply modifies_tex_writable_dir; by repeat constructor.
    + apply modifies_tex_writable_file; by repeat constructor.
  - apply modifies_resolve; by repeat constructor.
  - apply modifies_tex_cwd; by repeat constructor.
  - apply modifies_TEXMFOUTPUT; by repeat constructor.
  - apply modifies_TEXMF_OUTPUT_DIRECTORY; by repeat constructor.
  - apply modifies_tex_openout_roots; by repeat constructor.
  - apply modifies_tex_paranoid_roots; by repeat constructor.
  - apply modifies_tex_paranoid_roots_resolved; by repeat constructor.
  - apply modifies_tex_paranoid_roots_with_resolved; by repeat constructor.
  - apply modifies_tex_texmfoutput_roots; by repeat constructor.
Qed.

(** X1. Every call of the package leaves the current directory of the
    process and the stack of the context manager as it found them, whether
    the call returns or raises. *)
Theorem X1_call_restores_current_directory cfg a w :
  is_call a = true →
  cwd (run cfg a w) = cwd w ∧ cwd_stack (run cfg a w) = cwd_stack w.
Proof.
  intros Ha. pose proof (run_footprint cfg a w Ha) as H. split.
  - apply (H F_cwd). compute_done.
  - apply (H F_cwd_stack). compute_done.
Qed.

Lemma X1_witness :
  is_call (call_rename (Sample.str "a.tex") (Sample.str "b.bat")) = true
  ∧ cwd (run Sample.restrictive
           (call_rename (Sample.str "a.tex") (Sample.str "b.bat")) Sample.w0)
    = "/home".
Proof.
  split; [reflexivity|].
  exact (proj1 (X1_call_restores_current_directory Sample.restrictive
                  (call_rename (Sample.str "a.tex") (Sample.str "b.bat"))
                  Sample.w0 eq_refl)).
Defined.

(** ** The methods on one path *)

Lemma run_op_guarded cfg o :
  run_op cfg o
  = guarded cfg (predicate cfg (op_predicate o)) (op_what o) (op_call o).
Proof. by destruct o. Qed.

Lemma open_guarded cfg self mode w :
  open cfg self mode w
  = if PyStr.char_in "r" mode then
      guarded cfg (predicate cfg readable_file) "Cannot read file"
        (fun p => fs_open p mode) self w
    else if existsb (fun char => PyStr.char_in char mode) ["w"; "x"; "a"]%char then
      guarded cfg (predicate cfg writable_file) "Cannot write file"
        (fun p => fs_open p mode) self w
    else with_cd_tex_cwd cfg (raise NotImplementedError) w.
Proof.
  unfold open, guarded, with_cd_tex_cwd, predicate.
  destruct (PyStr.char_in "r" mode); [|destruct (existsb _ _)];
    unfold bind; destruct (_CdTeXCwd_enter cfg w) as [[e|u] w1]; try done.
  - destruct (tex_readable_file cfg self w1) as [[e|[[] r]] w2]; done.
  - destruct (tex_writable_file cfg self w1) as [[e|[[] r]] w2]; done.
Qed.

Lemma modifies_predicate cfg S c self :
  (∀ c', F_cache c' ∈ S) → F_class_dict ∈ S → F_resolutions ∈ S →
  modifies S (predicate cfg c self).
Proof.
  intros Hc Hd Hr. destruct c; simpl.
  - by apply modifies_tex_readable_dir.
  - by apply modifies_tex_readable_file.
  - by apply modifies_tex_writable_dir.
  - by apply modifies_tex_writable_file.
Qed.

Lemma predicate_frame cfg c self w r w' :
  predicate cfg c self w = (r, w') →
  fs w' = fs w ∧ cwd w' = cwd w ∧ fs_calls w' = fs_calls w.
Proof.
  intros H.
  assert (frame [F_cache readable_dir; F_cache readable_file; F_cache writable_dir;
                 F_cache writable_file; F_class_dict; F_resolutions] w w') as Hf.
  { eapply modifies_run; [|exact H].
    apply modifies_predicate; [intros []| |]; by repeat constructor. }
  split; [|split].
  - apply (Hf F_fs). compute_done.
  - apply (Hf F_cwd). compute_done.
  - apply (Hf F_fs_calls). compute_done.
Qed.

Lemma guarded_run cfg c what call self w :
  let body :=
    (d <- predicate cfg c self ;;
     let '(is_allowed, reason) := d in
     if negb is_allowed then
       raise (PathSecurityError (message what self reason))
     else
       b <- access_resolved_and_not_resolved self ;;
       if (b : bool) then r <- resolve cfg self ;; super_call (call (path_of r))
       else super_call (call (path_of self))) in
  ∀ r w', body (after (_CdTeXCwd_enter cfg) w) = (r, w') →
          result (guarded cfg (predicate cfg c) what call self) w = r
          ∧ fs_calls (after (guarded cfg (predicate cfg c) what call self) w)
            = fs_calls w'
          ∧ resolutions (after (guarded cfg (predicate cfg c) what call self) w)
            = resolutions w'.
Proof.
  intros body r w' E. unfold guarded. fold body.
  assert (modifies fp_gate body) as Hm.
  { subst body. gate_unfold.
    repeat first [ fp_gate_step
                 | apply modifies_predicate; [intros []| |]; fp_mem ]. }
  pose proof (with_cd_footprint cfg fp_gate body w Hm) as Hrun.
  unfold result, after in *.
  rewrite Hrun; [|compute_done|compute_done].
  cbn [fst snd]. by rewrite E.
Qed.

Lemma access_flag cls :
  predicates_from cls ≠ BaseRestrictedPath →
  _access_file_system_with_resolved_paths cls = ret (is_resolved_cls cls).
Proof. destruct cls; vm_compute; done. Qed.

Lemma guarded_gates cfg c what call self w :
  gates_one_path cfg (guarded cfg (predicate cfg c) what call self)
    (predicate cfg c) what self w.
Proof.
  unfold gates_one_path. cbv zeta.
  pose proof (guarded_run cfg c what call self w) as Hb. cbv zeta in Hb.
  assert (fs_calls (after (_CdTeXCwd_enter cfg) w) = fs_calls w) as Hw1
    by (by apply (enter_same cfg F_fs_calls)).
  set (w1 := after (_CdTeXCwd_enter cfg) w) in *. clearbody w1.
  split.
  - intros reason w2 H.
    destruct (Hb (inl (PathSecurityError (message what self reason))) w2)
      as (-> & -> & _).
    { unfold bind. by rewrite H. }
    split; [done|]. destruct (predicate_frame _ _ _ _ _ _ H) as (_ & _ & ->). done.
  - intros Hne.
    destruct (predicate cfg c self w1) as [[e|[[] r0]] w2] eqn:E1.
    + destruct (Hb (inl e) w2) as (_ & Hc & _).
      { unfold bind. by rewrite E1. }
      destruct (predicate_frame _ _ _ _ _ _ E1) as (_ & _ & Hf).
      rewrite Hc, Hf in Hne. done.
    + by exists r0, w2.
    + destruct (Hb (inl (PathSecurityError (message what self r0))) w2) as (_ & Hc & _).
      { unfold bind. by rewrite E1. }
      destruct (predicate_frame _ _ _ _ _ _ E1) as (_ & _ & Hf).
      rewrite Hc, Hf in Hne. done.
Qed.

Lemma guarded_allowed cfg c what call self w r0 w2 :
  predicate cfg c self (after (_CdTeXCwd_enter cfg) w) = (inr (true, r0), w2) →
  let op := guarded cfg (predicate cfg c) what call self in
  let used := path_used cfg w (cls_of self) (path_of self) in
  result op w
  = match used with inl e => inl e | inr q => outcome w (call q) end
  ∧ fs_calls (after op w)
    = (fs_calls w ++ match used with inl _ => [] | inr q => [call q] end)%list
  ∧ resolutions (after op w)
    = (resolutions w2
       ++ if resolves_first cfg w (cls_of self) (path_of self)
          then [path_of self] else [])%list.
Proof.
  intros H. cbv zeta.
  pose proof (guarded_run cfg c what call self w) as Hb. cbv zeta in Hb.
  assert (predicates_from (cls_of self) ≠ BaseRestrictedPath) as Hnb.
  { eapply (predicate_not_base cfg c self). unfold result. by rewrite H. }
  destruct (predicate_frame _ _ _ _ _ _ H) as (Hfs & Hcwd & Hcalls).
  rewrite enter_fs in Hfs. rewrite enter_cwd in Hcwd.
  rewrite (enter_same cfg F_fs_calls) in Hcalls by done.
  unfold bind in Hb. rewrite H in Hb. cbn [negb] in Hb.
  unfold access_resolved_and_not_resolved, bind in Hb.
  rewrite (access_flag _ Hnb) in Hb. unfold ret at 1 in Hb.
  unfold path_used, resolves_first, outcome.
  destruct (is_resolved_cls (cls_of self)); cbn [andb].
  - unfold is_resolved, ret in Hb. rewrite Hfs, Hcwd in Hb.
    destruct (fs_is_resolved _ _ _); cbn [negb] in *.
    + edestruct Hb as (-> & -> & ->); [reflexivity|].
      simpl. by rewrite Hfs, Hcalls, app_nil_r.
    + rewrite resolve_eq, Hfs in Hb.
      destruct (fs_resolve _ _ _) as [e|q].
      * edestruct Hb as (-> & -> & ->); [reflexivity|].
        simpl. by rewrite Hcalls, app_nil_r.
      * edestruct Hb as (-> & -> & ->); [reflexivity|].
        simpl. by rewrite Hfs, Hcalls.
  - edestruct Hb as (-> & -> & ->); [reflexivity|].
    simpl. by rewrite Hfs, Hcalls, app_nil_r.
Qed.

(** ** The methods on two paths *)

Lemma rename_guarded cfg :
  rename cfg = guarded_both cfg "Cannot rename file" "Cannot create renamed file" fs_rename.
Proof. done. Qed.

Lemma replace_guarded cfg :
  replace cfg
  = guarded_both cfg "Cannot replace file" "Cannot create replacement file" fs_replace.
Proof. done. Qed.

Lemma guarded_both_run cfg what what_target call self target w :
  let body :=
    (d <- tex_writable_file cfg self ;;
     let '(is_writable, reason) := d in
     if negb is_writable then
       raise (PathSecurityError (message what self reason))
     else
       dt <- tex_writable_file cfg target ;;
       let '(target_is_writable, target_reason) := dt in
       if negb target_is_writable then
         raise (PathSecurityError (message what_target target target_reason))
       else
         b <- access_resolved_and_not_both_resolved self target ;;
         if (b : bool) then
           r <- resolve cfg self ;;
           rt <- resolve cfg target ;;
           super_call (call (path_of r) (path_of rt))
         else super_call (call (path_of self) (path_of target))) in
  let op := guarded_both cfg what what_target call self target in
  ∀ r w', body (after (_CdTeXCwd_enter cfg) w) = (r, w') →
          result op w = r
          ∧ fs_calls (after op w) = fs_calls w'
          ∧ resolutions (after op w) = resolutions w'.
Proof.
  intros body op r w' E. subst op. unfold guarded_both. fold body.
  assert (modifies fp_gate body) as Hm.
  { subst body. gate_unfold. repeat fp_gate_step. }
  pose proof (with_cd_footprint cfg fp_gate body w Hm) as Hrun.
  unfold result, after in *.
  rewrite Hrun; [|compute_done|compute_done].
  cbn [fst snd]. by rewrite E.
Qed.

Lemma guarded_both_allowed cfg what what_target call self target w r0 r1 :
  let w1 := after (_CdTeXCwd_enter cfg) w in
  let w2 := after (tex_writable_file cfg self) w1 in
  let w3 := after (tex_writable_file cfg target) w2 in
  result (tex_writable_file cfg self) w1 = inr (true, r0) →
  result (tex_writable_file cfg target) w2 = inr (true, r1) →
  let op := guarded_both cfg what what_target call self target in
  let used := paths_used cfg w (cls_of self) (path_of self) (path_of target) in
  result op w
  = match used with inl e => inl e | inr (q, qt) => outcome w (call q qt) end
  ∧ fs_calls (after op w)
    = (fs_calls w ++ match used with inl _ => [] | inr (q, qt) => [call q qt] end)%list
  ∧ resolutions (after op w)
    = (resolutions w3
       ++ paths_resolved cfg w (cls_of self) (path_of self) (path_of target))%list.
Proof.
  intros w1 w2 w3 H1 H2. cbv zeta.
  pose proof (guarded_both_run cfg what what_target call self target w) as Hb.
  cbv zeta in Hb. fold w1 in Hb.
  set (op := guarded_both cfg what what_target call self target) in *. clearbody op.
  assert (predicates_from (cls_of self) ≠ BaseRestrictedPath) as Hnb.
  { by eapply (predicate_not_base cfg writable_file self). }
  assert (tex_writable_file cfg self w1 = (inr (true, r0), w2)) as E1.
  { subst w2. unfold result, after in *. destruct (tex_writable_file cfg self w1).
    simpl in *. by subst. }
  assert (tex_writable_file cfg target w2 = (inr (true, r1), w3)) as E2.
  { subst w3. unfold result, after in *. destruct (tex_writable_file cfg target w2).
    simpl in *. by subst. }
  destruct (predicate_frame cfg writable_file _ _ _ _ E1) as (Hfs1 & Hcwd1 & Hcalls1).
  destruct (predicate_frame cfg writable_file _ _ _ _ E2) as (Hfs2 & Hcwd2 & Hcalls2).
  assert (fs w3 = fs w) as Hfs.
  { rewrite Hfs2, Hfs1. apply enter_fs. }
  assert (cwd w3 = latex_config.tex_cwd cfg) as Hcwd.
  { rewrite Hcwd2, Hcwd1. apply enter_cwd. }
  assert (fs_calls w3 = fs_calls w) as Hcalls.
  { rewrite Hcalls2, Hcalls1. by apply (enter_same cfg F_fs_calls). }
  clearbody w1 w2 w3. clear H1 H2 Hfs1 Hfs2 Hcwd1 Hcwd2 Hcalls1 Hcalls2.
  unfold bind in Hb. rewrite E1 in Hb. cbn [negb] in Hb.
  rewrite E2 in Hb. cbn [negb] in Hb.
  unfold access_resolved_and_not_both_resolved, bind in Hb.
  rewrite (access_flag _ Hnb) in Hb. unfold ret at 1 in Hb.
  unfold paths_used, paths_resolved, resolves_both, outcome.
  destruct (is_resolved_cls (cls_of self)); cbn [andb].
  - unfold is_resolved, ret in Hb. rewrite Hfs, Hcwd in Hb.
    destruct (fs_is_resolved _ _ (path_of self)); cbn [negb andb] in *.
    + rewrite ?Hfs, ?Hcwd in Hb.
      destruct (fs_is_resolved _ _ (path_of target)); cbn [negb andb] in *.
      * edestruct Hb as (-> & -> & ->); [reflexivity|].
        simpl. by rewrite Hfs, Hcalls, app_nil_r.
      * rewrite resolve_eq, Hfs in Hb.
        destruct (fs_resolve _ _ (path_of self)) as [e|q].
        -- edestruct Hb as (-> & -> & ->); [reflexivity|].
           simpl. by rewrite Hcalls, app_nil_r.
        -- rewrite resolve_eq in Hb. simpl in Hb. rewrite Hfs in Hb.
           destruct (fs_resolve _ _ (path_of target)) as [e|qt].
           ++ edestruct Hb as (-> & -> & ->); [reflexivity|].
              simpl. by rewrite Hcalls, app_nil_r, <- app_assoc.
           ++ edestruct Hb as (-> & -> & ->); [reflexivity|].
              simpl. by rewrite Hfs, Hcalls, <- app_assoc.
    + rewrite resolve_eq, Hfs in Hb.
      destruct (fs_resolve _ _ (path_of self)) as [e|q].
      * edestruct Hb as (-> & -> & ->); [reflexivity|].
        simpl. by rewrite Hcalls, app_nil_r.
      * rewrite resolve_eq in Hb. simpl in Hb. rewrite Hfs in Hb.
        destruct (fs_resolve _ _ (path_of target)) as [e|qt].
        -- edestruct Hb as (-> & -> & ->); [reflexivity|].
           simpl. by rewrite Hcalls, app_nil_r, <- app_assoc.
        -- edestruct Hb as (-> & -> & ->); [reflexivity|].
           simpl. by rewrite Hfs, Hcalls, <- app_assoc.
  - edestruct Hb as (-> & -> & ->); [reflexivity|].
    simpl. by rewrite Hfs, Hcalls, app_nil_r.
Qed.

(** X2. [mkdir], [read_bytes], [read_text], [rmdir], [touch], [unlink],
    [write_bytes] and [write_text] each ask one predicate about the path:
    when the predicate refuses, the method raises [PathSecurityError] with
    its own words, the path and the reason, and no call has gone to the
    file system; a call reaches the file system only after the predicate
    has allowed the path. *)
Theorem X2_single_path_operations_gated cfg o self w :
  gates_one_path cfg (run_op cfg o self) (predicate cfg (op_predicate o))
    (op_what o) self w.
Proof. rewrite run_op_guarded. apply guarded_gates. Qed.

Lemma answer_eq cfg self w :
  answer cfg self w = fs_resolve (fs w) (latex_config.tex_cwd cfg) (path_of self).
Proof.
  unfold answer, result. rewrite resolve_eq. cbn [fst].
  by destruct (fs_resolve _ _ _).
Qed.

Lemma path_handed_eq cfg self w :
  path_handed cfg self w = path_used cfg w (cls_of self) (path_of self).
Proof. unfold path_handed, path_used. by rewrite answer_eq. Qed.

Lemma paths_handed_eq cfg self target w :
  paths_handed cfg self target w
  = paths_used cfg w (cls_of self) (path_of self) (path_of target).
Proof. unfold paths_handed, paths_used. by rewrite !answer_eq. Qed.

(** X3. When the predicate allows the path, each of [rmdir], [touch] and
    [unlink] hands exactly one call down to the underlying
    class and returns what that call answers.  On the lexical classes, and
    for a path that counts as resolved, the call is on the path as given;
    on the resolving classes, for a path that does not count as resolved,
    the call is on what [resolve] answers for the path, and when [resolve]
    raises, its error is raised and no call is made. *)
Theorem X3_allowed_operation_hands_down cfg o self w r0 :
  acts_directly o = true →
  result (predicate cfg (op_predicate o) self) (after (_CdTeXCwd_enter cfg) w)
  = inr (true, r0) →
  result (run_op cfg o self) w
  = match path_handed cfg self w with
    | inl e => inl e
    | inr q => outcome w (op_call o q)
    end
  ∧ fs_calls (after (run_op cfg o self) w)
    = (fs_calls w
       ++ match path_handed cfg self w with
          | inl _ => []
          | inr q => [op_call o q]
          end)%list.
Proof.
  intros _ H. rewrite run_op_guarded, path_handed_eq.
  destruct (guarded_allowed cfg (op_predicate o) (op_what o) (op_call o) self w r0
              (after (predicate cfg (op_predicate o) self)
                 (after (_CdTeXCwd_enter cfg) w)))
    as (Hr & Hc & _).
  { rewrite run_eq. by rewrite H. }
  done.
Qed.

Lemma X3_witness :
  acts_directly op_rmdir = true
  ∧ result (predicate Sample.restrictive writable_dir (Sample.res "out"))
      (after (_CdTeXCwd_enter Sample.restrictive) Sample.w0)
    = inr (true, None)
  ∧ fs_calls (after (rmdir Sample.restrictive (Sample.res "out")) Sample.w0)
    = [fs_rmdir (mkPath true ["work"; "out"])].
Proof.
  split; [reflexivity|]. split; [vm_compute; reflexivity|].
  refine (proj2 (X3_allowed_operation_hands_down Sample.restrictive
                   op_rmdir (Sample.res "out") Sample.w0 None eq_refl _)).
  vm_compute. reflexivity.
Defined.



(** X5. When the predicate on written files has allowed both paths,
    [rename] and [replace] hand exactly one call down to the underlying
    class and return what that call answers.  On the lexical classes, and
    when both paths count as resolved, the call is on the two paths as
    given; on the resolving classes, as soon as one of the two does not
    count as resolved, the call is on what [resolve] answers for the path
    and for the target, and when [resolve] raises for one of them, its
    error is raised and no call is made. *)
Theorem X5_rename_replace_hand_down cfg self target w r0 r1 :
  let w1 := after (_CdTeXCwd_enter cfg) w in
  let w2 := after (tex_writable_file cfg self) w1 in
  result (tex_writable_file cfg self) w1 = inr (true, r0) →
  result (tex_writable_file cfg target) w2 = inr (true, r1) →
  let handed := paths_handed cfg self target w in
  (result (rename cfg self target) w
   = match handed with inl e => inl e | inr (q, qt) => outcome w (fs_rename q qt) end
   ∧ fs_calls (after (rename cfg self target) w)
     = (fs_calls w
        ++ match handed with inl _ => [] | inr (q, qt) => [fs_rename q qt] end)%list)
  ∧ (result (replace cfg self target) w
     = match handed with inl e => inl e | inr (q, qt) => outcome w (fs_replace q qt) end
     ∧ fs_calls (after (replace cfg self target) w)
       = (fs_calls w
          ++ match handed with inl _ => [] | inr (q, qt) => [fs_replace q qt] end)%list).
Proof.
  intros w1 w2 H1 H2. cbv zeta.
  rewrite rename_guarded, replace_guarded, paths_handed_eq.
  split.
  - destruct (guarded_both_allowed cfg "Cannot rename file"
                "Cannot create renamed file" fs_rename self target w r0 r1 H1 H2)
      as (Hr & Hc & _).
    done.
  - destruct (guarded_both_allowed cfg "Cannot replace file"
                "Cannot create replacement file" fs_replace self target w r0 r1 H1 H2)
      as (Hr & Hc & _).
    done.
Qed.

Lemma X5_witness :
  result (tex_writable_file Sample.restrictive (Sample.res "/work/a.txt"))
    (after (_CdTeXCwd_enter Sample.restrictive) Sample.w0)
  = inr (true, None)
  ∧ result (tex_writable_file Sample.restrictive (Sample.res "b.txt"))
      (after (tex_writable_file Sample.restrictive (Sample.res "/work/a.txt"))
         (after (_CdTeXCwd_enter Sample.restrictive) Sample.w0))
    = inr (true, None)
  ∧ fs_calls (after (rename Sample.restrictive (Sample.res "/work/a.txt")
                       (Sample.res "b.txt")) Sample.w0)
    = [fs_rename (mkPath true ["work"; "a.txt"]) (mkPath true ["work"; "b.txt"])].
Proof.
  split; [vm_compute; reflexivity|]. split; [vm_compute; reflexivity|].
  refine (proj2 (proj1 (X5_rename_replace_hand_down Sample.restrictive
                          (Sample.res "/work/a.txt") (Sample.res "b.txt")
                          Sample.w0 None None _ _))).
  - vm_compute. reflexivity.
  - vm_compute. reflexivity.
Defined.


(** ** Resolution *)



(** ** The lexical classes *)

Lemma string_not_resolved cls : is_string_cls cls = true → is_resolved_cls cls = false.
Proof. destruct cls; by vm_compute. Qed.

Lemma modifies_string_dir cfg S self :
  predicates_from (cls_of self) = StringRestrictedPath →
  (∀ c, F_cache c ∈ S) → F_class_dict ∈ S →
  modifies S (tex_readable_dir cfg self) ∧ modifies S (tex_writable_dir cfg self).
Proof.
  intros Hs Hc Hd. pose proof (Hc readable_dir). pose proof (Hc writable_dir).
  unfold tex_readable_dir, tex_writable_dir. rewrite Hs.
  unfold StringRestrictedPath_tex_readable_dir, StringRestrictedPath_tex_writable_dir.
  split; repeat first [ fp_step | apply modifies_tex_texmfoutput_roots; fp_mem ].
Qed.

Lemma modifies_string_predicate cfg S c self :
  is_string_cls (cls_of self) = true →
  (∀ c', F_cache c' ∈ S) → F_class_dict ∈ S →
  modifies S (predicate cfg c self).
Proof.
  intros Hs Hc Hd. apply is_string_predicates in Hs.
  destruct (modifies_string_dir cfg S self Hs Hc Hd) as [Hr Hw].
  destruct (modifies_string_dir cfg S (RPath_parent self) Hs Hc Hd) as [Hpr Hpw].
  pose proof (Hc readable_file). pose proof (Hc writable_file).
  destruct c; simpl; [done| |done|].
  - unfold tex_readable_file. rewrite Hs.
    unfold StringRestrictedPath_tex_readable_file.
    repeat first [ exact Hpr | fp_step ].
  - unfold tex_writable_file. rewrite Hs.
    unfold StringRestrictedPath_tex_writable_file.
    repeat first [ exact Hpw | fp_step ].
Qed.

Lemma string_predicate_resolutions cfg c self w r w' :
  is_string_cls (cls_of self) = true →
  predicate cfg c self w = (r, w') → resolutions w' = resolutions w.
Proof.
  intros Hs H.
  eapply (modifies_run [F_cache readable_dir; F_cache readable_file;
                        F_cache writable_dir; F_cache writable_file; F_class_dict])
    in H; [|apply modifies_string_predicate; [done|intros []|]; by repeat constructor].
  apply (H F_resolutions). compute_done.
Qed.

Lemma guarded_lexical cfg c what call self w :
  is_string_cls (cls_of self) = true →
  resolutions (after (guarded cfg (predicate cfg c) what call self) w) = resolutions w.
Proof.
  intros Hs.
  assert (resolutions (after (_CdTeXCwd_enter cfg) w) = resolutions w) as Hw1
    by (by apply (enter_same cfg F_resolutions)).
  destruct (predicate cfg c self (after (_CdTeXCwd_enter cfg) w))
    as [[e|[[] r0]] w2] eqn:E;
    pose proof (string_predicate_resolutions _ _ _ _ _ _ Hs E) as Hr.
  - destruct (guarded_run cfg c what call self w (inl e) w2) as (_ & _ & ->).
    { unfold bind. by rewrite E. }
    by rewrite Hr.
  - destruct (guarded_allowed cfg c what call self w r0 w2 E) as (_ & _ & ->).
    unfold resolves_first. rewrite (string_not_resolved _ Hs). simpl.
    by rewrite app_nil_r, Hr.
  - destruct (guarded_run cfg c what call self w
                (inl (PathSecurityError (message what self r0))) w2) as (_ & _ & ->).
    { unfold bind. by rewrite E. }
    by rewrite Hr.
Qed.

Lemma guarded_both_lexical cfg what what_target call self target w :
  is_string_cls (cls_of self) = true → is_string_cls (cls_of target) = true →
  resolutions (after (guarded_both cfg what what_target call self target) w)
  = resolutions w.
Proof.
  intros Hs Ht.
  assert (resolutions (after (_CdTeXCwd_enter cfg) w) = resolutions w) as Hw1
    by (by apply (enter_same cfg F_resolutions)).
  pose proof (guarded_both_run cfg what what_target call self target w) as Hb.
  cbv zeta in Hb. unfold bind in Hb.
  destruct (tex_writable_file cfg self (after (_CdTeXCwd_enter cfg) w))
    as [[e|[[] r0]] w2] eqn:E1;
    pose proof (string_predicate_resolutions cfg writable_file _ _ _ _ Hs E1) as Hr1;
    cbn [negb] in Hb.
  - destruct (Hb (inl e) w2) as (_ & _ & ->); [done|]. by rewrite Hr1.
  - destruct (tex_writable_file cfg target w2) as [[e|[[] r1]] w3] eqn:E2;
      pose proof (string_predicate_resolutions cfg writable_file _ _ _ _ Ht E2) as Hr2;
      cbn [negb] in Hb.
    + destruct (Hb (inl e) w3) as (_ & _ & ->); [done|]. by rewrite Hr2, Hr1.
    + destruct (result_after _ _ _ _ E1) as [H1 Hw2].
      destruct (result_after _ _ _ _ E2) as [H2 Hw3].
      rewrite <- Hw2 in H2.
      destruct (guarded_both_allowed cfg what what_target call self target w r0 r1
                  H1 H2) as (_ & _ & ->).
      unfold paths_resolved, resolves_both. rewrite (string_not_resolved _ Hs).
      simpl. by rewrite Hw2, Hw3, app_nil_r, Hr2, Hr1.
    + destruct (Hb (inl (PathSecurityError (message what_target target r1))) w3)
        as (_ & _ & ->); [done|]. by rewrite Hr2, Hr1.
  - destruct (Hb (inl (PathSecurityError (message what self r0))) w2)
      as (_ & _ & ->); [done|]. by rewrite Hr1.
Qed.

(** X7. On the lexical classes, in every world that the program reaches,
    [tex_readable_file] refuses a dotfile when the policy does not permit
    reading dotfiles and otherwise returns the lexical decision on the
    parent directory; [tex_writable_file], for a name of ASCII characters,
    refuses, for the first configured extension with which the lower-cased
    name ends, with the reason of that extension, then refuses a dotfile
    when the policy does not permit writing dotfiles, and otherwise returns
    the lexical decision on the parent directory. *)
Theorem X7_lexical_file_decision cfg w cls p :
  reachable cfg w → is_string_cls cls = true →
  result (tex_readable_file cfg (mkRPath cls p)) w
  = inr (if negb (_tex_can_read_dotfiles cfg cls)
            && PyStr.startswith (PurePath.name p) "."
         then (false, Some reason_dotfiles)
         else spec_dir cfg (_tex_can_read_anywhere cfg cls) (PurePath.parent p))
  ∧ (PyStr.is_ascii (PurePath.name p) = true →
     result (tex_writable_file cfg (mkRPath cls p)) w
     = inr (match List.find (PyStr.endswith (PyStr.lower (PurePath.name p)))
                    (latex_config.prohibited_write_file_extensions cfg) with
            | Some ext => (false, Some (reason_extension ext))
            | None =>
                if negb (_tex_can_write_dotfiles cfg cls)
                   && PyStr.startswith (PurePath.name p) "."
                then (false, Some reason_dotfiles)
                else spec_dir cfg (_tex_can_write_anywhere cfg cls)
                       (PurePath.parent p)
            end)).
Proof.
  intros Hw%reachable_ok Hs. split.
  - destruct (predicate_ok cfg readable_file (mkRPath cls p) w _ _ (run_eq _ _) Hw)
      as [_ H].
    by apply H.
  - intros _.
    destruct (predicate_ok cfg writable_file (mkRPath cls p) w _ _ (run_eq _ _) Hw)
      as [_ H].
    by apply H.
Qed.

Lemma X7_witness :
  reachable Sample.restrictive Sample.w0
  ∧ is_string_cls StringRestrictedPath = true
  ∧ PyStr.is_ascii (PurePath.name (PurePath.of_string "/fallback/Run.BAT")) = true
  ∧ result (tex_writable_file Sample.restrictive (Sample.str "/fallback/Run.BAT"))
      Sample.w0
    = inr (false, Some (reason_extension ".bat")).
Proof.
  split; [apply reach_init|]. split; [reflexivity|]. split; [reflexivity|].
  exact (proj2 (X7_lexical_file_decision Sample.restrictive Sample.w0
                  StringRestrictedPath (PurePath.of_string "/fallback/Run.BAT")
                  (reach_init _ _ _) eq_refl) eq_refl).
Defined.

(** X8. The lexical classes never ask the file system to resolve a path:
    a predicate or an operation on paths of the lexical classes leaves the
    log of resolutions as it is, whatever it decides. *)
Theorem X8_lexical_classes_never_resolve cfg a w :
  on_lexical_paths a = true → resolutions (run cfg a w) = resolutions w.
Proof.
  intros Ha. destruct a; try done; cbn [run on_lexical_paths] in *.
  - eapply string_predicate_resolutions; [done|apply run_eq].
  - by apply (guarded_lexical cfg writable_dir "Cannot create directory" fs_mkdir).
  - unfold after. rewrite open_guarded.
    destruct (PyStr.char_in "r" mode); [|destruct (existsb _ _)].
    + by apply (guarded_lexical cfg readable_file).
    + by apply (guarded_lexical cfg writable_file).
    + rewrite (with_cd_footprint cfg []);
        [|apply modifies_raise|set_solver|set_solver].
      cbn. by apply (enter_same cfg F_resolutions).
  - by apply (guarded_lexical cfg readable_file "Cannot read file" fs_read_bytes).
  - by apply (guarded_lexical cfg readable_file "Cannot read file" fs_read_text).
  - apply andb_true_iff in Ha as [Hs Ht]. rewrite rename_guarded.
    by apply guarded_both_lexical.
  - apply andb_true_iff in Ha as [Hs Ht]. rewrite replace_guarded.
    by apply guarded_both_lexical.
  - by apply (guarded_lexical cfg writable_dir "Cannot delete directory" fs_rmdir).
  - by apply (guarded_lexical cfg writable_file "Cannot create file" fs_touch).
  - by apply (guarded_lexical cfg writable_file "Cannot delete file" fs_unlink).
  - by apply (guarded_lexical cfg writable_file "Cannot write file" fs_write_bytes).
  - by apply (guarded_lexical cfg writable_file "Cannot write file" fs_write_text).
Qed.

Lemma X8_witness :
  on_lexical_paths (call_write_text (Sample.str "docs/link.tex")) = true
  ∧ resolutions (run Sample.restrictive (call_write_text (Sample.str "docs/link.tex"))
                   Sample.w0)
    = [].
Proof.
  split; [reflexivity|].
  exact (X8_lexical_classes_never_resolve Sample.restrictive
           (call_write_text (Sample.str "docs/link.tex")) Sample.w0 eq_refl).
Defined.


(** ** The class methods *)

(** X9. In every world that the program reaches and on every class,
    [tex_cwd], [TEXMFOUTPUT] and [TEXMF_OUTPUT_DIRECTORY] return the paths
    of the configuration ([None] for a directory that is not configured),
    [tex_paranoid_roots] returns the set of the working directory and of
    the configured output and fallback directories, and
    [tex_texmfoutput_roots] the set of the configured output and fallback
    directories. *)
Theorem X9_class_methods_return_configuration cfg w cls :
  reachable cfg w →
  result (tex_cwd cfg cls) w = inr (PurePath.of_string (latex_config.tex_cwd cfg))
  ∧ result (TEXMFOUTPUT cfg cls) w
    = inr (PurePath.of_string <$> latex_config.TEXMFOUTPUT cfg)
  ∧ result (TEXMF_OUTPUT_DIRECTORY cfg cls) w
    = inr (PurePath.of_string <$> latex_config.TEXMF_OUTPUT_DIRECTORY cfg)
  ∧ result (tex_paranoid_roots cfg cls) w
    = inr ({[PurePath.of_string (latex_config.tex_cwd cfg)]}
           ∪ match latex_config.TEXMF_OUTPUT_DIRECTORY cfg with
             | Some d => {[PurePath.of_string d]}
             | None => ∅
             end
           ∪ match latex_config.TEXMFOUTPUT cfg with
             | Some t => {[PurePath.of_string t]}
             | None => ∅
             end)
  ∧ result (tex_texmfoutput_roots cfg cls) w
    = inr (match latex_config.TEXMF_OUTPUT_DIRECTORY cfg with
           | Some d => {[PurePath.of_string d]}
           | None => ∅
           end
           ∪ match latex_config.TEXMFOUTPUT cfg with
             | Some t => {[PurePath.of_string t]}
             | None => ∅
             end).
Proof.
  intros [Ha _]%reachable_ok.
  pose proof Ha as (H1 & H2 & H3 & _).
  destruct (tex_cwd_run cfg cls w H1) as (w1 & E1 & _).
  destruct (TEXMFOUTPUT_run cfg cls w H2) as (w2 & E2 & _).
  destruct (TEXMF_OUTPUT_DIRECTORY_run cfg cls w H3) as (w3 & E3 & _).
  destruct (tex_paranoid_roots_ok cfg cls w Ha) as (w4 & E4 & _).
  destruct (tex_texmfoutput_roots_ok cfg cls w Ha) as (w5 & E5 & _).
  unfold result. rewrite E1, E2, E3, E4, E5. simpl.
  unfold paranoid_roots, absolute_access_roots, output_directory,
    output_fallback_directory, cwd_path.
  repeat split; by destruct (latex_config.TEXMF_OUTPUT_DIRECTORY cfg),
                     (latex_config.TEXMFOUTPUT cfg).
Qed.

Lemma X9_witness :
  reachable Sample.restrictive
    (run Sample.restrictive (call_tex_openout_roots StringRestrictedPath) Sample.w0)
  ∧ result (TEXMFOUTPUT Sample.restrictive SafeResolvedRestrictedPath)
      (run Sample.restrictive (call_tex_openout_roots StringRestrictedPath) Sample.w0)
    = inr (Some (mkPath true ["fallback"])).
Proof.
  split; [apply reach_step, reach_init|].
  exact (proj1 (proj2 (X9_class_methods_return_configuration Sample.restrictive _
                         SafeResolvedRestrictedPath
                         (reach_step _ _ _ (reach_init _ Sample.the_fs "/home"))))).
Defined.


(** *** Properties of the class attributes that every call keeps *)

Lemma preserves_try {A} I (m h : M A) catches :
  preserves I m → preserves I h → preserves I (try_except m catches h).
Proof.
  intros Hm Hh w r w' H HI.
  apply try_inv in H as [(a & H & _)|[(e & H & _)|(e & w1 & H & _ & H')]].
  - by eapply Hm.
  - by eapply Hm.
  - eapply Hh; [done|]. by eapply Hm.
Qed.

Lemma preserves_mapM {A B} I (f : A → M B) l :
  (∀ x, preserves I (f x)) → preserves I (mapM f l).
Proof.
  intros Hf. induction l as [|x l IH]; simpl.
  - apply preserves_ret.
  - apply preserves_bind; [apply Hf|]. intros y.
    apply preserves_bind; [apply IH|]. intros ys. apply preserves_ret.
Qed.

Lemma attributes_only_insensitive I : attributes_only I → insensitive I.
Proof. intros HI w w' _ Hd. by apply HI. Qed.

Lemma preserves_unchanged_dict {A} I S (m : M A) :
  attributes_only I → modifies S m → F_class_dict ∉ S → preserves I m.
Proof.
  intros HI Hm Hd w r w' H Hw.
  apply (modifies_run S) in H; [|done].
  eapply HI; [|exact Hw]. by apply (H F_class_dict).
Qed.

Lemma preserves_getattr {A} I (a : Attr A) cls : preserves I (getattr a cls).
Proof. intros w r w' H Hw. apply getattr_inv in H as ->. done. Qed.

Lemma preserves_getitem I c key : attributes_only I → preserves I (getitem c key).
Proof.
  intros HI. apply (preserves_unchanged_dict I []); [done| |set_solver].
  apply modifies_getitem.
Qed.

Lemma preserves_setitem I c key d : attributes_only I → preserves I (setitem c key d).
Proof.
  intros HI. apply (preserves_unchanged_dict I [F_cache c]); [done| |set_solver].
  apply modifies_setitem. by repeat constructor.
Qed.

Section ResolvedRoots.
Variable cfg : latex_config.t.
Variable cls : Cls.
Variable v : option (gset Path).

Lemma seen_attributes_only : attributes_only (seen cls v).
Proof. intros w w' Hd. unfold seen, resolved_roots_seen. by rewrite Hd. Qed.

Lemma seen_setattr {A} (a : Attr A) c x :
  indep a a_tex_paranoid_roots_resolved → preserves (seen cls v) (setattr a c x).
Proof.
  intros Hi w r w' H Hw. apply setattr_inv in H as [_ ->].
  unfold seen, resolved_roots_seen in *. simpl. by rewrite find_attr_upd_other.
Qed.

Ltac seen_step :=
  first
    [ apply preserves_ret | apply preserves_raise
    | apply preserves_getattr
    | apply seen_setattr; attr_law
    | apply preserves_getitem; exact seen_attributes_only
    | apply preserves_setitem; exact seen_attributes_only
    | apply preserves_resolve; apply attributes_only_insensitive, seen_attributes_only
    | apply preserves_bind | apply preserves_try | apply preserves_mapM
    | match goal with
      | |- preserves _ (match ?x with _ => _ end) => destruct x
      | |- preserves _ (let '(_, _) := ?x in _) => destruct x
      | |- ∀ _, _ => intro
      end ].

Lemma seen_tex_cwd c : preserves (seen cls v) (tex_cwd cfg c).
Proof. unfold tex_cwd. repeat seen_step. Qed.

Lemma seen_TEXMFOUTPUT c : preserves (seen cls v) (TEXMFOUTPUT cfg c).
Proof. unfold TEXMFOUTPUT. repeat seen_step. Qed.

Lemma seen_TEXMF_OUTPUT_DIRECTORY c : preserves (seen cls v) (TEXMF_OUTPUT_DIRECTORY cfg c).
Proof. unfold TEXMF_OUTPUT_DIRECTORY. repeat seen_step. Qed.

Ltac seen_cls :=
  first
    [ apply seen_tex_cwd | apply seen_TEXMFOUTPUT | apply seen_TEXMF_OUTPUT_DIRECTORY
    | seen_step ].

Lemma seen_tex_openout_roots c : preserves (seen cls v) (tex_openout_roots cfg c).
Proof. unfold tex_openout_roots, attr_append. repeat seen_cls. Qed.

Lemma seen_tex_paranoid_roots c : preserves (seen cls v) (tex_paranoid_roots cfg c).
Proof. unfold tex_paranoid_roots, attr_add. repeat seen_cls. Qed.

Lemma seen_tex_texmfoutput_roots c : preserves (seen cls v) (tex_texmfoutput_roots cfg c).
Proof. unfold tex_texmfoutput_roots, attr_add. repeat seen_cls. Qed.

End ResolvedRoots.

(** A class sets the attribute only when it does not see it, and then
    the classes that saw it before still see what they saw. *)
Lemma find_attr_set_unset {A} (a : Attr A) cls c v x d :
  get_set a →
  find_attr a d (mro cls) = Some v → find_attr a d (mro c) = None →
  find_attr a (upd_dict a c x d) (mro cls) = Some v.
Proof.
  intros Hgs Hv Hn.
  destruct cls, c; simpl in *; unfold upd_dict; simpl;
    repeat match goal with
           | H : context [match attr_get a (d ?k) with _ => _ end] |- _ =>
               destruct (attr_get a (d k)) eqn:?
           end;
    simplify_eq; repeat (case_decide; simplify_eq); rewrite ?Hgs;
    repeat match goal with
           | H : attr_get a (d ?k) = _ |- _ => rewrite H
           end;
    done.
Qed.

Lemma getattr_value {A} (a : Attr A) cls w x w' :
  getattr a cls w = (inr x, w') →
  w' = w ∧ find_attr a (class_dict w) (mro cls) = Some x.
Proof. unfold getattr. destruct (find_attr _ _ _); intros [= <- <-]; done. Qed.

Lemma getattr_unset {A} (a : Attr A) cls w e w' :
  getattr a cls w = (inl e, w') →
  w' = w ∧ find_attr a (class_dict w) (mro cls) = None.
Proof. unfold getattr. destruct (find_attr _ _ _); intros [= <- <-]; done. Qed.

Section Frozen.
Variable cfg : latex_config.t.
Variable cls : Cls.
Variable v : gset Path.

Lemma seen_resolve_all c l :
  ∀ k o, preserves (seen k o)
           (mapM (fun p => r <- resolve cfg (mkRPath c p) ;; ret (path_of r)) l).
Proof.
  intros k o. apply preserves_mapM. intros p. apply preserves_bind.
  - apply preserves_resolve, attributes_only_insensitive, seen_attributes_only.
  - intros r. apply preserves_ret.
Qed.

Lemma seen_tex_paranoid_roots_resolved c :
  preserves (seen cls (Some v)) (tex_paranoid_roots_resolved cfg c).
Proof.
  intros w r w' H Hw. unfold tex_paranoid_roots_resolved in H.
  apply try_inv in H as [(a & H & _)|[(e & H & _)|(e & w1 & H & _ & H')]];
    try (apply getattr_inv in H as ->; done).
  apply getattr_unset in H as [-> Hn].
  apply bind_inv in H' as [(e' & H' & _)|(roots & w2 & H1 & H')].
  { by eapply seen_tex_paranoid_roots. }
  pose proof (seen_tex_paranoid_roots cfg cls (Some v) c _ _ _ H1 Hw) as Hw2.
  pose proof (seen_tex_paranoid_roots cfg c None c _ _ _ H1 Hn) as Hn2.
  apply bind_inv in H' as [(e' & H' & _)|(rs & w3 & H2 & H')].
  { by eapply seen_resolve_all. }
  pose proof (seen_resolve_all c _ _ _ _ _ _ H2 Hw2) as Hw3.
  pose proof (seen_resolve_all c _ _ _ _ _ _ H2 Hn2) as Hn3.
  apply bind_inv in H' as [(e' & H' & _)|(u & w4 & H3 & H')].
  { by apply setattr_inv in H' as [? _]. }
  apply setattr_inv in H3 as [_ ->]. apply getattr_inv in H' as ->.
  unfold seen, resolved_roots_seen in *. simpl.
  apply find_attr_set_unset; [attr_law|done|done].
Qed.

Lemma seen_tex_paranoid_roots_with_resolved c :
  preserves (seen cls (Some v)) (tex_paranoid_roots_with_resolved cfg c).
Proof.
  unfold tex_paranoid_roots_with_resolved.
  apply preserves_try; [apply preserves_getattr|].
  apply preserves_bind; [apply seen_tex_paranoid_roots|]. intros r.
  apply preserves_bind; [apply seen_tex_paranoid_roots_resolved|]. intros rr.
  apply preserves_bind; [apply seen_setattr; attr_law|]. intros u.
  apply preserves_getattr.
Qed.

Ltac seen_pred :=
  first
    [ apply preserves_ret | apply preserves_raise
    | apply preserves_getitem; apply seen_attributes_only
    | apply preserves_setitem; apply seen_attributes_only
    | apply preserves_resolve; apply attributes_only_insensitive, seen_attributes_only
    | apply seen_tex_texmfoutput_roots
    | apply seen_tex_paranoid_roots_resolved
    | apply preserves_bind | apply preserves_try
    | match goal with
      | |- preserves _ (match ?x with _ => _ end) => destruct x
      | |- preserves _ (let '(_, _) := ?x in _) => destruct x
      | |- ∀ _, _ => intro
      end ].

Lemma seen_directory_predicates self :
  preserves (seen cls (Some v)) (tex_readable_dir cfg self)
  ∧ preserves (seen cls (Some v)) (tex_writable_dir cfg self).
Proof.
  unfold tex_readable_dir, tex_writable_dir.
  destruct (predicates_from (cls_of self));
    (split; try apply preserves_raise);
    unfold StringRestrictedPath_tex_readable_dir, StringRestrictedPath_tex_writable_dir,
      ResolvedRestrictedPath_tex_readable_dir, ResolvedRestrictedPath_tex_writable_dir;
    repeat seen_pred.
Qed.

Lemma seen_predicate c self : preserves (seen cls (Some v)) (predicate cfg c self).
Proof.
  destruct c; simpl; try apply seen_directory_predicates.
  - unfold tex_readable_file.
    destruct (predicates_from (cls_of self)); try apply preserves_raise;
      unfold StringRestrictedPath_tex_readable_file,
        ResolvedRestrictedPath_tex_readable_file;
      repeat first [ apply seen_directory_predicates | seen_pred ].
  - unfold tex_writable_file.
    destruct (predicates_from (cls_of self)); try apply preserves_raise;
      unfold StringRestrictedPath_tex_writable_file,
        ResolvedRestrictedPath_tex_writable_file;
      repeat first [ apply seen_directory_predicates | seen_pred ].
Qed.

Lemma seen_run a w : seen cls (Some v) w → seen cls (Some v) (run cfg a w).
Proof.
  intros Hw.
  assert (∀ {A} (m : M A), preserves (seen cls (Some v)) m →
                           seen cls (Some v) (after m w)) as Hk.
  { intros A m Hm. eapply Hm; [apply run_eq|done]. }
  destruct a;
    try (apply preserves_gate;
         [apply attributes_only_insensitive, seen_attributes_only
         |apply seen_predicate|done|done]);
    cbn [run]; try done; apply Hk.
  - apply seen_tex_cwd.
  - apply seen_TEXMFOUTPUT.
  - apply seen_TEXMF_OUTPUT_DIRECTORY.
  - apply seen_tex_openout_roots.
  - apply seen_tex_paranoid_roots.
  - apply seen_tex_paranoid_roots_resolved.
  - apply seen_tex_paranoid_roots_with_resolved.
  - apply seen_tex_texmfoutput_roots.
Qed.

Lemma seen_run_all l w : seen cls (Some v) w → seen cls (Some v) (run_all cfg l w).
Proof.
  revert w. induction l as [|a l IH]; intros w Hw; [done|].
  simpl. by apply IH, seen_run.
Qed.

End Frozen.

Lemma resolve_all_eq cfg c l w :
  mapM (fun p => r <- resolve cfg (mkRPath c p) ;; ret (path_of r)) l w
  = (resolve_all (fs w) (latex_config.tex_cwd cfg) l,
     log_resolutions (asked_until_failure (fs w) (latex_config.tex_cwd cfg) l) w).
Proof.
  revert w. induction l as [|p l IH]; intros w; [done|].
  cbn [mapM resolve_all asked_until_failure]. unfold bind at 1. unfold bind at 1.
  rewrite resolve_eq. cbn [path_of cls_of].
  destruct (fs_resolve (fs w) _ p) as [e|q]; [done|].
  unfold ret at 1. unfold bind. rewrite IH. cbn [fs log_resolution].
  by destruct (resolve_all _ _ l).
Qed.

Lemma log_resolutions_fields l w :
  fs (log_resolutions l w) = fs w
  ∧ class_dict (log_resolutions l w) = class_dict w
  ∧ resolutions (log_resolutions l w) = (resolutions w ++ l)%list.
Proof.
  revert w. induction l as [|p l IH]; intros w; simpl.
  - by rewrite app_nil_r.
  - destruct (IH (log_resolution p w)) as (-> & -> & ->). simpl.
    by rewrite <- app_assoc.
Qed.

Lemma resolve_all_run cfg c l w :
  let m := mapM (fun p => r <- resolve cfg (mkRPath c p) ;; ret (path_of r)) l in
  result m w = resolve_all (fs w) (latex_config.tex_cwd cfg) l
  ∧ resolutions (after m w)
    = (resolutions w ++ asked_until_failure (fs w) (latex_config.tex_cwd cfg) l)%list
  ∧ class_dict (after m w) = class_dict w.
Proof.
  cbv zeta. unfold result, after. rewrite resolve_all_eq. cbn [fst snd].
  destruct (log_resolutions_fields
              (asked_until_failure (fs w) (latex_config.tex_cwd cfg) l) w)
    as (_ & -> & ->).
  done.
Qed.

Lemma resolved_roots_stored cfg cls w v w' :
  tex_paranoid_roots_resolved cfg cls w = (inr v, w') → seen cls (Some v) w'.
Proof.
  intros H. unfold tex_paranoid_roots_resolved in H.
  apply try_inv in H as [(a & H & Ha)|[(e & _ & _ & He)|(e & w1 & _ & _ & H')]].
  - simplify_eq. by apply getattr_value in H as [-> H].
  - done.
  - apply bind_inv in H' as [(e' & _ & He')|(roots & w2 & _ & H')]; [done|].
    apply bind_inv in H' as [(e' & _ & He')|(rs & w3 & _ & H')]; [done|].
    apply bind_inv in H' as [(e' & _ & He')|(u & w4 & _ & H')]; [done|].
    by apply getattr_value in H' as [-> H'].
Qed.






(** X11. Once [tex_paranoid_roots_resolved] has returned a set of roots
    for a class, every later call for that class returns the same set and
    changes nothing, whatever calls of the package, changes of the file
    system and changes of directory happen in between: the roots are
    resolved once and never again. *)
Theorem X11_resolved_roots_frozen cfg cls w v l :
  result (tex_paranoid_roots_resolved cfg cls) w = inr v →
  let w1 := run_all cfg l (after (tex_paranoid_roots_resolved cfg cls) w) in
  tex_paranoid_roots_resolved cfg cls w1 = (inr v, w1).
Proof.
  intros H w1.
  assert (seen cls (Some v) w1) as Hs.
  { apply seen_run_all. eapply resolved_roots_stored.
    rewrite run_eq. by rewrite H. }
  unfold tex_paranoid_roots_resolved, try_except, getattr at 1.
  unfold seen, resolved_roots_seen in Hs. by rewrite Hs.
Qed.

Lemma X11_witness :
  result (tex_paranoid_roots_resolved Sample.restrictive SafeResolvedRestrictedPath)
    Sample.w0
  = inr (list_to_set [mkPath true ["work"]; mkPath true ["fallback"]])
  ∧ result (tex_paranoid_roots_resolved Sample.restrictive SafeResolvedRestrictedPath)
      (run_all Sample.restrictive
         [file_system_changes (mkFileSystem (fun _ _ => inl OSError)
                                 (fun _ _ => false) (fun _ => None));
          call_tex_paranoid_roots_resolved ResolvedRestrictedPath;
          chdir "/tmp"]
         (after (tex_paranoid_roots_resolved Sample.restrictive
                   SafeResolvedRestrictedPath) Sample.w0))
    = inr (list_to_set [mkPath true ["work"]; mkPath true ["fallback"]]).
Proof.
  split; [vm_compute; reflexivity|].
  refine (f_equal fst
            (X11_resolved_roots_frozen Sample.restrictive SafeResolvedRestrictedPath
               Sample.w0 _ _ _)).
  vm_compute; reflexivity.
Defined.


(** ** The resolving classes: the directory predicates *)

Lemma resolved_dir_miss cfg c (anywhere : bool) self w :
  cache_of c w !! cache_key self = None →
  result
    (try_except (getitem c (cache_key self)) is_KeyError
       ((if anywhere then setitem c (cache_key self) (true, None)
         else
           resolved <- resolve cfg self ;;
           roots <- tex_paranoid_roots_resolved cfg (cls_of self) ;;
           if relative_to_any (path_of resolved) roots then
             setitem c (cache_key self) (true, None)
           else
             setitem c (cache_key self) (false, Some reason_location)) ;;;
        getitem c (cache_key self))) w
  = if anywhere then inr (true, None)
    else
      match fs_resolve (fs w) (latex_config.tex_cwd cfg) (path_of self) with
      | inl e => inl e
      | inr q =>
          match result (tex_paranoid_roots_resolved cfg (cls_of self))
                  (log_resolution (path_of self) w) with
          | inl e => inl e
          | inr roots =>
              inr (if relative_to_any q roots then (true, None)
                   else (false, Some reason_location))
          end
      end.
Proof.
  intros Hmiss. unfold result, try_except, getitem at 1. rewrite Hmiss.
  cbn [is_KeyError]. destruct anywhere; [apply deny_result|].
  unfold bind at 1. unfold bind at 1. rewrite resolve_eq.
  destruct (fs_resolve _ _ _) as [e|q]; [done|]. cbn [path_of].
  unfold bind at 1.
  destruct (tex_paranoid_roots_resolved cfg (cls_of self) _) as [[e|roots] w2];
    [done|].
  cbn [fst]. destruct (relative_to_any q roots).
  - unfold setitem, getitem. cbn. by rewrite cache_of_set_cache, lookup_insert_eq.
  - unfold setitem, getitem. cbn. by rewrite cache_of_set_cache, lookup_insert_eq.
Qed.

(** X12. On the resolving classes, when no decision is cached for the
    path, [tex_readable_dir] and [tex_writable_dir] allow the path when the
    policy permits access anywhere, without resolving anything; otherwise
    they resolve the path from the TeX working directory and allow it
    exactly when the resolved path lies under one of the resolved paranoid
    roots of the class, refusing it with the location reason otherwise.
    An error of the resolution of the path or of a root is raised. *)
Theorem X12_resolved_directory_decision cfg w cls p :
  is_resolved_cls cls = true →
  let decide_with (anywhere : bool) : exn + decision :=
    if anywhere then inr (true, None)
    else
      match fs_resolve (fs w) (latex_config.tex_cwd cfg) p with
      | inl e => inl e
      | inr q =>
          match result (tex_paranoid_roots_resolved cfg cls) (log_resolution p w) with
          | inl e => inl e
          | inr roots =>
              inr (if relative_to_any q roots then (true, None)
                   else (false, Some reason_location))
          end
      end in
  (cache_of readable_dir w !! (cls, p) = None →
   result (tex_readable_dir cfg (mkRPath cls p)) w
   = decide_with (_tex_can_read_anywhere cfg cls))
  ∧ (cache_of writable_dir w !! (cls, p) = None →
     result (tex_writable_dir cfg (mkRPath cls p)) w
     = decide_with (_tex_can_write_anywhere cfg cls)).
Proof.
  intros Hc%is_resolved_predicates. cbv zeta. split; intros Hmiss.
  - unfold tex_readable_dir. cbn [cls_of]. rewrite Hc.
    by apply (resolved_dir_miss cfg readable_dir _ (mkRPath cls p)).
  - unfold tex_writable_dir. cbn [cls_of]. rewrite Hc.
    by apply (resolved_dir_miss cfg writable_dir _ (mkRPath cls p)).
Qed.

Lemma X12_witness :
  is_resolved_cls SafeResolvedRestrictedPath = true
  ∧ cache_of writable_dir Sample.w0
      !! (SafeResolvedRestrictedPath, mkPath false ["docs"; "link.tex"]) = None
  ∧ result (tex_writable_dir Sample.permissive
              (mkRPath SafeResolvedRestrictedPath (mkPath false ["docs"; "link.tex"])))
      Sample.w0
    = inr (false, Some reason_location).
Proof.
  split; [reflexivity|]. split; [reflexivity|].
  etrans;
    [exact (proj2 (X12_resolved_directory_decision Sample.permissive Sample.w0
                     SafeResolvedRestrictedPath (mkPath false ["docs"; "link.tex"])
                     eq_refl) eq_refl)|].
  vm_compute. reflexivity.
Defined.


(** ** The classes that override the policy *)

Lemma bind_ext {A B} (m m' : M A) (k k' : A → M B) w :
  m' w = m w → (∀ a w1, k' a w1 = k a w1) → bind m' k' w = bind m k w.
Proof. intros Hm Hk. unfold bind. rewrite Hm. destruct (m w) as [[e|a] w1]; done. Qed.

Lemma with_cd_ext cfg cfg' {A} (b b' : M A) w :
  latex_config.tex_cwd cfg' = latex_config.tex_cwd cfg →
  (∀ w1, b' w1 = b w1) →
  with_cd_tex_cwd cfg' b' w = with_cd_tex_cwd cfg b w.
Proof.
  intros Hc Hb. unfold with_cd_tex_cwd, bind, _CdTeXCwd_enter. rewrite Hc.
  destruct (String.eqb _ _); by rewrite Hb.
Qed.

Lemma bind_resolve_ext cfg cfg' {B} self (k1 k2 : RPath → M B) w :
  latex_config.tex_cwd cfg' = latex_config.tex_cwd cfg →
  (∀ q w', k1 (mkRPath (cls_of self) q) w' = k2 (mkRPath (cls_of self) q) w') →
  bind (resolve cfg' self) k1 w = bind (resolve cfg self) k2 w.
Proof.
  intros Hc H. unfold bind. rewrite !resolve_eq, Hc.
  destruct (fs_resolve _ _ _); [done|apply H].
Qed.

Section Policy.
Variable cfg : latex_config.t.
Variables ra rd wa wd : bool.
Variable cls : Cls.
Hypothesis overridden :
  is_safe_cls cls = true
  ∨ (is_safe_write_cls cls = true
     ∧ ra = latex_config.can_read_anywhere cfg
     ∧ rd = latex_config.can_read_dotfiles cfg).

Lemma policy_directory_predicates p :
  tex_readable_dir (with_policy cfg ra rd wa wd) (mkRPath cls p)
  = tex_readable_dir cfg (mkRPath cls p)
  ∧ tex_writable_dir (with_policy cfg ra rd wa wd) (mkRPath cls p)
    = tex_writable_dir cfg (mkRPath cls p).
Proof.
  destruct overridden as [Hs|(Hs & -> & ->)];
    destruct cls; try done; split; reflexivity.
Qed.

Lemma policy_predicate c p w :
  predicate (with_policy cfg ra rd wa wd) c (mkRPath cls p) w
  = predicate cfg c (mkRPath cls p) w.
Proof.
  destruct c; cbn [predicate];
    try (by rewrite (proj1 (policy_directory_predicates p)));
    try (by rewrite (proj2 (policy_directory_predicates p))).
  - destruct overridden as [Hs|(Hs & -> & ->)]; destruct cls; try done;
      unfold tex_readable_file;
      change (predicates_from _) with ResolvedRestrictedPath;
      cbv iota; unfold ResolvedRestrictedPath_tex_readable_file, try_except;
      (destruct (getitem _ _ w) as [[e|d] w1]; [|done]);
      (destruct (is_KeyError e); [|done]);
      (apply bind_resolve_ext; [done|]); intros q w'; reflexivity.
  - destruct overridden as [Hs|(Hs & -> & ->)]; destruct cls; try done;
      unfold tex_writable_file;
      change (predicates_from _) with ResolvedRestrictedPath;
      cbv iota; unfold ResolvedRestrictedPath_tex_writable_file, try_except;
      (destruct (getitem _ _ w) as [[e|d] w1]; [|done]);
      (destruct (is_KeyError e); [|done]);
      (apply bind_resolve_ext; [done|]); intros q w'; reflexivity.
Qed.

Lemma policy_operation o p w :
  run_op (with_policy cfg ra rd wa wd) o (mkRPath cls p) w
  = run_op cfg o (mkRPath cls p) w.
Proof.
  rewrite !run_op_guarded. unfold guarded.
  apply with_cd_ext; [done|]. intros w1.
  apply bind_ext; [by apply policy_predicate|]. intros [ok r] w2. reflexivity.
Qed.

End Policy.

(** X13. The classes [SafeStringRestrictedPath] and
    [SafeResolvedRestrictedPath] behave the same whatever the four policy
    booleans of the configuration are, and the classes
    [SafeWriteStringRestrictedPath] and [SafeWriteResolvedRestrictedPath]
    behave the same whatever the two booleans for writing are: each
    predicate and each operation on one path returns the same result and
    leaves the same world. *)
Theorem X13_safe_classes_ignore_policy cfg ra rd wa wd cls p w :
  (is_safe_cls cls = true →
   (∀ c, predicate (with_policy cfg ra rd wa wd) c (mkRPath cls p) w
         = predicate cfg c (mkRPath cls p) w)
   ∧ (∀ o, run_op (with_policy cfg ra rd wa wd) o (mkRPath cls p) w
           = run_op cfg o (mkRPath cls p) w))
  ∧ (is_safe_write_cls cls = true →
     let other :=
       with_policy cfg (latex_config.can_read_anywhere cfg)
         (latex_config.can_read_dotfiles cfg) wa wd in
     (∀ c, predicate other c (mkRPath cls p) w = predicate cfg c (mkRPath cls p) w)
     ∧ (∀ o, run_op other o (mkRPath cls p) w = run_op cfg o (mkRPath cls p) w)).
Proof.
  split; intros Hs.
  - split; intros x; [apply policy_predicate|apply policy_operation]; by left.
  - split; intros x; [apply policy_predicate|apply policy_operation]; by right.
Qed.

Lemma X13_witness :
  is_safe_cls SafeResolvedRestrictedPath = true
  ∧ predicate (with_policy Sample.restrictive true true true true) readable_file
      (mkRPath SafeResolvedRestrictedPath (PurePath.of_string "/etc/.profile"))
      Sample.w0
    = predicate Sample.restrictive readable_file
        (mkRPath SafeResolvedRestrictedPath (PurePath.of_string "/etc/.profile"))
        Sample.w0.
Proof.
  split; [reflexivity|].
  exact (proj1 (proj1 (X13_safe_classes_ignore_policy Sample.restrictive
                         true true true true SafeResolvedRestrictedPath
                         (PurePath.of_string "/etc/.profile") Sample.w0) eq_refl)
           readable_file).
Defined.


(** ** The current directory of the process does not matter *)

Lemma respects_ret {A} R (a : A) : respects R (ret a).
Proof. by intros w w' H. Qed.

Lemma respects_raise {A} R e : respects R (@raise A e).
Proof. by intros w w' H. Qed.

Lemma respects_bind {A B} R (m : M A) (k : A → M B) :
  respects R m → (∀ a, respects R (k a)) → respects R (bind m k).
Proof.
  intros Hm Hk w w' H. destruct (Hm w w' H) as [Hr Hf].
  unfold result, after, bind in *.
  destruct (m w) as [[e|a] w1], (m w') as [[e'|a'] w1']; simpl in *; simplify_eq.
  - done.
  - by apply Hk.
Qed.

Lemma respects_try {A} R (m h : M A) catches :
  respects R m → respects R h → respects R (try_except m catches h).
Proof.
  intros Hm Hh w w' H. destruct (Hm w w' H) as [Hr Hf].
  unfold result, after, try_except in *.
  destruct (m w) as [[e|a] w1], (m w') as [[e'|a'] w1']; simpl in *; simplify_eq.
  - destruct (catches e); [by apply Hh|done].
  - done.
Qed.

Lemma respects_mapM {A B} R (f : A → M B) l :
  (∀ x, respects R (f x)) → respects R (mapM f l).
Proof.
  intros Hf. induction l as [|x l IH]; simpl.
  - apply respects_ret.
  - apply respects_bind; [apply Hf|]. intros y.
    apply respects_bind; [apply IH|]. intros ys. apply respects_ret.
Qed.

Lemma blind_ret {A} S (a : A) : blind S (ret a).
Proof. apply respects_ret. Qed.

Lemma blind_raise {A} S e : blind S (@raise A e).
Proof. apply respects_raise. Qed.

Lemma blind_bind {A B} S (m : M A) (k : A → M B) :
  blind S m → (∀ a, blind S (k a)) → blind S (bind m k).
Proof. apply respects_bind. Qed.

Lemma blind_try {A} S (m h : M A) catches :
  blind S m → blind S h → blind S (try_except m catches h).
Proof. apply respects_try. Qed.

Lemma blind_mapM {A B} S (f : A → M B) l :
  (∀ x, blind S (f x)) → blind S (mapM f l).
Proof. apply respects_mapM. Qed.

Lemma blind_getitem S c key : F_cache c ∉ S → blind S (getitem c key).
Proof.
  intros Hc w w' H. pose proof (H (F_cache c) Hc) as Hs. simpl in Hs.
  unfold result, after, getitem. rewrite Hs.
  by destruct (cache_of c w !! key).
Qed.

Lemma blind_setitem S c key d : F_cache c ∉ S → blind S (setitem c key d).
Proof.
  intros Hc w w' H. pose proof (H (F_cache c) Hc) as Hs. simpl in Hs.
  split; [done|]. unfold after, setitem. simpl. rewrite Hs.
  intros f Hf. specialize (H f Hf).
  destruct f as [| | |c'| | |]; try (by destruct c).
  simpl. destruct (decide (c = c')) as [->|Hn].
  - by rewrite !cache_of_set_cache.
  - by rewrite !cache_of_set_cache_ne.
Qed.

Lemma blind_getattr {A} S (a : Attr A) cls : F_class_dict ∉ S → blind S (getattr a cls).
Proof.
  intros Hc w w' H. pose proof (H F_class_dict Hc) as Hs. simpl in Hs.
  unfold result, after, getattr. rewrite Hs.
  by destruct (find_attr _ _ _).
Qed.

Lemma blind_setattr {A} S (a : Attr A) cls x :
  F_class_dict ∉ S → blind S (setattr a cls x).
Proof.
  intros Hc w w' H. pose proof (H F_class_dict Hc) as Hs. simpl in Hs.
  split; [done|]. unfold after, setattr. simpl. rewrite Hs.
  intros f Hf. specialize (H f Hf). by destruct f as [| | |[]| | |].
Qed.

Lemma blind_resolve cfg S self :
  F_fs ∉ S → F_resolutions ∉ S → blind S (resolve cfg self).
Proof.
  intros H1 H2 w w' H. pose proof (H F_fs H1) as Hs. simpl in Hs.
  pose proof (H F_resolutions H2) as Hr. simpl in Hr.
  unfold result, after. rewrite !resolve_eq, Hs. split; [done|].
  intros f Hf. specialize (H f Hf). destruct f as [| | |[]| | |]; simpl in *;
    try done. by rewrite Hr.
Qed.

Lemma blind_is_resolved S self : F_fs ∉ S → F_cwd ∉ S → blind S (is_resolved self).
Proof.
  intros H1 H2 w w' H. pose proof (H F_fs H1) as Hs. simpl in Hs.
  pose proof (H F_cwd H2) as Hc. simpl in Hc.
  unfold result, after, is_resolved. simpl. by rewrite Hs, Hc.
Qed.

Lemma blind_super_call S c : F_fs ∉ S → F_fs_calls ∉ S → blind S (super_call c).
Proof.
  intros H1 H2 w w' H. pose proof (H F_fs H1) as Hs. simpl in Hs.
  pose proof (H F_fs_calls H2) as Hc. simpl in Hc.
  unfold result, after, super_call. simpl. rewrite Hs. split; [done|].
  intros f Hf. specialize (H f Hf). destruct f as [| | |[]| | |]; simpl in *;
    try done. by rewrite Hc.
Qed.

Section Blind.
Variable cfg : latex_config.t.
Variable S : list Field.
Hypothesis S_fs : F_fs ∉ S.
Hypothesis S_cache : ∀ c, F_cache c ∉ S.
Hypothesis S_class_dict : F_class_dict ∉ S.
Hypothesis S_resolutions : F_resolutions ∉ S.
Hypothesis S_fs_calls : F_fs_calls ∉ S.

Ltac blind_step :=
  first
    [ apply blind_ret | apply blind_raise
    | apply blind_getitem; apply S_cache
    | apply blind_setitem; apply S_cache
    | apply blind_getattr; exact S_class_dict
    | apply blind_setattr; exact S_class_dict
    | apply blind_resolve; [exact S_fs|exact S_resolutions]
    | apply blind_super_call; [exact S_fs|exact S_fs_calls]
    | apply blind_bind | apply blind_try | apply blind_mapM
    | match goal with
      | |- blind _ (match ?x with _ => _ end) => destruct x
      | |- blind _ (let '(_, _) := ?x in _) => destruct x
      | |- ∀ _, _ => intro
      end ].

Lemma blind_tex_cwd cls : blind S (tex_cwd cfg cls).
Proof. unfold tex_cwd. repeat blind_step. Qed.

Lemma blind_TEXMFOUTPUT cls : blind S (TEXMFOUTPUT cfg cls).
Proof. unfold TEXMFOUTPUT. repeat blind_step. Qed.

Lemma blind_TEXMF_OUTPUT_DIRECTORY cls : blind S (TEXMF_OUTPUT_DIRECTORY cfg cls).
Proof. unfold TEXMF_OUTPUT_DIRECTORY. repeat blind_step. Qed.

Ltac blind_cls :=
  first
    [ apply blind_tex_cwd | apply blind_TEXMFOUTPUT | apply blind_TEXMF_OUTPUT_DIRECTORY
    | blind_step ].

Lemma blind_tex_openout_roots cls : blind S (tex_openout_roots cfg cls).
Proof. unfold tex_openout_roots, attr_append. repeat blind_cls. Qed.

Lemma blind_tex_paranoid_roots cls : blind S (tex_paranoid_roots cfg cls).
Proof. unfold tex_paranoid_roots, attr_add. repeat blind_cls. Qed.

Lemma blind_tex_texmfoutput_roots cls : blind S (tex_texmfoutput_roots cfg cls).
Proof. unfold tex_texmfoutput_roots, attr_add. repeat blind_cls. Qed.

Lemma blind_tex_paranoid_roots_resolved cls :
  blind S (tex_paranoid_roots_resolved cfg cls).
Proof.
  unfold tex_paranoid_roots_resolved.
  repeat first [ apply blind_tex_paranoid_roots | blind_step ].
Qed.

Lemma blind_tex_paranoid_roots_with_resolved cls :
  blind S (tex_paranoid_roots_with_resolved cfg cls).
Proof.
  unfold tex_paranoid_roots_with_resolved.
  repeat first [ apply blind_tex_paranoid_roots
               | apply blind_tex_paranoid_roots_resolved | blind_step ].
Qed.

Ltac blind_roots :=
  first
    [ apply blind_tex_texmfoutput_roots | apply blind_tex_paranoid_roots_resolved
    | blind_step ].

Lemma blind_directory_predicates self :
  blind S (tex_readable_dir cfg self) ∧ blind S (tex_writable_dir cfg self).
Proof.
  unfold tex_readable_dir, tex_writable_dir.
  destruct (predicates_from (cls_of self));
    (split; try apply blind_raise);
    unfold StringRestrictedPath_tex_readable_dir, StringRestrictedPath_tex_writable_dir,
      ResolvedRestrictedPath_tex_readable_dir, ResolvedRestrictedPath_tex_writable_dir;
    repeat blind_roots.
Qed.

Lemma blind_predicate c self : blind S (predicate cfg c self).
Proof.
  destruct c; simpl; try apply blind_directory_predicates.
  - unfold tex_readable_file.
    destruct (predicates_from (cls_of self)); try apply blind_raise;
      unfold StringRestrictedPath_tex_readable_file,
        ResolvedRestrictedPath_tex_readable_file;
      repeat first [ apply blind_directory_predicates | blind_roots ].
  - unfold tex_writable_file.
    destruct (predicates_from (cls_of self)); try apply blind_raise;
      unfold StringRestrictedPath_tex_writable_file,
        ResolvedRestrictedPath_tex_writable_file;
      repeat first [ apply blind_directory_predicates | blind_roots ].
Qed.

End Blind.

Lemma blind_with_cd cfg {A} (body : M A) :
  blind [F_cwd_stack] body → modifies fp_gate body →
  blind [F_cwd; F_cwd_stack] (with_cd_tex_cwd cfg body).
Proof.
  intros Hb Hm w w' H.
  assert (frame [F_cwd_stack] (after (_CdTeXCwd_enter cfg) w)
            (after (_CdTeXCwd_enter cfg) w')) as H1.
  { intros f Hf. destruct (decide (f = F_cwd)) as [->|Hn].
    - simpl. by rewrite !enter_cwd.
    - assert (f ≠ F_cwd_stack) as Hn' by set_solver.
      pose proof (enter_same cfg f w Hn Hn') as E1.
      pose proof (enter_same cfg f w' Hn Hn') as E2.
      assert (same f w w') as E by (apply H; set_solver).
      destruct f as [| | |[]| | |]; simpl in *; congruence. }
  destruct (Hb _ _ H1) as [Hr Hf].
  unfold result at 1 2, after at 1 2.
  rewrite !(with_cd_footprint cfg fp_gate body) by (done || compute_done).
  cbn [fst snd]. split; [done|].
  intros f Hn. assert (same f (after body (after (_CdTeXCwd_enter cfg) w))
                         (after body (after (_CdTeXCwd_enter cfg) w'))) as E
    by (apply Hf; set_solver).
  destruct f as [| | |[]| | |]; simpl in *; try done; set_solver.
Qed.

Section BlindGates.
Variable cfg : latex_config.t.

Ltac blind_in_cd :=
  first
    [ apply blind_predicate; [compute_done|intros []; compute_done|compute_done..]
    | apply (blind_predicate cfg [F_cwd_stack] ltac:(compute_done)
               ltac:(intros []; compute_done) ltac:(compute_done)
               ltac:(compute_done) writable_file)
    | apply (blind_predicate cfg [F_cwd_stack] ltac:(compute_done)
               ltac:(intros []; compute_done) ltac:(compute_done)
               ltac:(compute_done) readable_file)
    | apply blind_ret | apply blind_raise
    | apply blind_resolve; compute_done
    | apply blind_is_resolved; compute_done
    | apply blind_super_call; compute_done
    | apply blind_bind | apply blind_try
    | match goal with
      | |- blind _ (match ?x with _ => _ end) => destruct x
      | |- blind _ (let '(_, _) := ?x in _) => destruct x
      | |- ∀ _, _ => intro
      end ].

Lemma blind_guarded c what call self :
  blind [F_cwd; F_cwd_stack] (guarded cfg (predicate cfg c) what call self).
Proof.
  unfold guarded. apply blind_with_cd.
  - gate_unfold. repeat blind_in_cd.
  - gate_unfold.
    repeat first [ fp_gate_step
                 | apply modifies_predicate; [intros []| |]; fp_mem ].
Qed.

Lemma blind_guarded_both what what_target call self target :
  blind [F_cwd; F_cwd_stack] (guarded_both cfg what what_target call self target).
Proof.
  unfold guarded_both. apply blind_with_cd.
  - gate_unfold. repeat blind_in_cd.
  - gate_unfold. repeat fp_gate_step.
Qed.

Lemma blind_open self mode : blind [F_cwd; F_cwd_stack] (open cfg self mode).
Proof.
  intros w w' H. unfold result, after. rewrite !open_guarded.
  destruct (PyStr.char_in "r" mode); [|destruct (existsb _ _)].
  - by apply blind_guarded.
  - by apply blind_guarded.
  - apply (blind_with_cd cfg (raise NotImplementedError));
      [apply blind_raise|apply modifies_raise|done].
Qed.

End BlindGates.

Lemma world_eq w w' :
  frame [F_cwd; F_cwd_stack] w w' →
  cwd w' = cwd w → cwd_stack w' = cwd_stack w → w' = w.
Proof.
  intros H Hc Hs.
  pose proof (H F_fs ltac:(compute_done)) as H1.
  pose proof (H (F_cache readable_dir) ltac:(compute_done)) as H2.
  pose proof (H (F_cache readable_file) ltac:(compute_done)) as H3.
  pose proof (H (F_cache writable_dir) ltac:(compute_done)) as H4.
  pose proof (H (F_cache writable_file) ltac:(compute_done)) as H5.
  pose proof (H F_class_dict ltac:(compute_done)) as H6.
  pose proof (H F_resolutions ltac:(compute_done)) as H7.
  pose proof (H F_fs_calls ltac:(compute_done)) as H8.
  destruct w, w'. simpl in *. congruence.
Qed.

Lemma frame_set_cwd d w : frame [F_cwd; F_cwd_stack] w (set_cwd d w).
Proof. intros f Hf. destruct f as [| | |[]| | |]; try done; set_solver. Qed.

Lemma run_blind cfg a w w' :
  is_call a = true →
  frame [F_cwd; F_cwd_stack] w w' →
  frame [F_cwd; F_cwd_stack] (run cfg a w) (run cfg a w').
Proof.
  intros Ha H.
  assert (∀ {A} (m : M A), blind [F_cwd; F_cwd_stack] m →
            frame [F_cwd; F_cwd_stack] (after m w) (after m w')) as Hk.
  { intros A m Hm. by apply Hm. }
  destruct a; try done; cbn [run]; apply Hk.
  - apply blind_predicate; [compute_done|intros []; compute_done|compute_done..].
  - apply blind_resolve; compute_done.
  - apply blind_tex_cwd; compute_done.
  - apply blind_TEXMFOUTPUT; compute_done.
  - apply blind_TEXMF_OUTPUT_DIRECTORY; compute_done.
  - apply blind_tex_openout_roots; compute_done.
  - apply blind_tex_paranoid_roots; compute_done.
  - apply blind_tex_paranoid_roots_resolved; compute_done.
  - apply blind_tex_paranoid_roots_with_resolved; compute_done.
  - apply blind_tex_texmfoutput_roots; compute_done.
  - apply (blind_guarded cfg writable_dir).
  - apply blind_open.
  - apply (blind_guarded cfg readable_file).
  - apply (blind_guarded cfg readable_file).
  - apply blind_guarded_both.
  - apply blind_guarded_both.
  - apply (blind_guarded cfg writable_dir).
  - apply (blind_guarded cfg writable_file).
  - apply (blind_guarded cfg writable_file).
  - apply (blind_guarded cfg writable_file).
  - apply (blind_guarded cfg writable_file).
Qed.

(** X14. The package does not depend on the current directory of the
    process: started from another current directory, every call leaves the
    same world, up to that directory, and every predicate and every
    operation returns the same result or raises the same error. *)
Theorem X14_calls_ignore_current_directory cfg d w :
  (∀ a, is_call a = true → run cfg a (set_cwd d w) = set_cwd d (run cfg a w))
  ∧ (∀ c self, result (predicate cfg c self) (set_cwd d w)
               = result (predicate cfg c self) w)
  ∧ (∀ o self, result (run_op cfg o self) (set_cwd d w)
               = result (run_op cfg o self) w)
  ∧ (∀ self mode, result (open cfg self mode) (set_cwd d w)
                  = result (open cfg self mode) w)
  ∧ (∀ self target, result (rename cfg self target) (set_cwd d w)
                    = result (rename cfg self target) w
                    ∧ result (replace cfg self target) (set_cwd d w)
                      = result (replace cfg self target) w).
Proof.
  pose proof (frame_set_cwd d w) as H.
  assert (∀ {A} (m : M A), blind [F_cwd; F_cwd_stack] m →
            result m (set_cwd d w) = result m w) as Hk.
  { intros A m Hm. by apply Hm. }
  repeat split.
  - intros a Ha.
    pose proof (run_footprint cfg a (set_cwd d w) Ha) as Hd.
    pose proof (run_footprint cfg a w Ha) as Hw.
    pose proof (Hd F_cwd ltac:(compute_done)) as Hc.
    pose proof (Hd F_cwd_stack ltac:(compute_done)) as Hs.
    pose proof (Hw F_cwd_stack ltac:(compute_done)) as Hs'.
    simpl in Hc, Hs, Hs'.
    apply world_eq.
    + intros f Hf. pose proof (run_blind cfg a w (set_cwd d w) Ha H f Hf) as E.
      destruct f as [| | |[]| | |]; try done; set_solver.
    + by rewrite Hc.
    + cbn [cwd_stack set_cwd]. by rewrite Hs, Hs'.
  - intros c self. apply Hk.
    apply blind_predicate; [compute_done|intros []; compute_done|compute_done..].
  - intros o self. rewrite run_op_guarded. apply Hk, blind_guarded.
  - intros self mode. apply Hk, blind_open.
  - apply Hk, blind_guarded_both.
  - apply Hk, blind_guarded_both.
Qed.

Lemma X14_witness :
  is_call (call_write_text (Sample.res "docs/link.tex")) = true
  ∧ run Sample.restrictive (call_write_text (Sample.res "docs/link.tex"))
      (set_cwd "/tmp" Sample.w0)
    = set_cwd "/tmp"
        (run Sample.restrictive (call_write_text (Sample.res "docs/link.tex"))
           Sample.w0).
Proof.
  split; [reflexivity|].
  exact (proj1 (X14_calls_ignore_current_directory Sample.restrictive "/tmp"
                  Sample.w0)
           (call_write_text (Sample.res "docs/link.tex")) eq_refl).
Defined.


(** ** The cached decisions of other classes do not matter *)

Section Agree.
Variable cfg : latex_config.t.
Variable cls : Cls.

Lemma agree_fields w w' :
  agree_for cls w w' →
  fs w' = fs w ∧ cwd w' = cwd w ∧ cwd_stack w' = cwd_stack w
  ∧ class_dict w' = class_dict w ∧ resolutions w' = resolutions w
  ∧ fs_calls w' = fs_calls w.
Proof.
  intros [H _].
  pose proof (H F_fs ltac:(compute_done)).
  pose proof (H F_cwd ltac:(compute_done)).
  pose proof (H F_cwd_stack ltac:(compute_done)).
  pose proof (H F_class_dict ltac:(compute_done)).
  pose proof (H F_resolutions ltac:(compute_done)).
  pose proof (H F_fs_calls ltac:(compute_done)).
  done.
Qed.

Lemma agree_intro w w' :
  fs w' = fs w → cwd w' = cwd w → cwd_stack w' = cwd_stack w →
  class_dict w' = class_dict w → resolutions w' = resolutions w →
  fs_calls w' = fs_calls w →
  (∀ c p, cache_of c w' !! (cls, p) = cache_of c w !! (cls, p)) →
  agree_for cls w w'.
Proof.
  intros H1 H2 H3 H4 H5 H6 H7. split; [|done].
  intros f Hf. destruct f as [| | |c| | |]; try done.
  exfalso. apply Hf. destruct c; compute_done.
Qed.

Ltac agree_start H :=
  let H1 := fresh "Hfs" in let H2 := fresh "Hcwd" in let H3 := fresh "Hst" in
  let H4 := fresh "Hcd" in let H5 := fresh "Hres" in let H6 := fresh "Hcalls" in
  pose proof (agree_fields _ _ H) as (H1 & H2 & H3 & H4 & H5 & H6).

Lemma agree_getitem c p : respects (agree_for cls) (getitem c (cls, p)).
Proof.
  intros w w' H. unfold result, after, getitem. rewrite (proj2 H c p).
  by destruct (cache_of c w !! (cls, p)).
Qed.

Lemma agree_setitem c p d : respects (agree_for cls) (setitem c (cls, p) d).
Proof.
  intros w w' H. agree_start H. split; [done|].
  unfold after, setitem. cbn [snd].
  apply agree_intro; try (by destruct c).
  intros c' q. destruct (decide (c = c')) as [<-|Hn].
  - rewrite !cache_of_set_cache.
    destruct (decide (p = q)) as [->|Hpq].
    + by rewrite !lookup_insert_eq.
    + rewrite !lookup_insert_ne by congruence. apply (proj2 H).
  - rewrite !cache_of_set_cache_ne by done. apply (proj2 H).
Qed.

Lemma agree_getattr {A} (a : Attr A) c : respects (agree_for cls) (getattr a c).
Proof.
  intros w w' H. agree_start H. unfold result, after, getattr. rewrite Hcd.
  by destruct (find_attr _ _ _).
Qed.

Lemma agree_setattr {A} (a : Attr A) c x : respects (agree_for cls) (setattr a c x).
Proof.
  intros w w' H. agree_start H. split; [done|].
  unfold after, setattr. cbn [snd].
  apply agree_intro; simpl; try done; [by rewrite Hcd|].
  intros c' q. pose proof (proj2 H c' q) as E. by destruct c'.
Qed.

Lemma agree_resolve self : respects (agree_for cls) (resolve cfg self).
Proof.
  intros w w' H. agree_start H. unfold result, after. rewrite !resolve_eq, Hfs.
  split; [done|]. cbn [snd].
  apply agree_intro; simpl; try done; [by rewrite Hres|].
  intros c' q. pose proof (proj2 H c' q) as E. by destruct c'.
Qed.

Lemma agree_is_resolved self : respects (agree_for cls) (is_resolved self).
Proof.
  intros w w' H. agree_start H. unfold result, after, is_resolved. simpl.
  by rewrite Hfs, Hcwd.
Qed.

Lemma agree_super_call c : respects (agree_for cls) (super_call c).
Proof.
  intros w w' H. agree_start H. unfold result, after, super_call. simpl.
  rewrite Hfs. split; [done|].
  apply agree_intro; simpl; try done; [by rewrite Hcalls|].
  intros c' q. pose proof (proj2 H c' q) as E. by destruct c'.
Qed.

Lemma agree_set_cwd d w w' :
  agree_for cls w w' → agree_for cls (set_cwd d w) (set_cwd d w').
Proof.
  intros H. agree_start H. apply agree_intro; simpl; try done.
  intros c' q. pose proof (proj2 H c' q) as E. by destruct c'.
Qed.

Lemma agree_set_cwd_stack s w w' :
  agree_for cls w w' → agree_for cls (set_cwd_stack s w) (set_cwd_stack s w').
Proof.
  intros H. agree_start H. apply agree_intro; simpl; try done.
  intros c' q. pose proof (proj2 H c' q) as E. by destruct c'.
Qed.

Lemma agree_with_cd {A} (body : M A) :
  respects (agree_for cls) body → respects (agree_for cls) (with_cd_tex_cwd cfg body).
Proof.
  intros Hb w w' H. agree_start H.
  assert (agree_for cls (after (_CdTeXCwd_enter cfg) w)
            (after (_CdTeXCwd_enter cfg) w')) as H1.
  { unfold after, _CdTeXCwd_enter. rewrite Hcwd, Hst.
    destruct (String.eqb _ _); cbn [snd].
    - by apply agree_set_cwd_stack.
    - by apply agree_set_cwd, agree_set_cwd_stack. }
  destruct (Hb _ _ H1) as [Hr H2]. agree_start H2.
  unfold result, after, with_cd_tex_cwd, bind in *.
  rewrite !enter_run. unfold after.
  destruct (body (_CdTeXCwd_enter cfg w).2) as [r1 w1].
  destruct (body (_CdTeXCwd_enter cfg w').2) as [r1' w1'].
  cbn [fst snd] in *. subst r1'.
  unfold _CdTeXCwd_exit. rewrite Hst0.
  destruct (cwd_stack w1) as [|x s]; [done|].
  destruct (List.last (x :: s) None); cbn [fst snd].
  - split; [done|]. by apply agree_set_cwd, agree_set_cwd_stack.
  - split; [done|]. by apply agree_set_cwd_stack.
Qed.

Lemma agree_bind_resolve {B} self (k : RPath → M B) :
  (∀ q, respects (agree_for cls) (k (mkRPath (cls_of self) q))) →
  respects (agree_for cls) (bind (resolve cfg self) k).
Proof.
  intros Hk w w' H. destruct (agree_resolve self w w' H) as [Hr H1].
  unfold result, after, bind in *. rewrite !resolve_eq in *. cbn [fst snd] in *.
  destruct (fs_resolve (fs w) _ _) as [e|q], (fs_resolve (fs w') _ _) as [e'|q'];
    simplify_eq; [done|].
  by apply Hk.
Qed.

Ltac agree_step :=
  first
    [ apply respects_ret | apply respects_raise
    | apply agree_getattr | apply agree_setattr
    | apply agree_resolve | apply agree_is_resolved | apply agree_super_call
    | apply respects_bind | apply respects_try | apply respects_mapM
    | match goal with
      | |- respects _ (match ?x with _ => _ end) => destruct x
      | |- respects _ (let '(_, _) := ?x in _) => destruct x
      | |- ∀ _, _ => intro
      end ].

Lemma agree_tex_cwd c : respects (agree_for cls) (tex_cwd cfg c).
Proof. unfold tex_cwd. repeat agree_step. Qed.

Lemma agree_TEXMFOUTPUT c : respects (agree_for cls) (TEXMFOUTPUT cfg c).
Proof. unfold TEXMFOUTPUT. repeat agree_step. Qed.

Lemma agree_TEXMF_OUTPUT_DIRECTORY c :
  respects (agree_for cls) (TEXMF_OUTPUT_DIRECTORY cfg c).
Proof. unfold TEXMF_OUTPUT_DIRECTORY. repeat agree_step. Qed.

Ltac agree_cls :=
  first
    [ apply agree_tex_cwd | apply agree_TEXMFOUTPUT | apply agree_TEXMF_OUTPUT_DIRECTORY
    | agree_step ].

Lemma agree_tex_paranoid_roots c : respects (agree_for cls) (tex_paranoid_roots cfg c).
Proof. unfold tex_paranoid_roots, attr_add. repeat agree_cls. Qed.

Lemma agree_tex_texmfoutput_roots c :
  respects (agree_for cls) (tex_texmfoutput_roots cfg c).
Proof. unfold tex_texmfoutput_roots, attr_add. repeat agree_cls. Qed.

Lemma agree_tex_paranoid_roots_resolved c :
  respects (agree_for cls) (tex_paranoid_roots_resolved cfg c).
Proof.
  unfold tex_paranoid_roots_resolved.
  repeat first [ apply agree_tex_paranoid_roots | agree_step ].
Qed.

Ltac agree_pred :=
  first
    [ apply agree_getitem | apply agree_setitem
    | apply agree_tex_texmfoutput_roots | apply agree_tex_paranoid_roots_resolved
    | apply agree_bind_resolve
    | agree_step ].

Lemma agree_directory_predicates p :
  respects (agree_for cls) (tex_readable_dir cfg (mkRPath cls p))
  ∧ respects (agree_for cls) (tex_writable_dir cfg (mkRPath cls p)).
Proof.
  unfold tex_readable_dir, tex_writable_dir. cbn [cls_of].
  destruct (predicates_from cls);
    (split; try apply respects_raise);
    unfold StringRestrictedPath_tex_readable_dir, StringRestrictedPath_tex_writable_dir,
      ResolvedRestrictedPath_tex_readable_dir, ResolvedRestrictedPath_tex_writable_dir,
      cache_key;
    cbn [cls_of path_of]; repeat agree_pred.
Qed.

Lemma agree_predicate c p :
  respects (agree_for cls) (predicate cfg c (mkRPath cls p)).
Proof.
  destruct c; simpl; try apply agree_directory_predicates.
  - unfold tex_readable_file. cbn [cls_of].
    destruct (predicates_from cls); try apply respects_raise;
      unfold StringRestrictedPath_tex_readable_file,
        ResolvedRestrictedPath_tex_readable_file, cache_key, RPath_parent;
      cbn [cls_of path_of];
      repeat first [ apply agree_directory_predicates | agree_pred ].
  - unfold tex_writable_file. cbn [cls_of].
    destruct (predicates_from cls); try apply respects_raise;
      unfold StringRestrictedPath_tex_writable_file,
        ResolvedRestrictedPath_tex_writable_file, cache_key, RPath_parent;
      cbn [cls_of path_of];
      repeat first [ apply agree_directory_predicates | agree_pred ].
Qed.

Lemma agree_guarded c what call p :
  respects (agree_for cls) (guarded cfg (predicate cfg c) what call (mkRPath cls p)).
Proof.
  unfold guarded. apply agree_with_cd. gate_unfold.
  repeat first [ apply agree_predicate | agree_step ].
Qed.

Lemma agree_with_entry c key d w :
  key.1 ≠ cls → agree_for cls w (with_entry c key d w).
Proof.
  intros Hk. unfold with_entry. apply agree_intro; try (by destruct c).
  intros c' q. destruct (decide (c = c')) as [<-|Hn].
  - rewrite cache_of_set_cache. apply lookup_insert_ne. by intros ->.
  - by rewrite cache_of_set_cache_ne.
Qed.

End Agree.

(** X15. The four caches are shared by all the classes, and every entry
    is kept under the class of its path: a decision that is cached for a
    path of another class changes neither what a predicate returns nor what
    an operation does. *)
Theorem X15_cached_decisions_are_per_class cfg c key d self w :
  key.1 ≠ cls_of self →
  (∀ c0, result (predicate cfg c0 self) (with_entry c key d w)
         = result (predicate cfg c0 self) w)
  ∧ (∀ o, result (run_op cfg o self) (with_entry c key d w)
          = result (run_op cfg o self) w
          ∧ fs_calls (after (run_op cfg o self) (with_entry c key d w))
            = fs_calls (after (run_op cfg o self) w)).
Proof.
  intros Hk. pose proof (agree_with_entry (cls_of self) c key d w Hk) as H.
  destruct self as [cls p]. cbn [cls_of] in *. split.
  - intros c0. by apply agree_predicate.
  - intros o. rewrite run_op_guarded.
    destruct (agree_guarded cfg cls (op_predicate o) (op_what o) (op_call o) p _ _ H)
      as [Hr Ha].
    split; [done|]. by apply agree_fields in Ha as (_ & _ & _ & _ & _ & ->).
Qed.

Lemma X15_witness :
  (ResolvedRestrictedPath, PurePath.of_string "/etc/passwd").1
  ≠ cls_of (mkRPath SafeResolvedRestrictedPath (PurePath.of_string "/etc/passwd"))
  ∧ result (predicate Sample.permissive readable_file
              (mkRPath SafeResolvedRestrictedPath (PurePath.of_string "/etc/passwd")))
      (with_entry readable_file
         (ResolvedRestrictedPath, PurePath.of_string "/etc/passwd") (true, None)
         Sample.w0)
    = result (predicate Sample.permissive readable_file
                (mkRPath SafeResolvedRestrictedPath (PurePath.of_string "/etc/passwd")))
        Sample.w0.
Proof.
  assert ((ResolvedRestrictedPath, PurePath.of_string "/etc/passwd").1
          ≠ cls_of (mkRPath SafeResolvedRestrictedPath
                      (PurePath.of_string "/etc/passwd"))) as H by done.
  split; [exact H|].
  exact (proj1 (X15_cached_decisions_are_per_class Sample.permissive readable_file
                  (ResolvedRestrictedPath, PurePath.of_string "/etc/passwd")
                  (true, None)
                  (mkRPath SafeResolvedRestrictedPath
                     (PurePath.of_string "/etc/passwd"))
                  Sample.w0 H) readable_file).
Defined.


(** ** What the queries leave alone *)

(** X16. The predicates, [resolve] and the class methods never hand a
    call down to a method that modifies the file system. *)
Theorem X16_queries_never_modify cfg a w :
  is_query a = true → fs_calls (run cfg a w) = fs_calls w.
Proof.
  intros Ha.
  assert (∀ {A} (m : M A),
            modifies [F_cache readable_dir; F_cache readable_file;
                      F_cache writable_dir; F_cache writable_file;
                      F_class_dict; F_resolutions] m →
            fs_calls (after m w) = fs_calls w) as Hq.
  { intros A m Hm. apply (Hm w F_fs_calls). compute_done. }
  destruct a; try done; cbn [run]; apply Hq.
  - apply modifies_predicate; [intros []| |]; by repeat constructor.
  - apply modifies_resolve; by repeat constructor.
  - apply modifies_tex_cwd; by repeat constructor.
  - apply modifies_TEXMFOUTPUT; by repeat constructor.
  - apply modifies_TEXMF_OUTPUT_DIRECTORY; by repeat constructor.
  - apply modifies_tex_openout_roots; by repeat constructor.
  - apply modifies_tex_paranoid_roots; by repeat constructor.
  - apply modifies_tex_paranoid_roots_resolved; by repeat constructor.
  - apply modifies_tex_paranoid_roots_with_resolved; by repeat constructor.
  - apply modifies_tex_texmfoutput_roots; by repeat constructor.
Qed.

Lemma X16_witness :
  is_query (call_predicate writable_file (Sample.res "docs/link.tex")) = true
  ∧ fs_calls (run Sample.permissive
                (call_predicate writable_file (Sample.res "docs/link.tex")) Sample.w0)
    = [].
Proof.
  split; [reflexivity|].
  exact (X16_queries_never_modify Sample.permissive
           (call_predicate writable_file (Sample.res "docs/link.tex")) Sample.w0
           eq_refl).
Defined.

(** ** Errors of the resolution *)

(** X17. On the resolving classes, when no decision is cached for the path
    and the file system fails to resolve it, a predicate that resolves the
    path raises the error of the file system and caches nothing: the world
    is as before but for the log of resolutions, and the next call
    resolves again. *)
Theorem X17_resolution_errors_not_cached cfg c cls p e w :
  is_resolved_cls cls = true →
  skips_resolution cfg cls c = false →
  cache_of c w !! (cls, p) = None →
  fs_resolve (fs w) (latex_config.tex_cwd cfg) p = inl e →
  predicate cfg c (mkRPath cls p) w = (inl e, log_resolution p w).
Proof.
  intros Hc%is_resolved_predicates Hs Hmiss He.
  destruct c; cbn [predicate skips_resolution] in *;
    unfold tex_readable_dir, tex_readable_file, tex_writable_dir, tex_writable_file;
    cbn [cls_of]; rewrite Hc;
    unfold ResolvedRestrictedPath_tex_readable_dir,
      ResolvedRestrictedPath_tex_readable_file,
      ResolvedRestrictedPath_tex_writable_dir,
      ResolvedRestrictedPath_tex_writable_file, try_except, getitem at 1, cache_key;
    cbn [cls_of path_of]; rewrite Hmiss; cbn [is_KeyError]; rewrite ?Hs;
    unfold bind at 1; try unfold bind at 1; rewrite resolve_eq;
    cbn [cls_of path_of]; by rewrite He.
Qed.

Lemma X17_witness :
  is_resolved_cls ResolvedRestrictedPath = true
  ∧ skips_resolution Sample.restrictive ResolvedRestrictedPath writable_file = false
  ∧ predicate Sample.restrictive writable_file (Sample.res "a.txt")
      (set_fs (mkFileSystem (fun _ _ => inl OSError) (fun _ _ => false)
                 (fun _ => None)) Sample.w0)
    = (inl OSError,
       log_resolution (PurePath.of_string "a.txt")
         (set_fs (mkFileSystem (fun _ _ => inl OSError) (fun _ _ => false)
                    (fun _ => None)) Sample.w0)).
Proof.
  split; [reflexivity|]. split; [reflexivity|].
  exact (X17_resolution_errors_not_cached Sample.restrictive writable_file
           ResolvedRestrictedPath (PurePath.of_string "a.txt") OSError
           (set_fs (mkFileSystem (fun _ _ => inl OSError) (fun _ _ => false)
                      (fun _ => None)) Sample.w0)
           eq_refl eq_refl eq_refl eq_refl).
Defined.

(** ** The base class *)

(** X18. [BaseRestrictedPath] itself cannot be used on the file system:
    on a path of the base class every predicate, every operation on one or
    two paths and [open] raise [NotImplementedError], and no call goes to
    the file system. *)
Theorem X18_base_class_is_abstract cfg p w :
  let self := mkRPath BaseRestrictedPath p in
  (∀ c, predicate cfg c self w = (inl NotImplementedError, w))
  ∧ (∀ o, result (run_op cfg o self) w = inl NotImplementedError
          ∧ fs_calls (after (run_op cfg o self) w) = fs_calls w)
  ∧ (∀ mode, result (open cfg self mode) w = inl NotImplementedError
             ∧ fs_calls (after (open cfg self mode) w) = fs_calls w)
  ∧ (∀ target,
       (result (rename cfg self target) w = inl NotImplementedError
        ∧ fs_calls (after (rename cfg self target) w) = fs_calls w)
       ∧ (result (replace cfg self target) w = inl NotImplementedError
          ∧ fs_calls (after (replace cfg self target) w) = fs_calls w)).
Proof.
  cbv zeta.
  assert (fs_calls (after (_CdTeXCwd_enter cfg) w) = fs_calls w) as Hw1
    by (by apply (enter_same cfg F_fs_calls)).
  assert (∀ c what call,
            result (guarded cfg (predicate cfg c) what call
                      (mkRPath BaseRestrictedPath p)) w
            = inl NotImplementedError
            ∧ fs_calls (after (guarded cfg (predicate cfg c) what call
                                 (mkRPath BaseRestrictedPath p)) w)
              = fs_calls w) as Hg.
  { intros c what call.
    destruct (guarded_run cfg c what call (mkRPath BaseRestrictedPath p) w
                (inl NotImplementedError) (after (_CdTeXCwd_enter cfg) w))
      as (-> & -> & _); [by destruct c|done]. }
  assert (∀ what what_target call target,
            result (guarded_both cfg what what_target call
                      (mkRPath BaseRestrictedPath p) target) w
            = inl NotImplementedError
            ∧ fs_calls (after (guarded_both cfg what what_target call
                                 (mkRPath BaseRestrictedPath p) target) w)
              = fs_calls w) as Hb.
  { intros what what_target call target.
    destruct (guarded_both_run cfg what what_target call
                (mkRPath BaseRestrictedPath p) target w
                (inl NotImplementedError) (after (_CdTeXCwd_enter cfg) w))
      as (-> & -> & _); done. }
  split; [by intros []|]. split; [|split].
  - intros o. rewrite run_op_guarded. apply Hg.
  - intros mode. unfold result, after. rewrite open_guarded.
    destruct (PyStr.char_in "r" mode); [apply Hg|].
    destruct (existsb _ _); [apply Hg|].
    rewrite (with_cd_footprint cfg []); [|apply modifies_raise|set_solver|set_solver].
    done.
  - intros target. split; [rewrite rename_guarded|rewrite replace_guarded]; apply Hb.
Qed.

(** ** The two halves of the policy *)

(** X19. Each predicate looks at its own half of the policy only: the
    predicates on reading are the same functions whatever the policy for
    writing and the prohibited extensions are, and the predicates on
    writing, and with them every operation that writes, are the same
    functions whatever the policy for reading is. *)
Theorem X19_predicates_use_their_half_of_policy cfg ra rd wa wd exts c :
  (about_reading c = true →
   predicate (with_write_policy cfg wa wd exts) c = predicate cfg c)
  ∧ (about_reading c = false →
     let other :=
       with_policy cfg ra rd (latex_config.can_write_anywhere cfg)
         (latex_config.can_write_dotfiles cfg) in
     predicate other c = predicate cfg c
     ∧ (∀ o, about_reading (op_predicate o) = false → run_op other o = run_op cfg o)
     ∧ rename other = rename cfg
     ∧ replace other = replace cfg).
Proof.
  destruct cfg. split; intros Hc.
  - by destruct c.
  - cbv zeta. split; [by destruct c|]. split; [|done].
    intros o Ho. by destruct o.
Qed.

Lemma X19_witness :
  about_reading readable_file = true
  ∧ predicate (with_write_policy Sample.restrictive true true []) readable_file
    = predicate Sample.restrictive readable_file.
Proof.
  split; [reflexivity|].
  exact (proj1 (X19_predicates_use_their_half_of_policy Sample.restrictive
                  false false true true [] readable_file) eq_refl).
Defined.
